(** * novel-weaver: the local persistence and backup layer

    A shallow embedding of [src/lib/database.ts] (object stores, the
    four entity repositories, the image store, the backup codec) and of
    the import handler of [src/components/ExportImportDialog.tsx].

    - An IndexedDB object store with [keyPath: 'id'] is a sequence of
      records kept in ascending order of their primary key.
    - Identifiers are strings, timestamps are integers (epoch
      milliseconds), image data is a string.
    - [Date.now()] and [Math.random()] are read from oracles that are
      part of the world; every call consumes one reading.
    - Every awaited storage call outside an explicit transaction commits
      on its own, so the store keeps the writes made before an exception. *)

From Stdlib Require Import String Ascii List ZArith Lia Bool.
From Stdlib Require Import Sorted Permutation OrderedTypeEx.
From Stdlib Require Import DecimalString DecimalPos DecimalZ.
Import ListNotations.

Local Open Scope string_scope.
Local Open Scope list_scope.
Local Open Scope Z_scope.

Set Implicit Arguments.

(** ** JavaScript values used by the code *)

Module JS.

(** Truthiness of a string: only the empty string is falsy. *)
Definition truthy (s : string) : bool :=
  match s with
  | EmptyString => false
  | String _ _ => true
  end.

(** Truthiness of an optional string ([undefined] is falsy). *)
Definition truthy_opt (o : option string) : bool :=
  match o with
  | Some s => truthy s
  | None => false
  end.

(** [Array.prototype.includes] on an array of strings. *)
Fixpoint includes (l : list string) (x : string) : bool :=
  match l with
  | [] => false
  | y :: l' => if String.eqb y x then true else includes l' x
  end.

(** [Set<string>]: members in insertion order, no duplicates. *)
Definition StringSet := list string.

Definition set_add (x : string) (s : StringSet) : StringSet :=
  if includes s x then s else s ++ [x].

(** A plain object used as a string-keyed dictionary: its own
    enumerable properties, one entry per key. *)
Definition Obj := list (string * string).

Fixpoint obj_get (k : string) (o : Obj) : option string :=
  match o with
  | [] => None
  | (k', v) :: o' => if String.eqb k' k then Some v else obj_get k o'
  end.

Fixpoint obj_replace (k v : string) (o : Obj) : Obj :=
  match o with
  | [] => [(k, v)]
  | (k', v') :: o' =>
      if String.eqb k' k then (k, v) :: o' else (k', v') :: obj_replace k v o'
  end.

(** The assignment [o[k] = v] on an object literal [{}].  The key
    [__proto__] reaches the inherited accessor, whose setter ignores a
    string value, so no own property is created for it. *)
Definition obj_set (k v : string) (o : Obj) : Obj :=
  if String.eqb k "__proto__" then o else obj_replace k v o.

(** [Object.entries]. *)
Definition entries (o : Obj) : list (string * string) := o.

Definition keys (o : Obj) : list string := map fst o.

End JS.

(** ** The data model of [src/types/novel.ts] *)

Inductive CharacterTag : Type :=
| mc | villain | ally | mentor | love_interest | side | custom.

Module Novel.
Record t : Type := mk {
  id : string;
  title : string;
  author : option string;
  coverImage : option string;
  createdAt : Z;
  updatedAt : Z
}.

(** [Omit<Novel, 'id' | 'createdAt' | 'updatedAt'>] *)
Record fields : Type := mkFields {
  f_title : string;
  f_author : option string;
  f_coverImage : option string
}.

(** [Partial<Novel>]: [None] when the payload has no such property. *)
Record partial : Type := mkPartial {
  p_id : option string;
  p_title : option string;
  p_author : option (option string);
  p_coverImage : option (option string);
  p_createdAt : option Z;
  p_updatedAt : option Z
}.

(** [{ ...existing, ...data }] *)
Definition spread (existing : t) (data : partial) : t :=
  mk (match p_id data with Some x => x | None => id existing end)
     (match p_title data with Some x => x | None => title existing end)
     (match p_author data with Some x => x | None => author existing end)
     (match p_coverImage data with Some x => x | None => coverImage existing end)
     (match p_createdAt data with Some x => x | None => createdAt existing end)
     (match p_updatedAt data with Some x => x | None => updatedAt existing end).
End Novel.

Module Character.
Record t : Type := mk {
  id : string;
  novelId : string;
  name : string;
  description : string;
  images : list string;
  tags : list CharacterTag;
  linkedCharacterIds : list string;
  linkedPlaceIds : list string;
  createdAt : Z;
  updatedAt : Z
}.

Record fields : Type := mkFields {
  f_novelId : string;
  f_name : string;
  f_description : string;
  f_images : list string;
  f_tags : list CharacterTag;
  f_linkedCharacterIds : list string;
  f_linkedPlaceIds : list string
}.

Record partial : Type := mkPartial {
  p_id : option string;
  p_novelId : option string;
  p_name : option string;
  p_description : option string;
  p_images : option (list string);
  p_tags : option (list CharacterTag);
  p_linkedCharacterIds : option (list string);
  p_linkedPlaceIds : option (list string);
  p_createdAt : option Z;
  p_updatedAt : option Z
}.

(** [{ ...existing, ...data }] *)
Definition spread (existing : t) (data : partial) : t :=
  mk (match p_id data with Some x => x | None => id existing end)
     (match p_novelId data with Some x => x | None => novelId existing end)
     (match p_name data with Some x => x | None => name existing end)
     (match p_description data with Some x => x | None => description existing end)
     (match p_images data with Some x => x | None => images existing end)
     (match p_tags data with Some x => x | None => tags existing end)
     (match p_linkedCharacterIds data with
      | Some x => x
      | None => linkedCharacterIds existing
      end)
     (match p_linkedPlaceIds data with
      | Some x => x
      | None => linkedPlaceIds existing
      end)
     (match p_createdAt data with Some x => x | None => createdAt existing end)
     (match p_updatedAt data with Some x => x | None => updatedAt existing end).
End Character.

Module Place.
Record t : Type := mk {
  id : string;
  novelId : string;
  name : string;
  description : string;
  images : list string;
  linkedCharacterIds : list string;
  createdAt : Z;
  updatedAt : Z
}.

Record fields : Type := mkFields {
  f_novelId : string;
  f_name : string;
  f_description : string;
  f_images : list string;
  f_linkedCharacterIds : list string
}.

Record partial : Type := mkPartial {
  p_id : option string;
  p_novelId : option string;
  p_name : option string;
  p_description : option string;
  p_images : option (list string);
  p_linkedCharacterIds : option (list string);
  p_createdAt : option Z;
  p_updatedAt : option Z
}.

(** [{ ...existing, ...data }] *)
Definition spread (existing : t) (data : partial) : t :=
  mk (match p_id data with Some x => x | None => id existing end)
     (match p_novelId data with Some x => x | None => novelId existing end)
     (match p_name data with Some x => x | None => name existing end)
     (match p_description data with Some x => x | None => description existing end)
     (match p_images data with Some x => x | None => images existing end)
     (match p_linkedCharacterIds data with
      | Some x => x
      | None => linkedCharacterIds existing
      end)
     (match p_createdAt data with Some x => x | None => createdAt existing end)
     (match p_updatedAt data with Some x => x | None => updatedAt existing end).
End Place.

Module Note.
Record t : Type := mk {
  id : string;
  novelId : string;
  title : string;
  content : string;
  linkedCharacterIds : list string;
  linkedPlaceIds : list string;
  createdAt : Z;
  updatedAt : Z
}.

Record fields : Type := mkFields {
  f_novelId : string;
  f_title : string;
  f_content : string;
  f_linkedCharacterIds : list string;
  f_linkedPlaceIds : list string
}.

Record partial : Type := mkPartial {
  p_id : option string;
  p_novelId : option string;
  p_title : option string;
  p_content : option string;
  p_linkedCharacterIds : option (list string);
  p_linkedPlaceIds : option (list string);
  p_createdAt : option Z;
  p_updatedAt : option Z
}.

(** [{ ...existing, ...data }] *)
Definition spread (existing : t) (data : partial) : t :=
  mk (match p_id data with Some x => x | None => id existing end)
     (match p_novelId data with Some x => x | None => novelId existing end)
     (match p_title data with Some x => x | None => title existing end)
     (match p_content data with Some x => x | None => content existing end)
     (match p_linkedCharacterIds data with
      | Some x => x
      | None => linkedCharacterIds existing
      end)
     (match p_linkedPlaceIds data with
      | Some x => x
      | None => linkedPlaceIds existing
      end)
     (match p_createdAt data with Some x => x | None => createdAt existing end)
     (match p_updatedAt data with Some x => x | None => updatedAt existing end).
End Note.

(** The value type of the [images] store: [{ id: string; data: string }]. *)
Module Image.
Record t : Type := mk {
  id : string;
  data : string
}.
End Image.

(** [ExportData] as [JSON.parse] hands it to the import path: any
    top-level field may be missing. *)
Module ExportData.
Record t : Type := mk {
  version : option string;
  exportedAt : option Z;
  novels : option (list Novel.t);
  characters : option (list Character.t);
  places : option (list Place.t);
  notes : option (list Note.t);
  images : option JS.Obj
}.
End ExportData.

(** ** Object stores *)

(** The in-line key of a store value ([keyPath: 'id']). *)
Class Keyed (V : Type) : Type := key : V -> string.

#[export] Instance Novel_Keyed : Keyed Novel.t := Novel.id.
#[export] Instance Character_Keyed : Keyed Character.t := Character.id.
#[export] Instance Place_Keyed : Keyed Place.t := Place.id.
#[export] Instance Note_Keyed : Keyed Note.t := Note.id.
#[export] Instance Image_Keyed : Keyed Image.t := Image.id.

(** Key order of string keys. *)
Definition key_lt (a b : string) : Prop := String.compare a b = Lt.

Module Store.
Section Ops.
Context {V : Type} `{Keyed V}.

Definition t := list V.

(** [get(id)]: the record stored under [id], if any. *)
Fixpoint get (k : string) (s : list V) : option V :=
  match s with
  | [] => None
  | r :: s' => if String.eqb (key r) k then Some r else get k s'
  end.

(** [put(record)]: insert, or overwrite the record with the same key. *)
Fixpoint put (r : V) (s : list V) : list V :=
  match s with
  | [] => [r]
  | r' :: s' =>
      match String.compare (key r) (key r') with
      | Eq => r :: s'
      | Lt => r :: r' :: s'
      | Gt => r' :: put r s'
      end
  end.

(** [delete(id)]: remove by key, nothing happens when absent. *)
Fixpoint delete (k : string) (s : list V) : list V :=
  match s with
  | [] => []
  | r :: s' => if String.eqb (key r) k then delete k s' else r :: delete k s'
  end.

Definition clear (s : list V) : list V := [].

(** [getAll()]: every record, in key order. *)
Definition getAll (s : list V) : list V := s.

(** [index.getAll(k)] for an index on a string property: the records
    whose property equals [k], in primary-key order. *)
Definition getAllFromIndex_eq (prop : V -> string) (k : string)
           (s : list V) : list V :=
  filter (fun r => String.eqb (prop r) k) s.

(** Insertion into a list ordered by a numeric property; a record goes
    before the first one whose property is not smaller, so records with
    equal property keep their primary-key order. *)
Fixpoint index_insert (prop : V -> Z) (r : V) (l : list V) : list V :=
  match l with
  | [] => [r]
  | r' :: l' =>
      if prop r <=? prop r' then r :: r' :: l'
      else r' :: index_insert prop r l'
  end.

(** [index.getAll()] for an index on a numeric property: every record,
    ordered by the property and then by primary key. *)
Fixpoint getAllFromIndex_ord (prop : V -> Z) (s : list V) : list V :=
  match s with
  | [] => []
  | r :: s' => index_insert prop r (getAllFromIndex_ord prop s')
  end.

(** Store invariant: strictly ascending keys. *)
Definition wf (s : list V) : Prop :=
  StronglySorted (fun a b => key_lt (key a) (key b)) s.

End Ops.
End Store.

(** ** The database and the world around it *)

Module DB.
Record t : Type := mk {
  novels : list Novel.t;
  characters : list Character.t;
  places : list Place.t;
  notes : list Note.t;
  images : list Image.t
}.

(** The database right after [upgrade] has created the five stores. *)
Definition empty : t := mk [] [] [] [] [].

Definition wf (d : t) : Prop :=
  Store.wf (novels d) /\ Store.wf (characters d) /\ Store.wf (places d) /\
  Store.wf (notes d) /\ Store.wf (images d).
End DB.

(** A store name of the schema, as a way to read and replace that store. *)
Record StoreName (V : Type) : Type := mkStoreName {
  sel : DB.t -> list V;
  upd : list V -> DB.t -> DB.t
}.

Definition s_novels : StoreName Novel.t :=
  mkStoreName DB.novels
    (fun s d => DB.mk s (DB.characters d) (DB.places d) (DB.notes d) (DB.images d)).
Definition s_characters : StoreName Character.t :=
  mkStoreName DB.characters
    (fun s d => DB.mk (DB.novels d) s (DB.places d) (DB.notes d) (DB.images d)).
Definition s_places : StoreName Place.t :=
  mkStoreName DB.places
    (fun s d => DB.mk (DB.novels d) (DB.characters d) s (DB.notes d) (DB.images d)).
Definition s_notes : StoreName Note.t :=
  mkStoreName DB.notes
    (fun s d => DB.mk (DB.novels d) (DB.characters d) (DB.places d) s (DB.images d)).
Definition s_images : StoreName Image.t :=
  mkStoreName DB.images
    (fun s d => DB.mk (DB.novels d) (DB.characters d) (DB.places d) (DB.notes d) s).

(** The world: the database, the clock behind [Date.now()] with the
    number of readings taken so far, and the source of
    [Math.random().toString(36).substr(2, 9)] with the number of draws. *)
Record World : Type := mkWorld {
  db : DB.t;
  clock : nat -> Z;
  ticks : nat;
  random : nat -> string;
  draws : nat
}.

Definition set_db (d : DB.t) (w : World) : World :=
  mkWorld d (clock w) (ticks w) (random w) (draws w).

(** ** Asynchronous code as a state and exception monad *)

Inductive Res (A : Type) : Type :=
| Ok (a : A)
| Throw (e : string).
Arguments Throw {A} e.

Definition M (A : Type) : Type := World -> Res A * World.

Definition ret {A} (a : A) : M A := fun w => (Ok a, w).

Definition bind {A B} (c : M A) (k : A -> M B) : M B :=
  fun w =>
    match c w with
    | (Ok a, w') => k a w'
    | (Throw e, w') => (Throw e, w')
    end.

Definition throw {A} (e : string) : M A := fun w => (Throw e, w).

(** [try { body } catch (error) { handler }] *)
Definition try_catch {A} (body : M A) (handler : string -> M A) : M A :=
  fun w =>
    match body w with
    | (Ok a, w') => (Ok a, w')
    | (Throw e, w') => handler e w'
    end.

Notation "x <- c1 ;; c2" := (bind c1 (fun x => c2))
  (at level 61, c1 at next level, right associativity).
Notation "c1 ;;; c2" := (bind c1 (fun _ => c2))
  (at level 61, right associativity).

(** [for (const x of l) { await f(x) }] *)
Fixpoint forEach {A} (l : list A) (f : A -> M unit) : M unit :=
  match l with
  | [] => ret tt
  | x :: l' => f x ;;; forEach l' f
  end.

(** A loop that updates a local variable. *)
Fixpoint forFold {A B} (l : list A) (f : B -> A -> M B) (acc : B) : M B :=
  match l with
  | [] => ret acc
  | x :: l' => acc' <- f acc x ;; forFold l' f acc'
  end.

(** [Date.now()] *)
Definition Date_now : M Z :=
  fun w => (Ok (clock w (ticks w)),
            mkWorld (db w) (clock w) (S (ticks w)) (random w) (draws w)).

(** [Math.random().toString(36).substr(2, 9)] *)
Definition Math_random_suffix : M string :=
  fun w => (Ok (random w (draws w)),
            mkWorld (db w) (clock w) (ticks w) (random w) (S (draws w))).

(** [for ... of] over a field of a parsed document: a missing array or
    object raises a TypeError. *)
Definition iterable {A} (o : option A) : M A :=
  match o with
  | Some l => ret l
  | None => throw "TypeError"
  end.

(** ** The storage engine calls ([idb]) *)

Section Engine.
Context {V : Type} `{Keyed V}.

Definition db_get (s : StoreName V) (k : string) : M (option V) :=
  fun w => (Ok (Store.get k (sel s (db w))), w).

Definition db_getAll (s : StoreName V) : M (list V) :=
  fun w => (Ok (Store.getAll (sel s (db w))), w).

Definition db_getAllFromIndex_eq (s : StoreName V) (prop : V -> string)
           (k : string) : M (list V) :=
  fun w => (Ok (Store.getAllFromIndex_eq prop k (sel s (db w))), w).

Definition db_getAllFromIndex_ord (s : StoreName V) (prop : V -> Z)
  : M (list V) :=
  fun w => (Ok (Store.getAllFromIndex_ord prop (sel s (db w))), w).

Definition db_put (s : StoreName V) (r : V) : M unit :=
  fun w => (Ok tt, set_db (upd s (Store.put r (sel s (db w))) (db w)) w).

Definition db_delete (s : StoreName V) (k : string) : M unit :=
  fun w => (Ok tt, set_db (upd s (Store.delete k (sel s (db w))) (db w)) w).

Definition db_clear (s : StoreName V) : M unit :=
  fun w => (Ok tt, set_db (upd s (Store.clear (sel s (db w))) (db w)) w).

End Engine.

(** [db.transaction(stores, 'readwrite')] ... [await tx.done]: the writes
    of the body are committed together, and undone when the body throws. *)
Definition transaction {A} (body : M A) : M A :=
  fun w =>
    match body w with
    | (Ok a, w') => (Ok a, w')
    | (Throw e, w') => (Throw e, set_db (db w) w')
    end.

(** ** [generateId] *)

Definition decimal (z : Z) : string := NilZero.string_of_int (Z.to_int z).

Definition generateId : M string :=
  now <- Date_now ;;
  r <- Math_random_suffix ;;
  ret (String.append (decimal now) (String.append "-" r)).

(** ** Novel operations *)

Module novelDB.

Definition getAll : M (list Novel.t) :=
  db_getAllFromIndex_ord s_novels Novel.updatedAt.

Definition get (id : string) : M (option Novel.t) :=
  db_get s_novels id.

Definition create (novel : Novel.fields) : M Novel.t :=
  now <- Date_now ;;
  newId <- generateId ;;
  let newNovel :=
    Novel.mk newId (Novel.f_title novel) (Novel.f_author novel)
             (Novel.f_coverImage novel) now now in
  db_put s_novels newNovel ;;;
  ret newNovel.

Definition update (id : string) (data : Novel.partial)
  : M (option Novel.t) :=
  existing <- db_get s_novels id ;;
  match existing with
  | None => ret None
  | Some existing =>
      let merged := Novel.spread existing data in
      now <- Date_now ;;
      let updated :=
        Novel.mk id (Novel.title merged) (Novel.author merged)
                 (Novel.coverImage merged) (Novel.createdAt merged) now in
      db_put s_novels updated ;;;
      ret (Some updated)
  end.

(** The three index reads made before the transaction is opened. *)
Definition delete_fetch (id : string)
  : M (list Character.t * list Place.t * list Note.t) :=
  characters <- db_getAllFromIndex_eq s_characters Character.novelId id ;;
  places <- db_getAllFromIndex_eq s_places Place.novelId id ;;
  notes <- db_getAllFromIndex_eq s_notes Note.novelId id ;;
  ret (characters, places, notes).

(** The transaction over the five stores. *)
Definition delete_tx (id : string)
           (fetched : list Character.t * list Place.t * list Note.t)
  : M unit :=
  let '(characters, places, notes) := fetched in
  transaction (
    forEach characters (fun char =>
      db_delete s_characters (Character.id char) ;;;
      forEach (Character.images char) (fun imgId =>
        db_delete s_images imgId)) ;;;
    forEach places (fun place =>
      db_delete s_places (Place.id place) ;;;
      forEach (Place.images place) (fun imgId =>
        db_delete s_images imgId)) ;;;
    forEach notes (fun note => db_delete s_notes (Note.id note)) ;;;
    db_delete s_novels id).

Definition delete (id : string) : M unit :=
  fetched <- delete_fetch id ;;
  delete_tx id fetched.

End novelDB.

(** ** Character operations *)

Module characterDB.

Definition getByNovel (novelId : string) : M (list Character.t) :=
  db_getAllFromIndex_eq s_characters Character.novelId novelId.

Definition get (id : string) : M (option Character.t) :=
  db_get s_characters id.

Definition create (character : Character.fields) : M Character.t :=
  now <- Date_now ;;
  newId <- generateId ;;
  let newCharacter :=
    Character.mk newId (Character.f_novelId character)
      (Character.f_name character) (Character.f_description character)
      (Character.f_images character) (Character.f_tags character)
      (Character.f_linkedCharacterIds character)
      (Character.f_linkedPlaceIds character) now now in
  db_put s_characters newCharacter ;;;
  ret newCharacter.

Definition update (id : string) (data : Character.partial)
  : M (option Character.t) :=
  existing <- db_get s_characters id ;;
  match existing with
  | None => ret None
  | Some existing =>
      let merged := Character.spread existing data in
      now <- Date_now ;;
      let updated :=
        Character.mk id (Character.novelId merged) (Character.name merged)
          (Character.description merged) (Character.images merged)
          (Character.tags merged) (Character.linkedCharacterIds merged)
          (Character.linkedPlaceIds merged) (Character.createdAt merged)
          now in
      db_put s_characters updated ;;;
      ret (Some updated)
  end.

(** The body of the loop that removes references from other characters. *)
Definition unlink (id : string) (char : Character.t) : M unit :=
  if JS.includes (Character.linkedCharacterIds char) id then
    let remaining :=
      filter (fun cid => negb (String.eqb cid id))
             (Character.linkedCharacterIds char) in
    now <- Date_now ;;
    db_put s_characters
      (Character.mk (Character.id char) (Character.novelId char)
         (Character.name char) (Character.description char)
         (Character.images char) (Character.tags char) remaining
         (Character.linkedPlaceIds char) (Character.createdAt char) now)
  else ret tt.

Definition delete (id : string) : M unit :=
  character <- db_get s_characters id ;;
  match character with
  | None => ret tt
  | Some character =>
      transaction (
        forEach (Character.images character) (fun imgId =>
          db_delete s_images imgId) ;;;
        db_delete s_characters id) ;;;
      allChars <- db_getAllFromIndex_eq s_characters Character.novelId
                    (Character.novelId character) ;;
      forEach allChars (unlink id)
  end.

End characterDB.

(** ** Place operations *)

Module placeDB.

Definition getByNovel (novelId : string) : M (list Place.t) :=
  db_getAllFromIndex_eq s_places Place.novelId novelId.

Definition get (id : string) : M (option Place.t) :=
  db_get s_places id.

Definition create (place : Place.fields) : M Place.t :=
  now <- Date_now ;;
  newId <- generateId ;;
  let newPlace :=
    Place.mk newId (Place.f_novelId place) (Place.f_name place)
      (Place.f_description place) (Place.f_images place)
      (Place.f_linkedCharacterIds place) now now in
  db_put s_places newPlace ;;;
  ret newPlace.

Definition update (id : string) (data : Place.partial)
  : M (option Place.t) :=
  existing <- db_get s_places id ;;
  match existing with
  | None => ret None
  | Some existing =>
      let merged := Place.spread existing data in
      now <- Date_now ;;
      let updated :=
        Place.mk id (Place.novelId merged) (Place.name merged)
          (Place.description merged) (Place.images merged)
          (Place.linkedCharacterIds merged) (Place.createdAt merged) now in
      db_put s_places updated ;;;
      ret (Some updated)
  end.

Definition delete (id : string) : M unit :=
  place <- db_get s_places id ;;
  match place with
  | None => ret tt
  | Some place =>
      transaction (
        forEach (Place.images place) (fun imgId =>
          db_delete s_images imgId) ;;;
        db_delete s_places id)
  end.

End placeDB.

(** ** Note operations *)

Module noteDB.

Definition getByNovel (novelId : string) : M (list Note.t) :=
  db_getAllFromIndex_eq s_notes Note.novelId novelId.

Definition get (id : string) : M (option Note.t) :=
  db_get s_notes id.

Definition create (note : Note.fields) : M Note.t :=
  now <- Date_now ;;
  newId <- generateId ;;
  let newNote :=
    Note.mk newId (Note.f_novelId note) (Note.f_title note)
      (Note.f_content note) (Note.f_linkedCharacterIds note)
      (Note.f_linkedPlaceIds note) now now in
  db_put s_notes newNote ;;;
  ret newNote.

Definition update (id : string) (data : Note.partial)
  : M (option Note.t) :=
  existing <- db_get s_notes id ;;
  match existing with
  | None => ret None
  | Some existing =>
      let merged := Note.spread existing data in
      now <- Date_now ;;
      let updated :=
        Note.mk id (Note.novelId merged) (Note.title merged)
          (Note.content merged) (Note.linkedCharacterIds merged)
          (Note.linkedPlaceIds merged) (Note.createdAt merged) now in
      db_put s_notes updated ;;;
      ret (Some updated)
  end.

Definition delete (id : string) : M unit :=
  db_delete s_notes id.

End noteDB.

(** ** Image operations *)

Module imageDB.

Definition get (id : string) : M (option string) :=
  record <- db_get s_images id ;;
  ret (option_map Image.data record).

Definition save (data : string) : M string :=
  id <- generateId ;;
  db_put s_images (Image.mk id data) ;;;
  ret id.

Definition delete (id : string) : M unit :=
  db_delete s_images id.

End imageDB.

(** ** Export/Import operations *)

Inductive ImportMode : Type := overwrite | merge.

Module dataExport.

(** The three [forEach] passes that collect the image ids. *)
Definition collect_characters (characters : list Character.t)
           (imageIds : JS.StringSet) : JS.StringSet :=
  fold_left (fun s c =>
    fold_left (fun s id => JS.set_add id s) (Character.images c) s)
    characters imageIds.

Definition collect_places (places : list Place.t)
           (imageIds : JS.StringSet) : JS.StringSet :=
  fold_left (fun s p =>
    fold_left (fun s id => JS.set_add id s) (Place.images p) s)
    places imageIds.

(** [n.coverImage && imageIds.add(n.coverImage)] *)
Definition collect_novels (novels : list Novel.t)
           (imageIds : JS.StringSet) : JS.StringSet :=
  fold_left (fun s n =>
    match Novel.coverImage n with
    | Some c => if JS.truthy c then JS.set_add c s else s
    | None => s
    end) novels imageIds.

(** [const data = await imageDB.get(id); if (data) images[id] = data] *)
Definition fetch_image (images : JS.Obj) (id : string) : M JS.Obj :=
  data <- imageDB.get id ;;
  match data with
  | Some d => ret (if JS.truthy d then JS.obj_set id d images else images)
  | None => ret images
  end.

Definition exportAll : M ExportData.t :=
  novels <- db_getAll s_novels ;;
  characters <- db_getAll s_characters ;;
  places <- db_getAll s_places ;;
  notes <- db_getAll s_notes ;;
  let imageIds :=
    collect_novels novels
      (collect_places places (collect_characters characters [])) in
  images <- forFold imageIds fetch_image [] ;;
  now <- Date_now ;;
  ret (ExportData.mk (Some "1.0") (Some now) (Some novels) (Some characters)
         (Some places) (Some notes) (Some images)).

Definition importAll (data : ExportData.t) (mode : ImportMode) : M unit :=
  match mode with
  | overwrite =>
      db_clear s_novels ;;;
      db_clear s_characters ;;;
      db_clear s_places ;;;
      db_clear s_notes ;;;
      db_clear s_images
  | merge => ret tt
  end ;;;
  images <- iterable (ExportData.images data) ;;
  forEach (JS.entries images) (fun e =>
    db_put s_images (Image.mk (fst e) (snd e))) ;;;
  novels <- iterable (ExportData.novels data) ;;
  forEach novels (fun novel => db_put s_novels novel) ;;;
  characters <- iterable (ExportData.characters data) ;;
  forEach characters (fun character => db_put s_characters character) ;;;
  places <- iterable (ExportData.places data) ;;
  forEach places (fun place => db_put s_places place) ;;;
  notes <- iterable (ExportData.notes data) ;;
  forEach notes (fun note => db_put s_notes note).

End dataExport.

(** ** The import handler of the backup dialog *)

Inductive Toast : Type :=
| toast_success (message : string)
| toast_error (message : string).

(** [handleImport], from the point where [JSON.parse] has produced
    [data]. *)
Definition handleImport (data : ExportData.t) : M Toast :=
  try_catch
    ((if negb (JS.truthy_opt (ExportData.version data))
         || match ExportData.novels data with Some _ => false | None => true end
      then throw "Invalid backup file"
      else ret tt) ;;;
     dataExport.importAll data overwrite ;;;
     ret (toast_success "Backup imported! Refreshing..."))
    (fun _ => ret (toast_error "Failed to import backup. Invalid file format.")).

(** ** The state controller of [src/contexts/NovelContext.tsx] *)

(** The React state of [NovelProvider] is a record; a callback takes the
    state of the latest render and returns the state after its [set...]
    calls, next to its result. *)
Module NovelContext.

Record State : Type := mkState {
  novels : list Novel.t;
  currentNovel : option Novel.t;
  characters : list Character.t;
  places : list Place.t;
  notes : list Note.t;
  loading : bool
}.

(** The [useState] initial values. *)
Definition initial : State := mkState [] None [] [] [] true.

Definition setNovels (x : list Novel.t) (st : State) : State :=
  mkState x (currentNovel st) (characters st) (places st) (notes st)
          (loading st).
Definition setCurrentNovel (x : option Novel.t) (st : State) : State :=
  mkState (novels st) x (characters st) (places st) (notes st) (loading st).
Definition setCharacters (x : list Character.t) (st : State) : State :=
  mkState (novels st) (currentNovel st) x (places st) (notes st) (loading st).
Definition setPlaces (x : list Place.t) (st : State) : State :=
  mkState (novels st) (currentNovel st) (characters st) x (notes st)
          (loading st).
Definition setNotes (x : list Note.t) (st : State) : State :=
  mkState (novels st) (currentNovel st) (characters st) (places st) x
          (loading st).
Definition setLoading (x : bool) (st : State) : State :=
  mkState (novels st) (currentNovel st) (characters st) (places st)
          (notes st) x.

(** [currentNovel?.id === id] *)
Definition isCurrent (id : string) (st : State) : bool :=
  match currentNovel st with
  | Some n => String.eqb (Novel.id n) id
  | None => false
  end.

(** The four [set...] calls that empty the selection. *)
Definition clearSelection (st : State) : State :=
  setNotes [] (setPlaces [] (setCharacters [] (setCurrentNovel None st))).

Definition loadNovels (st : State) : M State :=
  let st := setLoading true st in
  st <- try_catch
          (allNovels <- novelDB.getAll ;;
           ret (setNovels (rev allNovels) st))
          (fun _ => ret st) ;;
  ret (setLoading false st).



Definition createNovel (data : Novel.fields) (st : State)
  : M (Novel.t * State) :=
  novel <- novelDB.create data ;;
  ret (novel, setNovels (novel :: novels st) st).

Definition updateNovel (id : string) (data : Novel.partial) (st : State)
  : M State :=
  updated <- novelDB.update id data ;;
  match updated with
  | Some updated =>
      let st1 :=
        setNovels (map (fun n => if String.eqb (Novel.id n) id
                                 then updated else n) (novels st)) st in
      ret (if isCurrent id st then setCurrentNovel (Some updated) st1
           else st1)
  | None => ret st
  end.

Definition deleteNovel (id : string) (st : State) : M State :=
  novelDB.delete id ;;;
  let st1 :=
    setNovels (filter (fun n => negb (String.eqb (Novel.id n) id))
                      (novels st)) st in
  ret (if isCurrent id st then clearSelection st1 else st1).

Definition createCharacter (data : Character.fields) (st : State)
  : M (Character.t * State) :=
  character <- characterDB.create data ;;
  ret (character, setCharacters (characters st ++ [character]) st).

Definition updateCharacter (id : string) (data : Character.partial)
           (st : State) : M State :=
  updated <- characterDB.update id data ;;
  match updated with
  | Some updated =>
      ret (setCharacters
             (map (fun c => if String.eqb (Character.id c) id
                            then updated else c) (characters st)) st)
  | None => ret st
  end.

Definition deleteCharacter (id : string) (st : State) : M State :=
  characterDB.delete id ;;;
  ret (setCharacters
         (filter (fun c => negb (String.eqb (Character.id c) id))
                 (characters st)) st).

Definition createPlace (data : Place.fields) (st : State)
  : M (Place.t * State) :=
  place <- placeDB.create data ;;
  ret (place, setPlaces (places st ++ [place]) st).

Definition updatePlace (id : string) (data : Place.partial) (st : State)
  : M State :=
  updated <- placeDB.update id data ;;
  match updated with
  | Some updated =>
      ret (setPlaces
             (map (fun p => if String.eqb (Place.id p) id
                            then updated else p) (places st)) st)
  | None => ret st
  end.

Definition deletePlace (id : string) (st : State) : M State :=
  placeDB.delete id ;;;
  ret (setPlaces
         (filter (fun p => negb (String.eqb (Place.id p) id)) (places st))
         st).

Definition createNote (data : Note.fields) (st : State)
  : M (Note.t * State) :=
  note <- noteDB.create data ;;
  ret (note, setNotes (notes st ++ [note]) st).

Definition updateNote (id : string) (data : Note.partial) (st : State)
  : M State :=
  updated <- noteDB.update id data ;;
  match updated with
  | Some updated =>
      ret (setNotes
             (map (fun n => if String.eqb (Note.id n) id
                            then updated else n) (notes st)) st)
  | None => ret st
  end.

Definition deleteNote (id : string) (st : State) : M State :=
  noteDB.delete id ;;;
  ret (setNotes
         (filter (fun n => negb (String.eqb (Note.id n) id)) (notes st))
         st).

End NovelContext.

(** * Vocabulary of the properties *)

(** ** Several deletions, several writes, and what a merge leaves *)

Section StoreSpec.
Context {V : Type} `{Keyed V}.

Definition del_all (ks : list string) (s : list V) : list V :=
  fold_left (fun s k => Store.delete k s) ks s.

Definition put_all (l : list V) (s : list V) : list V :=
  fold_left (fun st r => Store.put r st) l s.

(** How the store after a series of writes relates to the store before. *)
Definition merge_result (doc before after : list V) : Prop :=
  (forall k,
     Store.get k after =
     match Store.get k (rev doc) with
     | Some r => Some r
     | None => Store.get k before
     end) /\
  (forall k, (forall r, In r doc -> key r <> k) ->
     Store.get k after = Store.get k before) /\
  (forall k, Store.get k before <> None -> Store.get k after <> None) /\
  (NoDup (map key doc) ->
   forall r, In r doc -> Store.get (key r) after = Some r).

End StoreSpec.

(** The dependents found by the three index reads. *)
Definition dependents (id : string) (d : DB.t)
  : list Character.t * list Place.t * list Note.t :=
  (Store.getAllFromIndex_eq Character.novelId id (DB.characters d),
   Store.getAllFromIndex_eq Place.novelId id (DB.places d),
   Store.getAllFromIndex_eq Note.novelId id (DB.notes d)).

(** The database after the transaction has deleted [fetched]. *)
Definition cascade (id : string)
           (fetched : list Character.t * list Place.t * list Note.t)
           (d : DB.t) : DB.t :=
  let '(cs, ps, ns) := fetched in
  DB.mk (Store.delete id (DB.novels d))
        (del_all (map Character.id cs) (DB.characters d))
        (del_all (map Place.id ps) (DB.places d))
        (del_all (map Note.id ns) (DB.notes d))
        (del_all (flat_map Character.images cs ++ flat_map Place.images ps)
                 (DB.images d)).

(** The record written back for a character that linked to [id]. *)
Definition unlinked (id : string) (char : Character.t) (now : Z) : Character.t :=
  Character.mk (Character.id char) (Character.novelId char)
    (Character.name char) (Character.description char)
    (Character.images char) (Character.tags char)
    (filter (fun cid => negb (String.eqb cid id))
            (Character.linkedCharacterIds char))
    (Character.linkedPlaceIds char) (Character.createdAt char) now.

(** The first phase: the transaction over [characters] and [images]. *)
Definition removed (id : string) (c : Character.t) (d : DB.t) : DB.t :=
  DB.mk (DB.novels d) (Store.delete id (DB.characters d)) (DB.places d)
        (DB.notes d) (del_all (Character.images c) (DB.images d)).

(** Replacing one store by a well-formed one keeps the database
    well-formed, and every store of a well-formed database is so. *)
Definition wf_store_name {V : Type} `{Keyed V} (s : StoreName V) : Prop :=
  (forall x d, DB.wf d -> Store.wf x -> DB.wf (upd s x d)) /\
  (forall d, DB.wf d -> Store.wf (sel s d)).

(** What a store name must satisfy to be one of the five stores. *)
Record StoreName_ok {V : Type} (s : StoreName V) : Prop := {
  sel_upd : forall x d, sel s (upd s x d) = x;
  upd_upd : forall x y d, upd s x (upd s y d) = upd s x d;
  upd_sel : forall d, upd s (sel s d) d = d
}.

Definition image_of_entry (e : string * string) : Image.t :=
  Image.mk (fst e) (snd e).

(** The database after the five writing loops, started from [d]. *)
Definition imported (ims : JS.Obj) (ns : list Novel.t) (cs : list Character.t)
           (ps : list Place.t) (nts : list Note.t) (d : DB.t) : DB.t :=
  DB.mk (put_all ns (DB.novels d)) (put_all cs (DB.characters d))
        (put_all ps (DB.places d)) (put_all nts (DB.notes d))
        (put_all (map image_of_entry (JS.entries ims)) (DB.images d)).

(** An id is referenced when a stored character or place lists it, or a
    stored novel has it as a non-empty [coverImage]. *)
Definition referenced (d : DB.t) (k : string) : Prop :=
  (exists c, In c (DB.characters d) /\ In k (Character.images c)) \/
  (exists p, In p (DB.places d) /\ In k (Place.images p)) \/
  (exists n, In n (DB.novels d) /\ Novel.coverImage n = Some k /\ k <> EmptyString).

(** The set [imageIds] built by [exportAll]. *)
Definition imageIds (d : DB.t) : JS.StringSet :=
  dataExport.collect_novels (DB.novels d)
    (dataExport.collect_places (DB.places d)
       (dataExport.collect_characters (DB.characters d) [])).

(** Whether [exportAll] stores the image [k] once it has met it. *)
Definition exportable (d : DB.t) (k : string) : bool :=
  negb (String.eqb k "__proto__") &&
  match Store.get k (DB.images d) with
  | Some r => JS.truthy (Image.data r)
  | None => false
  end.

(** One turn of the loop over [imageIds], without the monad. *)
Definition export_step (d : DB.t) (o : JS.Obj) (id : string) : JS.Obj :=
  match option_map Image.data (Store.get id (DB.images d)) with
  | Some data => if JS.truthy data then JS.obj_set id data o else o
  | None => o
  end.

Definition export_images (d : DB.t) (ids : list string) (acc : JS.Obj) : JS.Obj :=
  fold_left (export_step d) ids acc.

(** ** Single writes *)

(** [d'] is [d] with the store [s] replaced, and in that store only the
    key [k] may hold something else than before. *)
Definition rewrites_key {V : Type} `{Keyed V} (s : StoreName V) (k : string)
           (d d' : DB.t) : Prop :=
  exists x, d' = upd s x d /\
    forall k', k' <> k -> Store.get k' x = Store.get k' (sel s d).

(** The world after one reading of the clock. *)
Definition after_tick (d : DB.t) (w : World) : World :=
  mkWorld d (clock w) (S (ticks w)) (random w) (draws w).

(** The world after a [create]: two readings of the clock, one draw. *)
Definition after_create (d : DB.t) (w : World) : World :=
  mkWorld d (clock w) (S (S (ticks w))) (random w) (S (draws w)).

(** The id that a [create] started in [w] assigns. *)
Definition next_id (w : World) : string :=
  String.append (decimal (clock w (S (ticks w))))
                (String.append "-" (random w (draws w))).

(** The records that [update] writes. *)
Definition novel_updated (id : string) (existing : Novel.t)
           (data : Novel.partial) (now : Z) : Novel.t :=
  let merged := Novel.spread existing data in
  Novel.mk id (Novel.title merged) (Novel.author merged)
           (Novel.coverImage merged) (Novel.createdAt merged) now.

Definition character_updated (id : string) (existing : Character.t)
           (data : Character.partial) (now : Z) : Character.t :=
  let merged := Character.spread existing data in
  Character.mk id (Character.novelId merged) (Character.name merged)
    (Character.description merged) (Character.images merged)
    (Character.tags merged) (Character.linkedCharacterIds merged)
    (Character.linkedPlaceIds merged) (Character.createdAt merged) now.

Definition place_updated (id : string) (existing : Place.t)
           (data : Place.partial) (now : Z) : Place.t :=
  let merged := Place.spread existing data in
  Place.mk id (Place.novelId merged) (Place.name merged)
    (Place.description merged) (Place.images merged)
    (Place.linkedCharacterIds merged) (Place.createdAt merged) now.

Definition note_updated (id : string) (existing : Note.t)
           (data : Note.partial) (now : Z) : Note.t :=
  let merged := Note.spread existing data in
  Note.mk id (Note.novelId merged) (Note.title merged)
    (Note.content merged) (Note.linkedCharacterIds merged)
    (Note.linkedPlaceIds merged) (Note.createdAt merged) now.

(** The records that [create] writes. *)
Definition novel_created (f : Novel.fields) (id : string) (now : Z) : Novel.t :=
  Novel.mk id (Novel.f_title f) (Novel.f_author f) (Novel.f_coverImage f)
           now now.

Definition character_created (f : Character.fields) (id : string) (now : Z)
  : Character.t :=
  Character.mk id (Character.f_novelId f) (Character.f_name f)
    (Character.f_description f) (Character.f_images f) (Character.f_tags f)
    (Character.f_linkedCharacterIds f) (Character.f_linkedPlaceIds f)
    now now.

Definition place_created (f : Place.fields) (id : string) (now : Z) : Place.t :=
  Place.mk id (Place.f_novelId f) (Place.f_name f) (Place.f_description f)
    (Place.f_images f) (Place.f_linkedCharacterIds f) now now.

Definition note_created (f : Note.fields) (id : string) (now : Z) : Note.t :=
  Note.mk id (Note.f_novelId f) (Note.f_title f) (Note.f_content f)
    (Note.f_linkedCharacterIds f) (Note.f_linkedPlaceIds f) now now.

(** A string without the character [-]. *)
Fixpoint dash_free (s : string) : Prop :=
  match s with
  | EmptyString => True
  | String c s' => c <> "-"%char /\ dash_free s'
  end.

(** ** The five writing loops of [importAll], one at a time *)

Definition write_images (ims : JS.Obj) (d : DB.t) : DB.t :=
  upd s_images (put_all (map image_of_entry (JS.entries ims)) (DB.images d)) d.
Definition write_novels (ns : list Novel.t) (d : DB.t) : DB.t :=
  upd s_novels (put_all ns (DB.novels d)) d.
Definition write_characters (cs : list Character.t) (d : DB.t) : DB.t :=
  upd s_characters (put_all cs (DB.characters d)) d.
Definition write_places (ps : list Place.t) (d : DB.t) : DB.t :=
  upd s_places (put_all ps (DB.places d)) d.
Definition write_notes (nts : list Note.t) (d : DB.t) : DB.t :=
  upd s_notes (put_all nts (DB.notes d)) d.

(** The database from which [importAll] starts writing. *)
Definition import_start (mode : ImportMode) (d : DB.t) : DB.t :=
  match mode with
  | overwrite => DB.empty
  | merge => d
  end.

(** The result of [importAll] and the database it leaves, from the
    database it starts writing into. *)
Definition import_outcome (data : ExportData.t) (start : DB.t)
  : Res unit * DB.t :=
  match ExportData.images data with
  | None => (Throw "TypeError", start)
  | Some ims =>
      let d1 := write_images ims start in
      match ExportData.novels data with
      | None => (Throw "TypeError", d1)
      | Some ns =>
          let d2 := write_novels ns d1 in
          match ExportData.characters data with
          | None => (Throw "TypeError", d2)
          | Some cs =>
              let d3 := write_characters cs d2 in
              match ExportData.places data with
              | None => (Throw "TypeError", d3)
              | Some ps =>
                  let d4 := write_places ps d3 in
                  match ExportData.notes data with
                  | None => (Throw "TypeError", d4)
                  | Some nts => (Ok tt, write_notes nts d4)
                  end
              end
          end
      end
  end.

(** An operation keeps the store invariant. *)
Definition keeps_wf {A : Type} (c : M A) : Prop :=
  forall w, DB.wf (db w) -> DB.wf (db (snd (c w))).

(** * Example data *)

(** Worlds used in the examples: a clock that advances by one
    millisecond per reading, and a fixed random suffix. *)
Definition example_clock (n : nat) : Z := Z.of_nat n + 1700000000000.
Definition example_random (n : nat) : string := "k3x9q7m2a".

Definition world_of (d : DB.t) : World :=
  mkWorld d example_clock 0 example_random 0.

(** A store holding one novel and nothing else. *)
Definition dune : Novel.t := Novel.mk "n1" "Dune" None None 10 10.
Definition db_dune : DB.t := DB.mk [dune] [] [] [] [].

Definition paul_fields : Character.fields :=
  Character.mkFields "n1" "Paul" EmptyString [] [] [] [].

(** A store for the deletion scenarios: Paul ("c1") and Leto ("c2") in
    novel "n1", Leto linked to Paul; Duncan ("c3") in novel "n2" with a
    link to "c1"; a place and a note of "n1" that link to "c1". *)
Definition paul : Character.t :=
  Character.mk "c1" "n1" "Paul" EmptyString ["i1"] [mc] [] [] 20 20.
Definition leto : Character.t :=
  Character.mk "c2" "n1" "Leto" EmptyString [] [mentor] ["c1"] [] 30 30.
Definition duncan : Character.t :=
  Character.mk "c3" "n2" "Duncan" EmptyString [] [ally] ["c1"] [] 40 40.
Definition arrakis : Place.t :=
  Place.mk "p1" "n1" "Arrakis" EmptyString [] ["c1"] 50 50.
Definition prophecy : Note.t :=
  Note.mk "t1" "n1" "Prophecy" EmptyString ["c1"] [] 60 60.
Definition db_links : DB.t :=
  DB.mk [dune] [paul; leto; duncan] [arrakis] [prophecy] [Image.mk "i1" "AAAA"].

(** A novel with a cover image, and a character with an image of its own. *)
Definition dune_with_cover : Novel.t :=
  Novel.mk "n1" "Dune" (Some "Frank Herbert") (Some "cover1") 10 10.
Definition db_cover : DB.t :=
  DB.mk [dune_with_cover] [paul] [] []
        [Image.mk "cover1" "CCCC"; Image.mk "i1" "AAAA"].

(** A payload that renames Dune and carries a stale [updatedAt]. *)
Definition rename_payload : Novel.partial :=
  Novel.mkPartial None (Some "Dune Messiah") None None None (Some 0).

(** A world whose clock stays on the same millisecond. *)
Definition still_world (d : DB.t) : World :=
  mkWorld d (fun _ => 1700000000000) 0 example_random 0.

Definition dune_fields : Novel.fields := Novel.mkFields "Dune" None None.

Definition retitle_payload : Novel.partial :=
  Novel.mkPartial None (Some "Dune Messiah") None None None None.

Definition backdate_payload : Novel.partial :=
  Novel.mkPartial None None None None (Some 0) None.

Definition leto_fields : Character.fields :=
  Character.mkFields "n1" "Leto" EmptyString [] [] [] [].

Definition rename_character : Character.partial :=
  Character.mkPartial None None (Some "Muad'Dib") None None None None None
                      None None.

(** The scenario of the specification: "c1" collides, "c9" is new, and
    Leto, Duncan, the place and the note are not in the document. *)
Definition paul_restored : Character.t :=
  Character.mk "c1" "n1" "Paul Atreides" EmptyString [] [mc] [] [] 20 70.
Definition chani : Character.t :=
  Character.mk "c9" "n1" "Chani" EmptyString [] [love_interest] [] [] 80 80.
Definition merge_document : ExportData.t :=
  ExportData.mk (Some "1.0") (Some 90) (Some []) (Some [paul_restored; chani])
                (Some []) (Some []) (Some []).

Definition backup_without_version : ExportData.t :=
  ExportData.mk None (Some 90) (Some []) (Some []) (Some []) (Some [])
                (Some []).

Definition backup_without_novels : ExportData.t :=
  ExportData.mk (Some "1.0") (Some 90) None (Some []) (Some []) (Some [])
                (Some [("i9", "QUJD")]).

(** A character that lists an image id for which no image is stored. *)
Definition db_dangling : DB.t := DB.mk [dune] [paul] [] [] [].

(** A referenced image whose data is the empty string. *)
Definition db_blank : DB.t :=
  DB.mk [dune] [paul] [] [] [Image.mk "i1" EmptyString].

(** A payload that tries to move Dune to another id. *)
Definition reid_payload : Novel.partial :=
  Novel.mkPartial (Some "n9") (Some "Dune Messiah") None None None None.

(** A world in which the clock and the random source repeat themselves. *)
Definition stuck_world (d : DB.t) : World :=
  mkWorld d (fun _ => 1700000000000) 0 (fun _ => "k3x9q7m2a") 0.

Definition messiah_fields : Novel.fields :=
  Novel.mkFields "Dune Messiah" (Some "Frank Herbert") None.

(** A document that passes the check of [handleImport] but has no
    [characters]. *)
Definition backup_without_characters : ExportData.t :=
  ExportData.mk (Some "1.0") (Some 90) (Some [dune]) None (Some [arrakis])
                (Some [prophecy]) (Some [("i9", "QUJD")]).

(** A complete document. *)
Definition backup_complete : ExportData.t :=
  ExportData.mk (Some "1.0") (Some 90) (Some [dune]) (Some [paul_restored])
                (Some []) (Some []) (Some [("i9", "QUJD")]).

(** * Properties *)

Unset Implicit Arguments.

(** ** The order of keys *)

Lemma key_lt_trans a b c : key_lt a b -> key_lt b c -> key_lt a c.
Proof.
  unfold key_lt. intros Hab Hbc.
  apply String_as_OT.cmp_lt in Hab. apply String_as_OT.cmp_lt in Hbc.
  apply String_as_OT.cmp_lt. eapply String_as_OT.lt_trans; eassumption.
Qed.

Lemma key_lt_neq a b : key_lt a b -> a <> b.
Proof.
  unfold key_lt. intros Hlt Heq. subst b.
  assert (E : String.compare a a = Eq) by (apply String_as_OT.cmp_eq; reflexivity).
  congruence.
Qed.

Lemma compare_Eq_eq a b : String.compare a b = Eq -> a = b.
Proof. apply String_as_OT.cmp_eq. Qed.

Lemma compare_Gt_lt a b : String.compare a b = Gt -> key_lt b a.
Proof.
  unfold key_lt. intros Hgt. rewrite String.compare_antisym, Hgt. reflexivity.
Qed.

Lemma compare_Gt_neq a b : String.compare a b = Gt -> a <> b.
Proof.
  intros Hgt Heq. apply compare_Gt_lt in Hgt. symmetry in Heq.
  exact (key_lt_neq _ _ Hgt Heq).
Qed.

(** ** Reading a store after a write *)

Section StoreFacts.
Context {V : Type} `{Keyed V}.

Implicit Types (r : V) (s : list V) (k : string).

Lemma get_put_same r s : Store.get (key r) (Store.put r s) = Some r.
Proof.
  induction s as [|r' s IH]; simpl.
  - now rewrite String.eqb_refl.
  - destruct (String.compare (key r) (key r')) eqn:E; simpl.
    + now rewrite String.eqb_refl.
    + now rewrite String.eqb_refl.
    + apply compare_Gt_neq in E.
      destruct (String.eqb_spec (key r') (key r)); [congruence | exact IH].
Qed.

Lemma get_put_other k r s :
  key r <> k -> Store.get k (Store.put r s) = Store.get k s.
Proof.
  intros Hk. induction s as [|r' s IH]; simpl.
  - destruct (String.eqb_spec (key r) k); [contradiction | reflexivity].
  - destruct (String.compare (key r) (key r')) eqn:E; simpl.
    + apply compare_Eq_eq in E.
      destruct (String.eqb_spec (key r) k); [contradiction|].
      destruct (String.eqb_spec (key r') k); [congruence | reflexivity].
    + destruct (String.eqb_spec (key r) k); [contradiction | reflexivity].
    + now rewrite IH.
Qed.

Lemma get_delete_same k s : Store.get k (Store.delete k s) = None.
Proof.
  induction s as [|r s IH]; simpl; [reflexivity|].
  destruct (String.eqb_spec (key r) k) as [E|E]; simpl; [exact IH|].
  destruct (String.eqb_spec (key r) k); [contradiction | exact IH].
Qed.

Lemma get_delete_other k k' s :
  k' <> k -> Store.get k' (Store.delete k s) = Store.get k' s.
Proof.
  intros Hk. induction s as [|r s IH]; simpl; [reflexivity|].
  destruct (String.eqb_spec (key r) k) as [E|E]; simpl.
  - destruct (String.eqb_spec (key r) k'); [congruence | exact IH].
  - now rewrite IH.
Qed.

(** Deleting never brings a record back. *)
Lemma get_delete_None k k' s :
  Store.get k' s = None -> Store.get k' (Store.delete k s) = None.
Proof.
  intros Hn. destruct (String.eqb_spec k' k) as [->|Hk].
  - apply get_delete_same.
  - now rewrite get_delete_other.
Qed.

Lemma get_Some_key k s r : Store.get k s = Some r -> key r = k.
Proof.
  induction s as [|r' s IH]; simpl; [discriminate|].
  destruct (String.eqb_spec (key r') k); [|exact IH].
  intros [= <-]. assumption.
Qed.

Lemma get_Some_In k s r : Store.get k s = Some r -> In r s.
Proof.
  induction s as [|r' s IH]; simpl; [discriminate|].
  destruct (String.eqb (key r') k).
  - intros [= <-]. now left.
  - intros Hg. right. now apply IH.
Qed.

Lemma get_None_not_In k s :
  Store.get k s = None -> forall r, In r s -> key r <> k.
Proof.
  induction s as [|r' s IH]; simpl; [contradiction|].
  destruct (String.eqb_spec (key r') k); [discriminate|].
  intros Hg r [<-|Hin]; [assumption | now apply IH].
Qed.

Lemma wf_inv r s :
  Store.wf (r :: s) ->
  Store.wf s /\ Forall (fun a => key_lt (key r) (key a)) s.
Proof. intros Hwf. inversion Hwf; subst. now split. Qed.

Lemma wf_In_get s r : Store.wf s -> In r s -> Store.get (key r) s = Some r.
Proof.
  induction s as [|r' s IH]; simpl; [contradiction|].
  intros Hwf Hin. apply wf_inv in Hwf. destruct Hwf as [Hs Hall].
  destruct Hin as [->|Hin].
  - now rewrite String.eqb_refl.
  - destruct (String.eqb_spec (key r') (key r)) as [E|E].
    + rewrite Forall_forall in Hall. specialize (Hall _ Hin).
      apply key_lt_neq in Hall. contradiction.
    + now apply IH.
Qed.

Lemma wf_NoDup_keys s : Store.wf s -> NoDup (map key s).
Proof.
  induction s as [|r s IH]; simpl; intros Hwf; [constructor|].
  apply wf_inv in Hwf. destruct Hwf as [Hs Hall]. constructor; [|now apply IH].
  intros Hin. apply in_map_iff in Hin. destruct Hin as [a [Ha Hin]].
  rewrite Forall_forall in Hall. specialize (Hall _ Hin).
  apply key_lt_neq in Hall. congruence.
Qed.

Lemma In_put r a s : In a (Store.put r s) -> a = r \/ In a s.
Proof.
  induction s as [|r' s IH]; simpl.
  - intros [<-|[]]. now left.
  - destruct (String.compare (key r) (key r')); simpl.
    + intros [<-|Hin]; [now left | right; now right].
    + intros [<-|Hin]; [now left | now right].
    + intros [<-|Hin]; [right; now left|].
      destruct (IH Hin); [now left | right; now right].
Qed.

Lemma wf_put r s : Store.wf s -> Store.wf (Store.put r s).
Proof.
  induction s as [|r' s IH]; simpl; intros Hwf.
  - constructor; constructor.
  - pose proof (wf_inv _ _ Hwf) as [Hs Hall].
    destruct (String.compare (key r) (key r')) eqn:E.
    + apply compare_Eq_eq in E. constructor; [assumption|].
      rewrite E. assumption.
    + constructor; [assumption|]. constructor; [exact E|].
      eapply Forall_impl; [|exact Hall]. simpl. intros a Ha.
      eapply key_lt_trans; eassumption.
    + constructor; [now apply IH|].
      apply Forall_forall. intros a Ha. apply In_put in Ha.
      destruct Ha as [->|Ha]; [now apply compare_Gt_lt|].
      rewrite Forall_forall in Hall. now apply Hall.
Qed.

Lemma In_delete k a s : In a (Store.delete k s) -> In a s /\ key a <> k.
Proof.
  induction s as [|r s IH]; simpl; [contradiction|].
  destruct (String.eqb_spec (key r) k) as [E|E].
  - intros Hin. destruct (IH Hin). split; [now right | assumption].
  - intros [<-|Hin]; [split; [now left | assumption]|].
    destruct (IH Hin). split; [now right | assumption].
Qed.

Lemma wf_delete k s : Store.wf s -> Store.wf (Store.delete k s).
Proof.
  induction s as [|r s IH]; simpl; intros Hwf; [constructor|].
  apply wf_inv in Hwf. destruct Hwf as [Hs Hall].
  destruct (String.eqb (key r) k); [now apply IH|].
  constructor; [now apply IH|].
  apply Forall_forall. intros a Ha. apply In_delete in Ha.
  rewrite Forall_forall in Hall. now apply Hall.
Qed.

(** A record whose key is above every key of the store goes last. *)
Lemma put_last r s :
  Forall (fun a => key_lt (key a) (key r)) s -> Store.put r s = s ++ [r].
Proof.
  induction s as [|r' s IH]; simpl; intros Hall; [reflexivity|].
  inversion Hall as [|? ? Hlt Hall']; subst.
  assert (E : String.compare (key r) (key r') = Gt).
  { rewrite String.compare_antisym. unfold key_lt in Hlt. now rewrite Hlt. }
  rewrite E. now rewrite IH.
Qed.

Lemma wf_app_inv acc r l :
  Store.wf (acc ++ r :: l) ->
  Forall (fun a => key_lt (key a) (key r)) acc.
Proof.
  induction acc as [|a acc IH]; simpl; intros Hwf; [constructor|].
  apply wf_inv in Hwf. destruct Hwf as [Hs Hall]. constructor.
  - rewrite Forall_forall in Hall. apply Hall. apply in_or_app. right. now left.
  - now apply IH.
Qed.

(** Writing the records of a key-ordered list one by one rebuilds it. *)
Lemma fold_put_sorted l acc :
  Store.wf (acc ++ l) ->
  fold_left (fun s r => Store.put r s) l acc = acc ++ l.
Proof.
  revert acc. induction l as [|r l IH]; intros acc Hwf; simpl.
  - now rewrite app_nil_r.
  - rewrite (put_last _ _ (wf_app_inv _ _ _ Hwf)).
    rewrite IH; rewrite <- app_assoc; simpl; [reflexivity | assumption].
Qed.

(** After a sequence of writes a key holds the last record written under
    it, or what it held before. *)
Lemma get_fold_put k l s :
  Store.get k (fold_left (fun s r => Store.put r s) l s) =
  match Store.get k (rev l) with
  | Some r => Some r
  | None => Store.get k s
  end.
Proof.
  revert s. induction l as [|r l IH]; intros s; simpl; [reflexivity|].
  rewrite IH. clear IH.
  assert (Happ : forall l1 l2, Store.get k (l1 ++ l2) =
            match Store.get k l1 with Some x => Some x | None => Store.get k l2 end).
  { induction l1 as [|a l1 IH1]; intros l2; simpl; [reflexivity|].
    destruct (String.eqb (key a) k); [reflexivity | apply IH1]. }
  rewrite Happ. destruct (Store.get k (rev l)); [reflexivity|]. simpl.
  destruct (String.eqb_spec (key r) k) as [E|E].
  - subst k. apply get_put_same.
  - now apply get_put_other.
Qed.

End StoreFacts.

(** ** The store invariant is kept by every write *)

Lemma empty_wf : DB.wf DB.empty.
Proof. repeat split; constructor. Qed.

Ltac wf_store_name :=
  split;
  [ intros x d (Hn & Hc & Hp & Ht & Hi) Hx; repeat split; assumption
  | intros d (Hn & Hc & Hp & Ht & Hi); assumption ].

Lemma s_novels_wf : wf_store_name s_novels.
Proof. wf_store_name. Qed.
Lemma s_characters_wf : wf_store_name s_characters.
Proof. wf_store_name. Qed.
Lemma s_places_wf : wf_store_name s_places.
Proof. wf_store_name. Qed.
Lemma s_notes_wf : wf_store_name s_notes.
Proof. wf_store_name. Qed.
Lemma s_images_wf : wf_store_name s_images.
Proof. wf_store_name. Qed.

Section WritesKeepWf.
Context {V : Type} `{Keyed V} (s : StoreName V) (Hs : wf_store_name s).

Lemma db_put_wf r w :
  DB.wf (db w) -> DB.wf (db (snd (db_put s r w))).
Proof.
  intros Hwf. destruct Hs as [Hupd Hsel]. simpl.
  apply Hupd; [assumption|]. apply wf_put. now apply Hsel.
Qed.

Lemma db_delete_wf k w :
  DB.wf (db w) -> DB.wf (db (snd (db_delete s k w))).
Proof.
  intros Hwf. destruct Hs as [Hupd Hsel]. simpl.
  apply Hupd; [assumption|]. apply wf_delete. now apply Hsel.
Qed.

Lemma db_clear_wf w :
  DB.wf (db w) -> DB.wf (db (snd (db_clear s w))).
Proof.
  intros Hwf. destruct Hs as [Hupd _]. simpl.
  apply Hupd; [assumption | constructor].
Qed.

End WritesKeepWf.

(** ** Running monadic code *)

Lemma bind_Ok {A B} (c : M A) (k : A -> M B) w a w' :
  c w = (Ok a, w') -> bind c k w = k a w'.
Proof. unfold bind. now intros ->. Qed.

Lemma bind_Throw {A B} (c : M A) (k : A -> M B) w e w' :
  c w = (Throw e, w') -> bind c k w = (Throw e, w').
Proof. unfold bind. now intros ->. Qed.

Lemma set_db_same w : set_db (db w) w = w.
Proof. now destruct w. Qed.

(** A loop whose body only rewrites the database. *)
Lemma forEach_db {A} (l : list A) (f : A -> M unit) (g : A -> DB.t -> DB.t) :
  (forall x w, f x w = (Ok tt, set_db (g x (db w)) w)) ->
  forall w,
    forEach l f w = (Ok tt, set_db (fold_left (fun d x => g x d) l (db w)) w).
Proof.
  intros Hf. induction l as [|x l IH]; intros w; simpl.
  - unfold ret. now rewrite set_db_same.
  - rewrite (bind_Ok _ _ _ _ _ (Hf x w)). rewrite IH. reflexivity.
Qed.

(** The five [get] operations read the store and change nothing. *)
Lemma novelDB_get_run id w :
  novelDB.get id w = (Ok (Store.get id (DB.novels (db w))), w).
Proof. reflexivity. Qed.

Lemma characterDB_get_run id w :
  characterDB.get id w = (Ok (Store.get id (DB.characters (db w))), w).
Proof. reflexivity. Qed.

Lemma placeDB_get_run id w :
  placeDB.get id w = (Ok (Store.get id (DB.places (db w))), w).
Proof. reflexivity. Qed.

Lemma noteDB_get_run id w :
  noteDB.get id w = (Ok (Store.get id (DB.notes (db w))), w).
Proof. reflexivity. Qed.

Lemma imageDB_get_run id w :
  imageDB.get id w =
  (Ok (option_map Image.data (Store.get id (DB.images (db w)))), w).
Proof. reflexivity. Qed.

(** ** Deleting several keys *)

Section DeleteMany.
Context {V : Type} `{Keyed V}.

Lemma del_all_app ks1 ks2 s :
  del_all (ks1 ++ ks2) s = del_all ks2 (del_all ks1 s).
Proof. unfold del_all. apply fold_left_app. Qed.

Lemma get_del_all_None ks k s :
  Store.get k s = None -> Store.get k (del_all ks s) = None.
Proof.
  revert s. induction ks as [|k' ks IH]; intros s Hn; simpl; [assumption|].
  apply IH. now apply get_delete_None.
Qed.

Lemma get_del_all_In ks k s : In k ks -> Store.get k (del_all ks s) = None.
Proof.
  revert s. induction ks as [|k' ks IH]; intros s; simpl; [contradiction|].
  intros [->|Hin]; [|now apply IH].
  apply get_del_all_None. apply get_delete_same.
Qed.

Lemma get_del_all_other ks k s :
  ~ In k ks -> Store.get k (del_all ks s) = Store.get k s.
Proof.
  revert s. induction ks as [|k' ks IH]; intros s Hn; simpl; [reflexivity|].
  rewrite IH by (intros Hin; apply Hn; now right).
  apply get_delete_other. intros ->. apply Hn. now left.
Qed.

Lemma wf_del_all ks s : Store.wf s -> Store.wf (del_all ks s).
Proof.
  revert s. induction ks as [|k ks IH]; intros s Hwf; simpl; [assumption|].
  apply IH. now apply wf_delete.
Qed.

End DeleteMany.

(** ** What [novelDB.delete] leaves in the database *)

Lemma delete_images_run imgs w :
  forEach imgs (fun imgId => db_delete s_images imgId) w =
  (Ok tt, set_db (upd s_images (del_all imgs (DB.images (db w))) (db w)) w).
Proof.
  revert w. induction imgs as [|i imgs IH]; intros w; simpl.
  - unfold ret. destruct w as [[] ? ? ? ?]. reflexivity.
  - unfold bind at 1. unfold db_delete at 1. rewrite IH. reflexivity.
Qed.

Lemma delete_characters_run cs w :
  forEach cs (fun char =>
    db_delete s_characters (Character.id char) ;;;
    forEach (Character.images char) (fun imgId => db_delete s_images imgId)) w =
  (Ok tt,
   set_db (DB.mk (DB.novels (db w))
                 (del_all (map Character.id cs) (DB.characters (db w)))
                 (DB.places (db w)) (DB.notes (db w))
                 (del_all (flat_map Character.images cs) (DB.images (db w)))) w).
Proof.
  revert w. induction cs as [|c cs IH]; intros w; simpl.
  - unfold ret. destruct w as [[] ? ? ? ?]. reflexivity.
  - unfold bind at 1. unfold bind at 1. unfold db_delete at 1.
    rewrite delete_images_run. rewrite IH. simpl.
    rewrite del_all_app. reflexivity.
Qed.

Lemma delete_places_run ps w :
  forEach ps (fun place =>
    db_delete s_places (Place.id place) ;;;
    forEach (Place.images place) (fun imgId => db_delete s_images imgId)) w =
  (Ok tt,
   set_db (DB.mk (DB.novels (db w)) (DB.characters (db w))
                 (del_all (map Place.id ps) (DB.places (db w)))
                 (DB.notes (db w))
                 (del_all (flat_map Place.images ps) (DB.images (db w)))) w).
Proof.
  revert w. induction ps as [|p ps IH]; intros w; simpl.
  - unfold ret. destruct w as [[] ? ? ? ?]. reflexivity.
  - unfold bind at 1. unfold bind at 1. unfold db_delete at 1.
    rewrite delete_images_run. rewrite IH. simpl.
    rewrite del_all_app. reflexivity.
Qed.

Lemma delete_notes_run ns w :
  forEach ns (fun note => db_delete s_notes (Note.id note)) w =
  (Ok tt,
   set_db (DB.mk (DB.novels (db w)) (DB.characters (db w)) (DB.places (db w))
                 (del_all (map Note.id ns) (DB.notes (db w)))
                 (DB.images (db w))) w).
Proof.
  revert w. induction ns as [|n ns IH]; intros w; simpl.
  - unfold ret. destruct w as [[] ? ? ? ?]. reflexivity.
  - unfold bind at 1. unfold db_delete at 1. rewrite IH. reflexivity.
Qed.

Lemma delete_tx_run id fetched w :
  novelDB.delete_tx id fetched w = (Ok tt, set_db (cascade id fetched (db w)) w).
Proof.
  destruct fetched as [[cs ps] ns]. unfold novelDB.delete_tx, transaction.
  unfold bind at 1. rewrite delete_characters_run.
  unfold bind at 1. rewrite delete_places_run.
  unfold bind at 1. rewrite delete_notes_run.
  unfold db_delete, cascade. simpl. rewrite del_all_app. reflexivity.
Qed.

Lemma delete_fetch_run id w :
  novelDB.delete_fetch id w = (Ok (dependents id (db w)), w).
Proof. reflexivity. Qed.

Lemma novel_delete_run id w :
  novelDB.delete id w =
  (Ok tt, set_db (cascade id (dependents id (db w)) (db w)) w).
Proof.
  unfold novelDB.delete. rewrite (bind_Ok _ _ _ _ _ (delete_fetch_run id w)).
  apply delete_tx_run.
Qed.

(** Everything found by the index reads is gone after the cascade. *)
Lemma cascade_complete id d :
  let d' := cascade id (dependents id d) d in
  Store.get id (DB.novels d') = None /\
  (forall c, In c (DB.characters d) -> Character.novelId c = id ->
     Store.get (Character.id c) (DB.characters d') = None /\
     forall img, In img (Character.images c) ->
       Store.get img (DB.images d') = None) /\
  (forall p, In p (DB.places d) -> Place.novelId p = id ->
     Store.get (Place.id p) (DB.places d') = None /\
     forall img, In img (Place.images p) ->
       Store.get img (DB.images d') = None) /\
  (forall n, In n (DB.notes d) -> Note.novelId n = id ->
     Store.get (Note.id n) (DB.notes d') = None).
Proof.
  unfold cascade, dependents, Store.getAllFromIndex_eq. simpl.
  split; [apply get_delete_same|]. split; [|split].
  - intros c Hin Hn.
    assert (Hf : In c (filter (fun r => String.eqb (Character.novelId r) id)
                               (DB.characters d))).
    { apply filter_In. split; [assumption|]. now apply String.eqb_eq. }
    split.
    + apply get_del_all_In. apply in_map_iff. now exists c.
    + intros img Himg. apply get_del_all_In. apply in_or_app. left.
      apply in_flat_map. now exists c.
  - intros p Hin Hn.
    assert (Hf : In p (filter (fun r => String.eqb (Place.novelId r) id)
                               (DB.places d))).
    { apply filter_In. split; [assumption|]. now apply String.eqb_eq. }
    split.
    + apply get_del_all_In. apply in_map_iff. now exists p.
    + intros img Himg. apply get_del_all_In. apply in_or_app. right.
      apply in_flat_map. now exists p.
  - intros n Hin Hn. apply get_del_all_In. apply in_map_iff. exists n.
    split; [reflexivity|]. apply filter_In. split; [assumption|].
    now apply String.eqb_eq.
Qed.

(** An image that no fetched dependent lists is not touched. *)
Lemma cascade_keeps_image id d img :
  (forall c, In c (DB.characters d) -> Character.novelId c = id ->
     ~ In img (Character.images c)) ->
  (forall p, In p (DB.places d) -> Place.novelId p = id ->
     ~ In img (Place.images p)) ->
  Store.get img (DB.images (cascade id (dependents id d) d)) =
  Store.get img (DB.images d).
Proof.
  intros Hc Hp. unfold cascade, dependents, Store.getAllFromIndex_eq. simpl.
  apply get_del_all_other. intros Hin. apply in_app_or in Hin.
  destruct Hin as [Hin|Hin]; apply in_flat_map in Hin;
    destruct Hin as [x [Hx Himg]]; apply filter_In in Hx;
    destruct Hx as [Hx Hn]; apply String.eqb_eq in Hn.
  - exact (Hc x Hx Hn Himg).
  - exact (Hp x Hx Hn Himg).
Qed.

(** ** C3: cascading delete *)

(** C3 (as amended).  For every novel id and every world, [novelDB.delete]
    returns normally; it first reads the dependent characters, places and
    notes through the by-novel indexes (three reads that change nothing
    and happen before the transaction is opened), and then one
    transaction deletes exactly the records that were read, their listed
    images and the novel, whatever the database holds when it starts.
    When nothing runs between the reads and the transaction, [get]
    afterwards returns absent for the novel, for every dependent
    character, place and note, and for every image id in the [images]
    lists of those characters and places. *)
Theorem novel_delete_cascade (id : string) (w : World) :
  novelDB.delete_fetch id w = (Ok (dependents id (db w)), w) /\
  (forall fetched w1,
     novelDB.delete_tx id fetched w1 =
     (Ok tt, set_db (cascade id fetched (db w1)) w1)) /\
  exists w',
    novelDB.delete id w = (Ok tt, w') /\
    novelDB.get id w' = (Ok None, w') /\
    (forall c, In c (DB.characters (db w)) -> Character.novelId c = id ->
       characterDB.get (Character.id c) w' = (Ok None, w') /\
       forall img, In img (Character.images c) ->
         imageDB.get img w' = (Ok None, w')) /\
    (forall p, In p (DB.places (db w)) -> Place.novelId p = id ->
       placeDB.get (Place.id p) w' = (Ok None, w') /\
       forall img, In img (Place.images p) ->
         imageDB.get img w' = (Ok None, w')) /\
    (forall n, In n (DB.notes (db w)) -> Note.novelId n = id ->
       noteDB.get (Note.id n) w' = (Ok None, w')).
Proof.
  split; [reflexivity|]. split; [intros; apply delete_tx_run|].
  eexists. split; [apply novel_delete_run|].
  destruct (cascade_complete id (db w)) as (Hn & Hc & Hp & Hnt).
  rewrite novelDB_get_run. cbn [db set_db].
  split; [now rewrite Hn|]. split; [|split].
  - intros c Hin Hid. destruct (Hc c Hin Hid) as [H1 H2].
    rewrite characterDB_get_run. cbn [db set_db].
    split; [now rewrite H1|]. intros img Himg.
    rewrite imageDB_get_run. cbn [db set_db]. now rewrite (H2 img Himg).
  - intros p Hin Hid. destruct (Hp p Hin Hid) as [H1 H2].
    rewrite placeDB_get_run. cbn [db set_db].
    split; [now rewrite H1|]. intros img Himg.
    rewrite imageDB_get_run. cbn [db set_db]. now rewrite (H2 img Himg).
  - intros n Hin Hid. rewrite noteDB_get_run. cbn [db set_db].
    now rewrite (Hnt n Hin Hid).
Qed.

Lemma novel_delete_cascade_witness :
  exists w',
    novelDB.delete "n1" (world_of db_links) = (Ok tt, w') /\
    novelDB.get "n1" w' = (Ok None, w') /\
    characterDB.get "c1" w' = (Ok None, w') /\
    imageDB.get "i1" w' = (Ok None, w') /\
    placeDB.get "p1" w' = (Ok None, w') /\
    noteDB.get "t1" w' = (Ok None, w').
Proof.
  destruct (novel_delete_cascade "n1" (world_of db_links))
    as (_ & _ & w' & Hrun & Hn & Hc & Hp & Ht).
  exists w'. split; [exact Hrun|]. split; [exact Hn|].
  destruct (Hc paul) as [Hc1 Hi1]; [simpl; tauto | reflexivity |].
  split; [exact Hc1|]. split; [apply Hi1; simpl; tauto|].
  split; [apply (Hp arrakis); [simpl; tauto | reflexivity]|].
  apply (Ht prophecy); [simpl; tauto | reflexivity].
Defined.

(** C3, the clause on the single transaction fails: the dependents are
    read before the transaction exists.  A character created for novel
    "n1" by another task between those reads and the transaction is not
    among the records read, so it is still retrievable after the delete
    although its novel is gone; had the reads been part of the
    transaction (creation first, then the whole delete) it would have been
    removed. *)
Lemma novel_delete_reads_precede_transaction :
  exists c w',
    (fetched <- novelDB.delete_fetch "n1" ;;
     c <- characterDB.create paul_fields ;;
     novelDB.delete_tx "n1" fetched ;;;
     ret c) (world_of db_dune) = (Ok c, w') /\
    Character.novelId c = "n1" /\
    novelDB.get "n1" w' = (Ok None, w') /\
    characterDB.get (Character.id c) w' = (Ok (Some c), w') /\
    exists c2 w2,
      (c <- characterDB.create paul_fields ;;
       novelDB.delete "n1" ;;;
       ret c) (world_of db_dune) = (Ok c2, w2) /\
      c2 = c /\
      characterDB.get (Character.id c2) w2 = (Ok None, w2).
Proof.
  eexists. eexists. split; [vm_compute; reflexivity|].
  split; [reflexivity|]. split; [reflexivity|]. split; [reflexivity|].
  eexists. eexists. split; [vm_compute; reflexivity|].
  split; reflexivity.
Qed.

(** ** C9: the cover image of a deleted novel *)

(** C9.  For every novel stored under [id] whose [coverImage] is [cover],
    if no character and no place of that novel lists [cover] in its
    [images], then [novelDB.delete id] removes the novel, every dependent
    character, place and note and every image they list, and the images
    store still answers for [cover] exactly as before. *)
Theorem novel_delete_keeps_cover (id cover : string) (n : Novel.t) (w : World) :
  Store.get id (DB.novels (db w)) = Some n ->
  Novel.coverImage n = Some cover ->
  (forall c, In c (DB.characters (db w)) -> Character.novelId c = id ->
     ~ In cover (Character.images c)) ->
  (forall p, In p (DB.places (db w)) -> Place.novelId p = id ->
     ~ In cover (Place.images p)) ->
  exists w',
    novelDB.delete id w = (Ok tt, w') /\
    Store.get id (DB.novels (db w')) = None /\
    (forall c, In c (DB.characters (db w)) -> Character.novelId c = id ->
       Store.get (Character.id c) (DB.characters (db w')) = None /\
       forall img, In img (Character.images c) ->
         Store.get img (DB.images (db w')) = None) /\
    (forall p, In p (DB.places (db w)) -> Place.novelId p = id ->
       Store.get (Place.id p) (DB.places (db w')) = None /\
       forall img, In img (Place.images p) ->
         Store.get img (DB.images (db w')) = None) /\
    (forall nt, In nt (DB.notes (db w)) -> Note.novelId nt = id ->
       Store.get (Note.id nt) (DB.notes (db w')) = None) /\
    Store.get cover (DB.images (db w')) = Store.get cover (DB.images (db w)).
Proof.
  intros _ _ Hc Hp. eexists. split; [apply novel_delete_run|]. simpl.
  destruct (cascade_complete id (db w)) as (Hn & Hcs & Hps & Hnt).
  repeat (split; [assumption|]). now apply cascade_keeps_image.
Qed.

Lemma novel_delete_keeps_cover_witness :
  exists w',
    novelDB.delete "n1" (world_of db_cover) = (Ok tt, w') /\
    Store.get "n1" (DB.novels (db w')) = None /\
    Store.get "i1" (DB.images (db w')) = None /\
    Store.get "cover1" (DB.images (db w')) = Some (Image.mk "cover1" "CCCC").
Proof.
  destruct (novel_delete_keeps_cover "n1" "cover1" dune_with_cover
              (world_of db_cover) eq_refl eq_refl)
    as (w' & Hrun & Hn & Hc & _ & _ & Hcover).
  - intros c [<-|[]] _ [H|[]]. discriminate H.
  - intros p [].
  - exists w'. split; [exact Hrun|]. split; [exact Hn|].
    destruct (Hc paul) as [_ Hi]; [simpl; tauto | reflexivity |].
    split; [apply Hi; simpl; tauto | exact Hcover].
Defined.

(** ** What [characterDB.delete] leaves in the database *)

Lemma includes_In l x : JS.includes l x = true <-> In x l.
Proof.
  induction l as [|y l IH]; simpl.
  - split; [discriminate | contradiction].
  - destruct (String.eqb_spec y x) as [E|E].
    + split; [now left | reflexivity].
    + rewrite IH. split; [now right | intros [?|?]; [contradiction | assumption]].
Qed.

Lemma includes_false l x : JS.includes l x = false <-> ~ In x l.
Proof.
  rewrite <- includes_In. destruct (JS.includes l x); split; congruence.
Qed.

Lemma not_In_filter_neq l x :
  ~ In x (filter (fun cid => negb (String.eqb cid x)) l).
Proof.
  intros Hin. apply filter_In in Hin. destruct Hin as [_ Hneq].
  now rewrite String.eqb_refl in Hneq.
Qed.

Lemma wf_filter {V} `{Keyed V} (f : V -> bool) (s : list V) :
  Store.wf s -> Store.wf (filter f s).
Proof.
  induction s as [|r s IH]; simpl; intros Hwf; [constructor|].
  apply wf_inv in Hwf. destruct Hwf as [Hs Hall].
  destruct (f r); [|now apply IH].
  constructor; [now apply IH|].
  apply Forall_forall. intros a Ha. apply filter_In in Ha.
  rewrite Forall_forall in Hall. now apply Hall.
Qed.

Lemma unlink_run id a w :
  characterDB.unlink id a w =
  if JS.includes (Character.linkedCharacterIds a) id then
    (Ok tt,
     mkWorld (upd s_characters
                (Store.put (unlinked id a (clock w (ticks w)))
                           (DB.characters (db w))) (db w))
             (clock w) (S (ticks w)) (random w) (draws w))
  else (Ok tt, w).
Proof.
  unfold characterDB.unlink.
  destruct (JS.includes (Character.linkedCharacterIds a) id); reflexivity.
Qed.

(** The clean-up loop over a list of characters with distinct ids. *)
Lemma unlink_loop id l :
  NoDup (map Character.id l) ->
  forall w, exists w',
    forEach l (characterDB.unlink id) w = (Ok tt, w') /\
    (ticks w <= ticks w')%nat /\ clock w' = clock w /\
    DB.novels (db w') = DB.novels (db w) /\
    DB.places (db w') = DB.places (db w) /\
    DB.notes (db w') = DB.notes (db w) /\
    DB.images (db w') = DB.images (db w) /\
    (Store.wf (DB.characters (db w)) -> Store.wf (DB.characters (db w'))) /\
    forall k,
      (forall a, In a l -> Character.id a = k ->
         JS.includes (Character.linkedCharacterIds a) id = true ->
         exists t, (ticks w <= t < ticks w')%nat /\
           Store.get k (DB.characters (db w')) =
           Some (unlinked id a (clock w t))) /\
      ((forall a, In a l -> Character.id a = k ->
          JS.includes (Character.linkedCharacterIds a) id = false) ->
       Store.get k (DB.characters (db w')) =
       Store.get k (DB.characters (db w))).
Proof.
  induction l as [|a l IH]; intros Hnd w.
  - exists w. simpl. unfold ret. repeat (split; [solve [auto] |]).
    intros k. split; [intros ? [] | reflexivity].
  - inversion Hnd as [|? ? Hnotin Hnd']; subst.
    simpl forEach. pose proof (unlink_run id a w) as Hrun.
    destruct (JS.includes (Character.linkedCharacterIds a) id) eqn:Hinc.
    + destruct (IH Hnd' (mkWorld
          (upd s_characters
             (Store.put (unlinked id a (clock w (ticks w)))
                        (DB.characters (db w))) (db w))
          (clock w) (S (ticks w)) (random w) (draws w)))
        as (w' & Hloop & Ht & Hclk & Hnv & Hpl & Hno & Him & Hwf & Hk).
      simpl in Ht, Hclk, Hnv, Hpl, Hno, Him, Hwf, Hk.
      exists w'. split; [rewrite (bind_Ok _ _ _ _ _ Hrun); exact Hloop|].
      split; [lia|]. repeat (split; [assumption|]).
      split; [intros Hw; apply Hwf; now apply wf_put|].
      intros k. destruct (Hk k) as [Hk1 Hk2]. split.
      * intros a0 [<-|Hin] Hid Hinc0.
        -- exists (ticks w). split; [lia|].
           rewrite Hk2.
           ++ rewrite <- Hid.
              exact (get_put_same (unlinked id a (clock w (ticks w)))
                                  (DB.characters (db w))).
           ++ intros a2 Hin2 Hid2. exfalso. apply Hnotin.
              apply in_map_iff. exists a2. split; [congruence | assumption].
        -- destruct (Hk1 a0 Hin Hid Hinc0) as (t & Hlt & Hget).
           exists t. split; [lia | exact Hget].
      * intros Hall. rewrite Hk2.
        -- apply get_put_other. simpl. intros Hid.
           specialize (Hall a (or_introl eq_refl) Hid). congruence.
        -- intros a2 Hin2 Hid2. apply Hall; [now right | assumption].
    + destruct (IH Hnd' w)
        as (w' & Hloop & Ht & Hclk & Hnv & Hpl & Hno & Him & Hwf & Hk).
      exists w'. split; [rewrite (bind_Ok _ _ _ _ _ Hrun); exact Hloop|].
      repeat (split; [assumption|]).
      intros k. destruct (Hk k) as [Hk1 Hk2]. split.
      * intros a0 [<-|Hin] Hid Hinc0; [congruence|].
        now apply Hk1.
      * intros Hall. apply Hk2. intros a2 Hin2 Hid2.
        apply Hall; [now right | assumption].
Qed.

Lemma character_delete_run id c w :
  Store.get id (DB.characters (db w)) = Some c ->
  characterDB.delete id w =
  forEach (Store.getAllFromIndex_eq Character.novelId (Character.novelId c)
             (Store.delete id (DB.characters (db w))))
          (characterDB.unlink id) (set_db (removed id c (db w)) w).
Proof.
  intros Hget. unfold characterDB.delete.
  unfold bind at 1. unfold db_get at 1. cbn [sel s_characters]. rewrite Hget.
  unfold bind at 1. unfold transaction.
  unfold bind at 1. rewrite delete_images_run.
  unfold db_delete at 1. reflexivity.
Qed.

Lemma character_delete_absent id w :
  Store.get id (DB.characters (db w)) = None ->
  characterDB.delete id w = (Ok tt, w).
Proof.
  intros Hget. unfold characterDB.delete.
  unfold bind at 1. unfold db_get at 1. cbn [sel s_characters].
  now rewrite Hget.
Qed.

(** The whole of [characterDB.delete] on a stored character. *)
Lemma character_delete_spec id c w :
  Store.wf (DB.characters (db w)) ->
  Store.get id (DB.characters (db w)) = Some c ->
  exists w',
    characterDB.delete id w = (Ok tt, w') /\
    (ticks w <= ticks w')%nat /\
    DB.novels (db w') = DB.novels (db w) /\
    DB.places (db w') = DB.places (db w) /\
    DB.notes (db w') = DB.notes (db w) /\
    DB.images (db w') = del_all (Character.images c) (DB.images (db w)) /\
    Store.wf (DB.characters (db w')) /\
    Store.get id (DB.characters (db w')) = None /\
    forall k, k <> id ->
      (forall a, Store.get k (DB.characters (db w)) = Some a ->
         Character.novelId a = Character.novelId c ->
         JS.includes (Character.linkedCharacterIds a) id = true ->
         exists t, (ticks w <= t < ticks w')%nat /\
           Store.get k (DB.characters (db w')) =
           Some (unlinked id a (clock w t))) /\
      (~ (exists a, Store.get k (DB.characters (db w)) = Some a /\
            Character.novelId a = Character.novelId c /\
            JS.includes (Character.linkedCharacterIds a) id = true) ->
       Store.get k (DB.characters (db w')) =
       Store.get k (DB.characters (db w))).
Proof.
  intros Hwf Hget. rewrite (character_delete_run _ _ _ Hget).
  set (chars1 := Store.delete id (DB.characters (db w))).
  set (l := Store.getAllFromIndex_eq Character.novelId
              (Character.novelId c) chars1).
  assert (Hwf1 : Store.wf chars1) by now apply wf_delete.
  assert (Hwfl : Store.wf l) by now apply wf_filter.
  assert (Hl : forall a, In a l <->
            In a chars1 /\ Character.novelId a = Character.novelId c).
  { intros a. unfold l, Store.getAllFromIndex_eq. rewrite filter_In.
    now rewrite String.eqb_eq. }
  destruct (unlink_loop id l (wf_NoDup_keys _ Hwfl)
              (set_db (removed id c (db w)) w))
    as (w' & Hloop & Ht & Hclk & Hnv & Hpl & Hno & Him & Hwf' & Hk).
  simpl in Ht, Hclk, Hnv, Hpl, Hno, Him, Hwf', Hk. fold chars1 in Hwf', Hk.
  exists w'. split; [exact Hloop|].
  repeat (split; [solve [auto] |]).
  assert (Huniq : forall k a a2, Store.get k chars1 = Some a -> In a2 l ->
            Character.id a2 = k -> a2 = a).
  { intros k a a2 Hg Hin Hid. apply Hl in Hin. destruct Hin as [Hin _].
    pose proof (wf_In_get _ _ Hwf1 Hin) as Hg2.
    change (key a2) with (Character.id a2) in Hg2. congruence. }
  split.
  - destruct (Hk id) as [_ Hk2]. rewrite Hk2; [apply get_delete_same|].
    intros a Hin Hid. apply Hl in Hin. destruct Hin as [Hin _].
    apply In_delete in Hin. destruct Hin as [_ Hne]. contradiction.
  - intros k Hne. destruct (Hk k) as [Hk1 Hk2].
    assert (Hg1 : Store.get k chars1 = Store.get k (DB.characters (db w))).
    { unfold chars1. now apply get_delete_other. }
    split.
    + intros a Hga Hnov Hinc. rewrite <- Hg1 in Hga.
      destruct (Hk1 a) as (t & Hlt & Hgt); [| | assumption |].
      * apply Hl. split; [eapply get_Some_In; eassumption | assumption].
      * eapply get_Some_key; eassumption.
      * exists t. split; assumption.
    + intros Hno_target. rewrite Hk2; [assumption|].
      intros a2 Hin2 Hid2.
      destruct (JS.includes (Character.linkedCharacterIds a2) id) eqn:Hinc;
        [|reflexivity].
      exfalso. apply Hno_target. exists a2.
      pose proof (proj1 (Hl a2) Hin2) as [Hin1 Hnov].
      pose proof (wf_In_get _ _ Hwf1 Hin1) as Hg2.
      change (key a2) with (Character.id a2) in Hg2.
      rewrite Hid2, Hg1 in Hg2. auto.
Qed.

(** ** C10: what the clean-up of [characterDB.delete] may touch *)

(** C10.  For every stored character [c] with id [id], in a well-formed
    characters store, [characterDB.delete id] returns normally and leaves
    the places, notes and novels stores exactly as they were (so their
    [linkedCharacterIds] may keep the deleted id); every character of
    another novel is still stored unchanged; and any key whose stored
    character differs afterwards is [id] itself or the id of a character
    of [c]'s novel whose [linkedCharacterIds] contained [id]. *)
Theorem character_delete_frame (id : string) (c : Character.t) (w : World) :
  Store.wf (DB.characters (db w)) ->
  Store.get id (DB.characters (db w)) = Some c ->
  exists w',
    characterDB.delete id w = (Ok tt, w') /\
    DB.places (db w') = DB.places (db w) /\
    DB.notes (db w') = DB.notes (db w) /\
    DB.novels (db w') = DB.novels (db w) /\
    (forall a, In a (DB.characters (db w)) ->
       Character.novelId a <> Character.novelId c ->
       Store.get (Character.id a) (DB.characters (db w')) = Some a) /\
    (forall k,
       Store.get k (DB.characters (db w')) <>
       Store.get k (DB.characters (db w)) ->
       k = id \/
       exists a, Store.get k (DB.characters (db w)) = Some a /\
         Character.novelId a = Character.novelId c /\
         In id (Character.linkedCharacterIds a)).
Proof.
  intros Hwf Hget.
  destruct (character_delete_spec _ _ _ Hwf Hget)
    as (w' & Hrun & _ & Hnv & Hpl & Hno & _ & _ & _ & Hk).
  exists w'. repeat (split; [assumption|]). split.
  - intros a Hin Hnov. pose proof (wf_In_get _ _ Hwf Hin) as Hga.
    change (key a) with (Character.id a) in Hga.
    assert (Hne : Character.id a <> id).
    { intros E. rewrite E in Hga. congruence. }
    destruct (Hk _ Hne) as [_ Hk2]. rewrite Hk2; [assumption|].
    intros (a2 & Hg2 & Hn2 & _). congruence.
  - intros k Hdiff. destruct (String.eqb_spec k id) as [E|Hne]; [now left|].
    right. destruct (Hk _ Hne) as [_ Hk2].
    destruct (Store.get k (DB.characters (db w))) as [a|] eqn:Hga.
    + destruct (String.eqb_spec (Character.novelId a) (Character.novelId c))
        as [Hn|Hn].
      * destruct (JS.includes (Character.linkedCharacterIds a) id) eqn:Hinc.
        -- exists a. split; [reflexivity|]. split; [assumption|].
           now apply includes_In.
        -- exfalso. apply Hdiff. apply Hk2.
           intros (a2 & Hg2 & _ & Hi2). congruence.
      * exfalso. apply Hdiff. apply Hk2.
        intros (a2 & Hg2 & Hn2 & _). congruence.
    + exfalso. apply Hdiff. apply Hk2. intros (a2 & Hg2 & _). discriminate.
Qed.

Lemma db_links_characters_wf : Store.wf (DB.characters db_links).
Proof.
  repeat constructor.
Defined.

(** Deleting Paul leaves Duncan (another novel), the place and the note
    with their links to "c1". *)
Lemma character_delete_frame_witness :
  exists w',
    characterDB.delete "c1" (world_of db_links) = (Ok tt, w') /\
    DB.places (db w') = [arrakis] /\
    DB.notes (db w') = [prophecy] /\
    Store.get "c3" (DB.characters (db w')) = Some duncan.
Proof.
  destruct (@character_delete_frame "c1" paul (world_of db_links)
              db_links_characters_wf eq_refl)
    as (w' & Hrun & Hpl & Hno & _ & Hother & _).
  exists w'. split; [exact Hrun|]. split; [exact Hpl|]. split; [exact Hno|].
  apply (Hother duncan); simpl; [tauto | discriminate].
Defined.

(** ** C4: cross-reference clean-up *)

(** C4.  For every two distinct characters [A] and [B] of the same novel
    in a well-formed characters store, with [B]'s id in
    [A.linkedCharacterIds]: [characterDB.delete] of [B]'s id returns
    normally; afterwards [B]'s id is absent from the store, no stored
    character of that novel lists it in [linkedCharacterIds], and [A] is
    stored with the id filtered out of its links, its other fields kept
    and [updatedAt] set to a reading of the clock taken during the
    clean-up. *)
Theorem character_delete_unlinks (A B : Character.t) (w : World) :
  Store.wf (DB.characters (db w)) ->
  In A (DB.characters (db w)) ->
  In B (DB.characters (db w)) ->
  Character.novelId A = Character.novelId B ->
  Character.id A <> Character.id B ->
  In (Character.id B) (Character.linkedCharacterIds A) ->
  exists w',
    characterDB.delete (Character.id B) w = (Ok tt, w') /\
    Store.get (Character.id B) (DB.characters (db w')) = None /\
    (forall r, In r (DB.characters (db w')) ->
       Character.novelId r = Character.novelId B ->
       ~ In (Character.id B) (Character.linkedCharacterIds r)) /\
    exists t A',
      (ticks w <= t < ticks w')%nat /\
      Store.get (Character.id A) (DB.characters (db w')) = Some A' /\
      A' = unlinked (Character.id B) A (clock w t) /\
      ~ In (Character.id B) (Character.linkedCharacterIds A') /\
      Character.updatedAt A' = clock w t.
Proof.
  intros Hwf HinA HinB Hnov Hne Hlink.
  pose proof (wf_In_get _ _ Hwf HinB) as HgB.
  pose proof (wf_In_get _ _ Hwf HinA) as HgA.
  change (key B) with (Character.id B) in HgB.
  change (key A) with (Character.id A) in HgA.
  destruct (character_delete_spec _ _ _ Hwf HgB)
    as (w' & Hrun & _ & _ & _ & _ & _ & Hwf' & Habs & Hk).
  exists w'. split; [exact Hrun|]. split; [exact Habs|]. split.
  - intros r Hin Hnr Hlr.
    pose proof (wf_In_get _ _ Hwf' Hin) as Hgr.
    change (key r) with (Character.id r) in Hgr.
    assert (Hrne : Character.id r <> Character.id B).
    { intros E. rewrite E in Hgr. congruence. }
    destruct (Hk _ Hrne) as [Hk1 Hk2].
    destruct (Store.get (Character.id r) (DB.characters (db w))) as [a|] eqn:Hga.
    + destruct (String.eqb_spec (Character.novelId a) (Character.novelId B))
        as [Hn|Hn].
      * destruct (JS.includes (Character.linkedCharacterIds a) (Character.id B))
          eqn:Hinc.
        -- destruct (Hk1 a eq_refl Hn Hinc) as (t & _ & Hgt).
           rewrite Hgt in Hgr. injection Hgr as <-. simpl in Hlr.
           exact (not_In_filter_neq _ _ Hlr).
        -- rewrite Hk2 in Hgr.
           ++ injection Hgr as <-. apply includes_false in Hinc. contradiction.
           ++ intros (a2 & Hg2 & _ & Hi2). congruence.
      * rewrite Hk2 in Hgr.
        -- injection Hgr as <-. contradiction.
        -- intros (a2 & Hg2 & Hn2 & _). congruence.
    + rewrite Hk2 in Hgr; [discriminate|].
      intros (a2 & Hg2 & _). discriminate.
  - destruct (Hk _ Hne) as [Hk1 _].
    destruct (Hk1 A HgA Hnov (proj2 (includes_In _ _) Hlink)) as (t & Hlt & Hgt).
    exists t, (unlinked (Character.id B) A (clock w t)).
    split; [assumption|]. split; [assumption|]. split; [reflexivity|].
    split; [apply not_In_filter_neq | reflexivity].
Qed.

(** The scenario of the specification: deleting Paul empties Leto's
    links and stamps Leto with the first clock reading. *)
Lemma character_delete_unlinks_witness :
  exists w',
    characterDB.delete "c1" (world_of db_links) = (Ok tt, w') /\
    Store.get "c1" (DB.characters (db w')) = None /\
    exists t,
      Store.get "c2" (DB.characters (db w')) =
      Some (unlinked "c1" leto (example_clock t)).
Proof.
  destruct (@character_delete_unlinks leto paul (world_of db_links)
              db_links_characters_wf)
    as (w' & Hrun & Habs & _ & t & A' & _ & Hget & HA' & _);
    [simpl; tauto | simpl; tauto | reflexivity | discriminate | simpl; tauto |].
  exists w'. split; [exact Hrun|]. split; [exact Habs|].
  exists t. rewrite HA' in Hget. exact Hget.
Defined.

(** ** C5: timestamps written by [create] and [update] *)

Ltac run_create :=
  eexists; eexists;
  split; [cbv [novelDB.create characterDB.create placeDB.create noteDB.create
               bind ret Date_now generateId Math_random_suffix db_put];
          reflexivity |];
  cbn [Novel.createdAt Novel.updatedAt Novel.id
       Character.createdAt Character.updatedAt Character.id
       Place.createdAt Place.updatedAt Place.id
       Note.createdAt Note.updatedAt Note.id
       db set_db sel upd s_novels s_characters s_places s_notes
       DB.novels DB.characters DB.places DB.notes clock ticks];
  split; [reflexivity|]; split; [reflexivity|].

Lemma novel_create_run f w :
  exists r w',
    novelDB.create f w = (Ok r, w') /\
    Novel.createdAt r = clock w (ticks w) /\
    Novel.updatedAt r = clock w (ticks w) /\
    Store.get (Novel.id r) (DB.novels (db w')) = Some r.
Proof.
  run_create.
  exact (get_put_same (V:=Novel.t) _ _).
Qed.

Lemma character_create_run f w :
  exists r w',
    characterDB.create f w = (Ok r, w') /\
    Character.createdAt r = clock w (ticks w) /\
    Character.updatedAt r = clock w (ticks w) /\
    Store.get (Character.id r) (DB.characters (db w')) = Some r.
Proof.
  run_create.
  exact (get_put_same (V:=Character.t) _ _).
Qed.

Lemma place_create_run f w :
  exists r w',
    placeDB.create f w = (Ok r, w') /\
    Place.createdAt r = clock w (ticks w) /\
    Place.updatedAt r = clock w (ticks w) /\
    Store.get (Place.id r) (DB.places (db w')) = Some r.
Proof.
  run_create.
  exact (get_put_same (V:=Place.t) _ _).
Qed.

Lemma note_create_run f w :
  exists r w',
    noteDB.create f w = (Ok r, w') /\
    Note.createdAt r = clock w (ticks w) /\
    Note.updatedAt r = clock w (ticks w) /\
    Store.get (Note.id r) (DB.notes (db w')) = Some r.
Proof.
  run_create.
  exact (get_put_same (V:=Note.t) _ _).
Qed.

Ltac update_run Hget :=
  eexists; eexists;
  split; [unfold bind, db_get; cbn [sel s_novels s_characters s_places s_notes];
          rewrite Hget; reflexivity |];
  cbn; repeat (split; [reflexivity|]).

Lemma novel_update_run id data existing w :
  Store.get id (DB.novels (db w)) = Some existing ->
  exists r w',
    novelDB.update id data w = (Ok (Some r), w') /\
    Novel.id r = id /\
    Novel.updatedAt r = clock w (ticks w) /\
    Novel.createdAt r =
      match Novel.p_createdAt data with
      | Some x => x
      | None => Novel.createdAt existing
      end /\
    Store.get id (DB.novels (db w')) = Some r.
Proof.
  intros Hget. unfold novelDB.update. update_run Hget.
  exact (get_put_same (V:=Novel.t) _ _).
Qed.

Lemma character_update_run id data existing w :
  Store.get id (DB.characters (db w)) = Some existing ->
  exists r w',
    characterDB.update id data w = (Ok (Some r), w') /\
    Character.id r = id /\
    Character.updatedAt r = clock w (ticks w) /\
    Character.createdAt r =
      match Character.p_createdAt data with
      | Some x => x
      | None => Character.createdAt existing
      end /\
    Store.get id (DB.characters (db w')) = Some r.
Proof.
  intros Hget. unfold characterDB.update. update_run Hget.
  exact (get_put_same (V:=Character.t) _ _).
Qed.

Lemma place_update_run id data existing w :
  Store.get id (DB.places (db w)) = Some existing ->
  exists r w',
    placeDB.update id data w = (Ok (Some r), w') /\
    Place.id r = id /\
    Place.updatedAt r = clock w (ticks w) /\
    Place.createdAt r =
      match Place.p_createdAt data with
      | Some x => x
      | None => Place.createdAt existing
      end /\
    Store.get id (DB.places (db w')) = Some r.
Proof.
  intros Hget. unfold placeDB.update. update_run Hget.
  exact (get_put_same (V:=Place.t) _ _).
Qed.

Lemma note_update_run id data existing w :
  Store.get id (DB.notes (db w)) = Some existing ->
  exists r w',
    noteDB.update id data w = (Ok (Some r), w') /\
    Note.id r = id /\
    Note.updatedAt r = clock w (ticks w) /\
    Note.createdAt r =
      match Note.p_createdAt data with
      | Some x => x
      | None => Note.createdAt existing
      end /\
    Store.get id (DB.notes (db w')) = Some r.
Proof.
  intros Hget. unfold noteDB.update. update_run Hget.
  exact (get_put_same (V:=Note.t) _ _).
Qed.

(** C5 (as amended).  In every world, each of the four [create]
    operations returns a record whose [createdAt] equals its [updatedAt];
    and for every stored record and every partial payload, each of the
    four [update] operations returns the updated record with [updatedAt]
    set to the clock reading taken by the update, whatever [updatedAt] the
    payload carries, so that [updatedAt] strictly increases whenever that
    reading is later than the stored one, and with [createdAt] unchanged
    whenever the payload carries no [createdAt]. *)
Theorem timestamp_discipline (w : World) :
  (forall f, exists r w',
     novelDB.create f w = (Ok r, w') /\ Novel.createdAt r = Novel.updatedAt r) /\
  (forall f, exists r w',
     characterDB.create f w = (Ok r, w') /\
     Character.createdAt r = Character.updatedAt r) /\
  (forall f, exists r w',
     placeDB.create f w = (Ok r, w') /\ Place.createdAt r = Place.updatedAt r) /\
  (forall f, exists r w',
     noteDB.create f w = (Ok r, w') /\ Note.createdAt r = Note.updatedAt r) /\
  (forall id data existing,
     Store.get id (DB.novels (db w)) = Some existing ->
     exists r w',
       novelDB.update id data w = (Ok (Some r), w') /\
       Novel.updatedAt r = clock w (ticks w) /\
       (Novel.updatedAt existing < clock w (ticks w) ->
        Novel.updatedAt existing < Novel.updatedAt r) /\
       (Novel.p_createdAt data = None ->
        Novel.createdAt r = Novel.createdAt existing)) /\
  (forall id data existing,
     Store.get id (DB.characters (db w)) = Some existing ->
     exists r w',
       characterDB.update id data w = (Ok (Some r), w') /\
       Character.updatedAt r = clock w (ticks w) /\
       (Character.updatedAt existing < clock w (ticks w) ->
        Character.updatedAt existing < Character.updatedAt r) /\
       (Character.p_createdAt data = None ->
        Character.createdAt r = Character.createdAt existing)) /\
  (forall id data existing,
     Store.get id (DB.places (db w)) = Some existing ->
     exists r w',
       placeDB.update id data w = (Ok (Some r), w') /\
       Place.updatedAt r = clock w (ticks w) /\
       (Place.updatedAt existing < clock w (ticks w) ->
        Place.updatedAt existing < Place.updatedAt r) /\
       (Place.p_createdAt data = None ->
        Place.createdAt r = Place.createdAt existing)) /\
  (forall id data existing,
     Store.get id (DB.notes (db w)) = Some existing ->
     exists r w',
       noteDB.update id data w = (Ok (Some r), w') /\
       Note.updatedAt r = clock w (ticks w) /\
       (Note.updatedAt existing < clock w (ticks w) ->
        Note.updatedAt existing < Note.updatedAt r) /\
       (Note.p_createdAt data = None ->
        Note.createdAt r = Note.createdAt existing)).
Proof.
  split; [|split; [|split; [|split; [|split; [|split; [|split]]]]]].
  - intros f. destruct (novel_create_run f w) as (r & w' & Hrun & Hc & Hu & _).
    exists r, w'. split; [assumption | congruence].
  - intros f. destruct (character_create_run f w) as (r & w' & Hrun & Hc & Hu & _).
    exists r, w'. split; [assumption | congruence].
  - intros f. destruct (place_create_run f w) as (r & w' & Hrun & Hc & Hu & _).
    exists r, w'. split; [assumption | congruence].
  - intros f. destruct (note_create_run f w) as (r & w' & Hrun & Hc & Hu & _).
    exists r, w'. split; [assumption | congruence].
  - intros id data existing Hget.
    destruct (novel_update_run _ data _ _ Hget) as (r & w' & Hrun & _ & Hu & Hc & _).
    exists r, w'. split; [assumption|]. split; [assumption|].
    split; [now rewrite Hu | intros Hp; now rewrite Hc, Hp].
  - intros id data existing Hget.
    destruct (character_update_run _ data _ _ Hget) as (r & w' & Hrun & _ & Hu & Hc & _).
    exists r, w'. split; [assumption|]. split; [assumption|].
    split; [now rewrite Hu | intros Hp; now rewrite Hc, Hp].
  - intros id data existing Hget.
    destruct (place_update_run _ data _ _ Hget) as (r & w' & Hrun & _ & Hu & Hc & _).
    exists r, w'. split; [assumption|]. split; [assumption|].
    split; [now rewrite Hu | intros Hp; now rewrite Hc, Hp].
  - intros id data existing Hget.
    destruct (note_update_run _ data _ _ Hget) as (r & w' & Hrun & _ & Hu & Hc & _).
    exists r, w'. split; [assumption|]. split; [assumption|].
    split; [now rewrite Hu | intros Hp; now rewrite Hc, Hp].
Qed.

Lemma timestamp_discipline_witness :
  exists r w',
    novelDB.update "n1" rename_payload (world_of db_dune) = (Ok (Some r), w') /\
    Novel.updatedAt dune < Novel.updatedAt r /\
    Novel.createdAt r = Novel.createdAt dune.
Proof.
  destruct (timestamp_discipline (world_of db_dune))
    as (_ & _ & _ & _ & Hupd & _).
  destruct (Hupd "n1" rename_payload dune eq_refl)
    as (r & w' & Hrun & _ & Hlt & Hc).
  exists r, w'. split; [exact Hrun|].
  split; [apply Hlt; reflexivity | apply Hc; reflexivity].
Defined.

(** C5 fails as stated in both of its update clauses: an update made in
    the millisecond of the creation leaves [updatedAt] where it was, and
    a payload that carries [createdAt] replaces the stored [createdAt]. *)
Lemma update_timestamps_counterexample :
  (exists r r' w',
     (r <- novelDB.create dune_fields ;;
      r' <- novelDB.update (Novel.id r) retitle_payload ;;
      ret (r, r')) (still_world DB.empty) = (Ok (r, Some r'), w') /\
     Novel.updatedAt r' = Novel.updatedAt r) /\
  (exists r' w',
     novelDB.update "n1" backdate_payload (world_of db_dune) =
       (Ok (Some r'), w') /\
     Novel.createdAt dune = 10 /\ Novel.createdAt r' = 0).
Proof.
  split.
  - eexists. eexists. eexists. split; [vm_compute; reflexivity | reflexivity].
  - eexists. eexists. split; [vm_compute; reflexivity|].
    split; reflexivity.
Qed.

(** ** C6: the order of listings *)

Section IndexOrder.
Context {V : Type} `{Keyed V} (prop : V -> Z).

Lemma index_insert_perm r l :
  Permutation (Store.index_insert prop r l) (r :: l).
Proof.
  induction l as [|r' l IH]; simpl; [reflexivity|].
  destruct (prop r <=? prop r'); [reflexivity|].
  rewrite IH. apply perm_swap.
Qed.

Lemma getAllFromIndex_ord_perm s :
  Permutation (Store.getAllFromIndex_ord prop s) s.
Proof.
  induction s as [|r s IH]; simpl; [reflexivity|].
  rewrite index_insert_perm. now constructor.
Qed.

Lemma index_insert_sorted r l :
  StronglySorted (fun a b => prop a <= prop b) l ->
  StronglySorted (fun a b => prop a <= prop b) (Store.index_insert prop r l).
Proof.
  induction l as [|r' l IH]; simpl; intros Hs.
  - constructor; constructor.
  - inversion Hs as [|? ? Hl Hall]; subst.
    destruct (Z.leb_spec (prop r) (prop r')) as [Hle|Hgt].
    + constructor; [assumption|]. constructor; [assumption|].
      eapply Forall_impl; [|exact Hall]. simpl. intros a Ha. lia.
    + constructor; [now apply IH|].
      apply Forall_forall. intros a Ha.
      apply (Permutation_in _ (index_insert_perm r l)) in Ha.
      destruct Ha as [<-|Ha]; [lia|].
      rewrite Forall_forall in Hall. now apply Hall.
Qed.

Lemma getAllFromIndex_ord_sorted s :
  StronglySorted (fun a b => prop a <= prop b)
                 (Store.getAllFromIndex_ord prop s).
Proof.
  induction s as [|r s IH]; simpl; [constructor|].
  now apply index_insert_sorted.
Qed.

End IndexOrder.

(** C6 (as amended).  In every world with a well-formed database,
    [novelDB.getAll] returns all novels sorted ascending by [updatedAt];
    [characterDB.getByNovel], [placeDB.getByNovel] and
    [noteDB.getByNovel] return exactly the stored records whose [novelId]
    is the one asked for, in ascending order of their [id] (the order of
    the by-novel index), not of [updatedAt]. *)
Theorem list_ordering (w : World) (novelId : string) :
  DB.wf (db w) ->
  (exists l,
     novelDB.getAll w = (Ok l, w) /\
     Permutation l (DB.novels (db w)) /\
     StronglySorted (fun a b => Novel.updatedAt a <= Novel.updatedAt b) l) /\
  (exists l,
     characterDB.getByNovel novelId w = (Ok l, w) /\
     (forall c, In c l <->
        In c (DB.characters (db w)) /\ Character.novelId c = novelId) /\
     StronglySorted (fun a b => key_lt (Character.id a) (Character.id b)) l) /\
  (exists l,
     placeDB.getByNovel novelId w = (Ok l, w) /\
     (forall p, In p l <->
        In p (DB.places (db w)) /\ Place.novelId p = novelId) /\
     StronglySorted (fun a b => key_lt (Place.id a) (Place.id b)) l) /\
  (exists l,
     noteDB.getByNovel novelId w = (Ok l, w) /\
     (forall n, In n l <->
        In n (DB.notes (db w)) /\ Note.novelId n = novelId) /\
     StronglySorted (fun a b => key_lt (Note.id a) (Note.id b)) l).
Proof.
  intros (_ & Hc & Hp & Hn & _).
  split; [|split; [|split]].
  - eexists. split; [reflexivity|].
    split; [apply getAllFromIndex_ord_perm | apply getAllFromIndex_ord_sorted].
  - eexists. split; [reflexivity|]. split.
    + intros c. unfold Store.getAllFromIndex_eq. rewrite filter_In.
      now rewrite String.eqb_eq.
    + exact (wf_filter _ _ Hc).
  - eexists. split; [reflexivity|]. split.
    + intros p. unfold Store.getAllFromIndex_eq. rewrite filter_In.
      now rewrite String.eqb_eq.
    + exact (wf_filter _ _ Hp).
  - eexists. split; [reflexivity|]. split.
    + intros n. unfold Store.getAllFromIndex_eq. rewrite filter_In.
      now rewrite String.eqb_eq.
    + exact (wf_filter _ _ Hn).
Qed.

Lemma db_links_wf : DB.wf db_links.
Proof.
  repeat split; repeat constructor.
Defined.

Lemma list_ordering_witness :
  exists l,
    characterDB.getByNovel "n1" (world_of db_links) =
      (Ok l, world_of db_links) /\
    StronglySorted (fun a b => key_lt (Character.id a) (Character.id b)) l.
Proof.
  destruct (list_ordering (world_of db_links) "n1" db_links_wf)
    as (_ & (l & Hrun & _ & Hsorted) & _).
  exists l. split; [exact Hrun | exact Hsorted].
Defined.

(** C6 fails for [listByNovel]: after Paul and then Leto are created for
    novel "n1" and Paul is renamed, [characterDB.getByNovel] still lists
    Paul first although his [updatedAt] is now the later one. *)
Lemma getByNovel_not_by_updatedAt :
  exists x y w',
    (p <- characterDB.create paul_fields ;;
     characterDB.create leto_fields ;;;
     characterDB.update (Character.id p) rename_character ;;;
     characterDB.getByNovel "n1") (world_of db_dune) = (Ok [x; y], w') /\
    Character.name x = "Muad'Dib" /\
    Character.name y = "Leto" /\
    Character.updatedAt y < Character.updatedAt x.
Proof.
  eexists. eexists. eexists. split; [vm_compute; reflexivity|].
  split; [reflexivity|]. split; reflexivity.
Qed.

(** ** Writing a list of records *)

Lemma s_novels_ok : StoreName_ok s_novels.
Proof. split; intros; try destruct d; reflexivity. Qed.
Lemma s_characters_ok : StoreName_ok s_characters.
Proof. split; intros; try destruct d; reflexivity. Qed.
Lemma s_places_ok : StoreName_ok s_places.
Proof. split; intros; try destruct d; reflexivity. Qed.
Lemma s_notes_ok : StoreName_ok s_notes.
Proof. split; intros; try destruct d; reflexivity. Qed.
Lemma s_images_ok : StoreName_ok s_images.
Proof. split; intros; try destruct d; reflexivity. Qed.

Section PutAll.
Context {V : Type} `{Keyed V}.

Lemma put_all_run {A} (s : StoreName V) (h : A -> V) (l : list A) :
  StoreName_ok s ->
  forall w,
    forEach l (fun x => db_put s (h x)) w =
    (Ok tt, set_db (upd s (put_all (map h l) (sel s (db w))) (db w)) w).
Proof.
  intros [Hsu Huu Hus]. induction l as [|x l IH]; intros w; simpl.
  - unfold ret. now rewrite Hus, set_db_same.
  - unfold bind at 1. unfold db_put at 1. rewrite IH.
    cbn [db set_db]. now rewrite Hsu, Huu.
Qed.

Lemma get_app k (l1 l2 : list V) :
  Store.get k (l1 ++ l2) =
  match Store.get k l1 with
  | Some x => Some x
  | None => Store.get k l2
  end.
Proof.
  induction l1 as [|a l1 IH]; simpl; [reflexivity|].
  destruct (String.eqb (key a) k); [reflexivity | apply IH].
Qed.

Lemma get_not_In_keys k (l : list V) :
  ~ In k (map key l) -> Store.get k l = None.
Proof.
  induction l as [|a l IH]; simpl; intros Hn; [reflexivity|].
  destruct (String.eqb_spec (key a) k) as [E|E].
  - exfalso. apply Hn. now left.
  - apply IH. intros Hin. apply Hn. now right.
Qed.

Lemma get_rev_NoDup k (l : list V) :
  NoDup (map key l) -> Store.get k (rev l) = Store.get k l.
Proof.
  induction l as [|a l IH]; simpl; intros Hnd; [reflexivity|].
  inversion Hnd as [|? ? Hnotin Hnd']; subst.
  rewrite get_app, (IH Hnd'). simpl.
  destruct (String.eqb_spec (key a) k) as [E|E].
  - subst k. now rewrite (get_not_In_keys _ _ Hnotin).
  - now destruct (Store.get k l).
Qed.

Lemma NoDup_In_get (l : list V) r :
  NoDup (map key l) -> In r l -> Store.get (key r) l = Some r.
Proof.
  induction l as [|a l IH]; simpl; intros Hnd Hin; [contradiction|].
  inversion Hnd as [|? ? Hnotin Hnd']; subst.
  destruct Hin as [->|Hin].
  - now rewrite String.eqb_refl.
  - destruct (String.eqb_spec (key a) (key r)) as [E|E].
    + exfalso. apply Hnotin. rewrite E. now apply in_map.
    + now apply IH.
Qed.

Lemma put_all_merge_result doc before :
  merge_result doc before (put_all doc before).
Proof.
  assert (Hov : forall k,
            Store.get k (put_all doc before) =
            match Store.get k (rev doc) with
            | Some r => Some r
            | None => Store.get k before
            end) by (intros k; apply get_fold_put).
  split; [exact Hov|]. split; [|split].
  - intros k Hno. rewrite Hov.
    destruct (Store.get k (rev doc)) as [r|] eqn:Hg; [|reflexivity].
    exfalso. apply (Hno r).
    + apply in_rev. eapply get_Some_In; eassumption.
    + eapply get_Some_key; eassumption.
  - intros k Hb. rewrite Hov.
    destruct (Store.get k (rev doc)); [discriminate | assumption].
  - intros Hnd r Hin. rewrite Hov, (get_rev_NoDup _ _ Hnd).
    now rewrite (NoDup_In_get _ _ Hnd Hin).
Qed.

End PutAll.

(** ** What [importAll] writes *)

Lemma importAll_run data mode ims ns cs ps nts w :
  ExportData.images data = Some ims ->
  ExportData.novels data = Some ns ->
  ExportData.characters data = Some cs ->
  ExportData.places data = Some ps ->
  ExportData.notes data = Some nts ->
  dataExport.importAll data mode w =
  (Ok tt,
   set_db (imported ims ns cs ps nts
             (match mode with overwrite => DB.empty | merge => db w end)) w).
Proof.
  intros Hi Hn Hc Hp Ht. unfold dataExport.importAll.
  rewrite Hi, Hn, Hc, Hp, Ht. unfold iterable.
  assert (Hstart : forall w0,
    (images <- ret ims ;;
     forEach (JS.entries images) (fun e =>
       db_put s_images (Image.mk (fst e) (snd e))) ;;;
     novels <- ret ns ;;
     forEach novels (fun novel => db_put s_novels novel) ;;;
     characters <- ret cs ;;
     forEach characters (fun character => db_put s_characters character) ;;;
     places <- ret ps ;;
     forEach places (fun place => db_put s_places place) ;;;
     notes <- ret nts ;;
     forEach notes (fun note => db_put s_notes note)) w0 =
    (Ok tt, set_db (imported ims ns cs ps nts (db w0)) w0)).
  { intros w0. unfold bind at 1. unfold ret at 1.
    unfold bind at 1.
    rewrite (put_all_run s_images image_of_entry (JS.entries ims) s_images_ok).
    unfold bind at 1. unfold ret at 1. unfold bind at 1.
    rewrite (put_all_run s_novels (fun r => r) ns s_novels_ok).
    unfold bind at 1. unfold ret at 1. unfold bind at 1.
    rewrite (put_all_run s_characters (fun r => r) cs s_characters_ok).
    unfold bind at 1. unfold ret at 1. unfold bind at 1.
    rewrite (put_all_run s_places (fun r => r) ps s_places_ok).
    unfold bind at 1. unfold ret at 1.
    rewrite (put_all_run s_notes (fun r => r) nts s_notes_ok).
    rewrite !map_id. reflexivity. }
  destruct mode.
  - unfold bind at 1. unfold bind at 1. unfold db_clear at 1.
    unfold bind at 1. unfold db_clear at 1.
    unfold bind at 1. unfold db_clear at 1.
    unfold bind at 1. unfold db_clear at 1.
    unfold db_clear at 1. rewrite Hstart. reflexivity.
  - unfold bind at 1. unfold ret at 1. apply Hstart.
Qed.

(** ** C7: merge mode *)

(** C7.  For every world and every document whose five collections are
    present, [importAll] in merge mode returns normally, and for each of
    the five stores: an id that occurs in the document holds the
    document's record afterwards (the last one listed under that id, the
    only one when ids are distinct), whether or not a record was stored
    under it before; an id that does not occur in the document holds what
    it held before; and no id that held a record before is empty
    afterwards. *)
Theorem merge_non_destructive
        (data : ExportData.t) (ims : JS.Obj) (ns : list Novel.t)
        (cs : list Character.t) (ps : list Place.t) (nts : list Note.t)
        (w : World) :
  ExportData.images data = Some ims ->
  ExportData.novels data = Some ns ->
  ExportData.characters data = Some cs ->
  ExportData.places data = Some ps ->
  ExportData.notes data = Some nts ->
  exists w',
    dataExport.importAll data merge w = (Ok tt, w') /\
    merge_result ns (DB.novels (db w)) (DB.novels (db w')) /\
    merge_result cs (DB.characters (db w)) (DB.characters (db w')) /\
    merge_result ps (DB.places (db w)) (DB.places (db w')) /\
    merge_result nts (DB.notes (db w)) (DB.notes (db w')) /\
    merge_result (map image_of_entry (JS.entries ims))
                 (DB.images (db w)) (DB.images (db w')).
Proof.
  intros Hi Hn Hc Hp Ht. eexists. split.
  - apply (importAll_run data merge ims ns cs ps nts w Hi Hn Hc Hp Ht).
  - cbn [db set_db imported DB.novels DB.characters DB.places DB.notes
         DB.images].
    repeat split; apply put_all_merge_result.
Qed.

Lemma merge_non_destructive_witness :
  exists w',
    dataExport.importAll merge_document merge (world_of db_links) = (Ok tt, w') /\
    Store.get "c1" (DB.characters (db w')) = Some paul_restored /\
    Store.get "c9" (DB.characters (db w')) = Some chani /\
    Store.get "c2" (DB.characters (db w')) = Some leto /\
    Store.get "p1" (DB.places (db w')) = Some arrakis.
Proof.
  destruct (merge_non_destructive merge_document [] [] [paul_restored; chani]
              [] [] (world_of db_links) eq_refl eq_refl eq_refl eq_refl eq_refl)
    as (w' & Hrun & _ & (Hc & _) & (Hp & _) & _).
  exists w'. split; [exact Hrun|].
  split; [exact (Hc "c1")|]. split; [exact (Hc "c9")|].
  split; [exact (Hc "c2") | exact (Hp "p1")].
Defined.

(** ** C2: invalid backup documents *)

(** C2 (as amended).  For every parsed document whose [version] is
    missing or empty, or whose [novels] is missing, [handleImport] never
    reaches [importAll]: it reports the failure toast and leaves the
    world, hence all five collections, exactly as it was.  The check is
    made by [handleImport]; [importAll] has none, in either mode. *)
Theorem invalid_backup_rejected (data : ExportData.t) (w : World) :
  JS.truthy_opt (ExportData.version data) = false \/
  ExportData.novels data = None ->
  handleImport data w =
  (Ok (toast_error "Failed to import backup. Invalid file format."), w).
Proof.
  intros Hbad. unfold handleImport, try_catch.
  assert (Hcond :
    negb (JS.truthy_opt (ExportData.version data))
    || match ExportData.novels data with Some _ => false | None => true end
    = true).
  { destruct Hbad as [Hv|Hn].
    - now rewrite Hv.
    - rewrite Hn. apply orb_true_r. }
  unfold bind at 1. rewrite Hcond. reflexivity.
Qed.

Lemma invalid_backup_rejected_witness :
  handleImport backup_without_version (world_of db_links) =
    (Ok (toast_error "Failed to import backup. Invalid file format."),
     world_of db_links) /\
  handleImport backup_without_novels (world_of db_links) =
    (Ok (toast_error "Failed to import backup. Invalid file format."),
     world_of db_links).
Proof.
  split.
  - apply (invalid_backup_rejected backup_without_version). left. reflexivity.
  - apply (invalid_backup_rejected backup_without_novels). right. reflexivity.
Defined.

(** C2 fails for [importAll] itself.  A document without [version] is
    imported without any error, and in overwrite mode the previous
    content is gone; a document without [novels] does raise, but only
    after the images of the document have been written (merge mode) and
    after the stores have been cleared (overwrite mode). *)
Lemma importAll_does_not_validate :
  (exists w',
     dataExport.importAll backup_without_version overwrite
       (world_of db_links) = (Ok tt, w') /\
     db w' = DB.empty /\
     DB.characters (db (world_of db_links)) = [paul; leto; duncan]) /\
  (exists e w',
     dataExport.importAll backup_without_novels merge
       (world_of db_links) = (Throw e, w') /\
     Store.get "i9" (DB.images (db (world_of db_links))) = None /\
     Store.get "i9" (DB.images (db w')) = Some (Image.mk "i9" "QUJD")) /\
  (exists e w',
     dataExport.importAll backup_without_novels overwrite
       (world_of db_links) = (Throw e, w') /\
     DB.characters (db w') = []).
Proof.
  split; [|split].
  - eexists. split; [vm_compute; reflexivity|]. split; reflexivity.
  - eexists. eexists. split; [vm_compute; reflexivity|]. split; reflexivity.
  - eexists. eexists. split; [vm_compute; reflexivity|]. reflexivity.
Qed.

(** ** What [exportAll] collects *)

Lemma truthy_true s : JS.truthy s = true <-> s <> EmptyString.
Proof. destruct s; simpl; split; congruence. Qed.

Lemma In_set_add k x s : In k (JS.set_add x s) <-> k = x \/ In k s.
Proof.
  unfold JS.set_add. destruct (JS.includes s x) eqn:E.
  - apply includes_In in E. split; [now right|].
    intros [->|Hin]; assumption.
  - rewrite in_app_iff. simpl. intuition congruence.
Qed.

Lemma In_add_all k l s :
  In k (fold_left (fun s id => JS.set_add id s) l s) <-> In k l \/ In k s.
Proof.
  revert s. induction l as [|x l IH]; intros s; simpl.
  - intuition.
  - rewrite IH, In_set_add. intuition congruence.
Qed.

Lemma In_collect_characters k cs s :
  In k (dataExport.collect_characters cs s) <->
  (exists c, In c cs /\ In k (Character.images c)) \/ In k s.
Proof.
  unfold dataExport.collect_characters.
  revert s. induction cs as [|c cs IH]; intros s; simpl.
  - split; [now right | intros [(c & [] & _)|H]; exact H].
  - rewrite IH, In_add_all. split.
    + intros [(c' & Hin & Hk)|[Hk|Hk]].
      * left. exists c'. split; [now right | assumption].
      * left. exists c. split; [now left | assumption].
      * now right.
    + intros [(c' & [<-|Hin] & Hk)|Hk].
      * right. now left.
      * left. now exists c'.
      * right. now right.
Qed.

Lemma In_collect_places k ps s :
  In k (dataExport.collect_places ps s) <->
  (exists p, In p ps /\ In k (Place.images p)) \/ In k s.
Proof.
  unfold dataExport.collect_places.
  revert s. induction ps as [|p ps IH]; intros s; simpl.
  - split; [now right | intros [(p & [] & _)|H]; exact H].
  - rewrite IH, In_add_all. split.
    + intros [(p' & Hin & Hk)|[Hk|Hk]].
      * left. exists p'. split; [now right | assumption].
      * left. exists p. split; [now left | assumption].
      * now right.
    + intros [(p' & [<-|Hin] & Hk)|Hk].
      * right. now left.
      * left. now exists p'.
      * right. now right.
Qed.

Lemma In_collect_novels k ns s :
  In k (dataExport.collect_novels ns s) <->
  (exists n, In n ns /\ Novel.coverImage n = Some k /\ k <> EmptyString) \/ In k s.
Proof.
  unfold dataExport.collect_novels.
  revert s. induction ns as [|n ns IH]; intros s; simpl.
  - split; [now right | intros [(n & [] & _)|H]; exact H].
  - rewrite IH. split.
    + intros [(n' & Hin & Hk)|Hk].
      * left. exists n'. split; [now right | assumption].
      * destruct (Novel.coverImage n) as [c|] eqn:Hc; [|now right].
        destruct (JS.truthy c) eqn:Ht; [|now right].
        apply In_set_add in Hk. destruct Hk as [->|Hk]; [|now right].
        left. exists n. split; [now left|]. split; [assumption|].
        now apply truthy_true.
    + intros [(n' & [<-|Hin] & Hc & Hne)|Hk].
      * right. rewrite Hc. apply truthy_true in Hne. rewrite Hne.
        apply In_set_add. now left.
      * left. now exists n'.
      * right. destruct (Novel.coverImage n) as [c|]; [|assumption].
        destruct (JS.truthy c); [|assumption].
        apply In_set_add. now right.
Qed.

Lemma In_imageIds d k : In k (imageIds d) <-> referenced d k.
Proof.
  unfold imageIds, referenced.
  rewrite In_collect_novels, In_collect_places, In_collect_characters.
  simpl. tauto.
Qed.

(** ** The [images] object of the document *)

Lemma obj_get_replace k k' v o :
  JS.obj_get k (JS.obj_replace k' v o) =
  if String.eqb k' k then Some v else JS.obj_get k o.
Proof.
  induction o as [|[k0 v0] o IH]; simpl.
  - reflexivity.
  - destruct (String.eqb_spec k0 k') as [E|E]; simpl.
    + subst k0. destruct (String.eqb k' k); reflexivity.
    + rewrite IH. destruct (String.eqb_spec k0 k) as [E2|E2]; [|reflexivity].
      subst k0. destruct (String.eqb_spec k' k); [congruence | reflexivity].
Qed.

Lemma In_keys_replace k k' v o :
  In k (JS.keys (JS.obj_replace k' v o)) <-> k = k' \/ In k (JS.keys o).
Proof.
  unfold JS.keys. induction o as [|[k0 v0] o IH]; simpl.
  - intuition.
  - destruct (String.eqb_spec k0 k') as [E|E]; simpl.
    + subst k0. intuition.
    + rewrite IH. intuition.
Qed.

Lemma NoDup_keys_replace k v o :
  NoDup (JS.keys o) -> NoDup (JS.keys (JS.obj_replace k v o)).
Proof.
  induction o as [|[k0 v0] o IH]; simpl; intros Hnd.
  - constructor; [intros [] | constructor].
  - inversion Hnd as [|? ? Hnotin Hnd']; subst.
    destruct (String.eqb_spec k0 k) as [E|E]; simpl.
    + subst k0. now constructor.
    + constructor; [|now apply IH].
      intros Hin. apply In_keys_replace in Hin.
      destruct Hin as [->|Hin]; [congruence | contradiction].
Qed.

Lemma In_keys_get k o : In k (JS.keys o) <-> JS.obj_get k o <> None.
Proof.
  induction o as [|[k0 v0] o IH]; simpl.
  - split; [contradiction | congruence].
  - destruct (String.eqb_spec k0 k) as [E|E].
    + split; [discriminate | now left].
    + rewrite <- IH. intuition.
Qed.

Lemma fetch_images_run ids acc w :
  forFold ids dataExport.fetch_image acc w =
  (Ok (export_images (db w) ids acc), w).
Proof.
  revert acc. induction ids as [|id ids IH]; intros acc; [reflexivity|].
  cbn [forFold]. unfold bind at 1. unfold dataExport.fetch_image at 1.
  unfold bind at 1. rewrite imageDB_get_run.
  change (export_images (db w) (id :: ids) acc)
    with (export_images (db w) ids (export_step (db w) acc id)).
  rewrite <- IH. unfold export_step.
  destruct (option_map Image.data (Store.get id (DB.images (db w))));
    reflexivity.
Qed.

Lemma obj_get_export_step d k o id :
  JS.obj_get k (export_step d o id) =
  if String.eqb id k && exportable d k
  then option_map Image.data (Store.get k (DB.images d))
  else JS.obj_get k o.
Proof.
  unfold export_step, exportable, JS.obj_set.
  destruct (String.eqb_spec id k) as [E|E]; simpl.
  - subst id. destruct (Store.get k (DB.images d)) as [r|]; simpl.
    + destruct (JS.truthy (Image.data r)); simpl.
      * destruct (String.eqb k "__proto__"); simpl; [reflexivity|].
        rewrite obj_get_replace. now rewrite String.eqb_refl.
      * now rewrite andb_false_r.
    + now rewrite andb_false_r.
  - destruct (Store.get id (DB.images d)) as [r|]; simpl; [|reflexivity].
    destruct (JS.truthy (Image.data r)); [|reflexivity].
    destruct (String.eqb id "__proto__"); [reflexivity|].
    rewrite obj_get_replace.
    destruct (String.eqb_spec id k); [contradiction | reflexivity].
Qed.

Lemma obj_get_export_images d k ids acc :
  JS.obj_get k (export_images d ids acc) =
  if JS.includes ids k && exportable d k
  then option_map Image.data (Store.get k (DB.images d))
  else JS.obj_get k acc.
Proof.
  unfold export_images. revert acc.
  induction ids as [|id ids IH]; intros acc; simpl; [reflexivity|].
  rewrite IH, obj_get_export_step.
  destruct (String.eqb id k), (JS.includes ids k), (exportable d k);
    reflexivity.
Qed.

Lemma NoDup_keys_export_images d ids acc :
  NoDup (JS.keys acc) -> NoDup (JS.keys (export_images d ids acc)).
Proof.
  unfold export_images. revert acc.
  induction ids as [|id ids IH]; intros acc Hnd; simpl; [assumption|].
  apply IH. unfold export_step, JS.obj_set.
  destruct (option_map Image.data (Store.get id (DB.images d))); [|assumption].
  destruct (JS.truthy s); [|assumption].
  destruct (String.eqb id "__proto__"); [assumption|].
  now apply NoDup_keys_replace.
Qed.

Lemma exportAll_run w :
  dataExport.exportAll w =
  (Ok (ExportData.mk (Some "1.0") (Some (clock w (ticks w)))
         (Some (DB.novels (db w))) (Some (DB.characters (db w)))
         (Some (DB.places (db w))) (Some (DB.notes (db w)))
         (Some (export_images (db w) (imageIds (db w)) []))),
   mkWorld (db w) (clock w) (S (ticks w)) (random w) (draws w)).
Proof.
  unfold dataExport.exportAll.
  unfold bind at 1. unfold db_getAll at 1.
  unfold bind at 1. unfold db_getAll at 1.
  unfold bind at 1. unfold db_getAll at 1.
  unfold bind at 1. unfold db_getAll at 1.
  unfold bind at 1. unfold Store.getAll. cbn [sel s_novels s_characters s_places s_notes].
  fold (imageIds (db w)). rewrite fetch_images_run. reflexivity.
Qed.

(** The condition under which [exportAll] stores [k], in words. *)
Lemma exported_iff d k :
  JS.includes (imageIds d) k && exportable d k = true <->
  referenced d k /\ k <> "__proto__" /\
  exists r, Store.get k (DB.images d) = Some r /\ Image.data r <> EmptyString.
Proof.
  rewrite andb_true_iff, includes_In, In_imageIds. unfold exportable.
  rewrite andb_true_iff, negb_true_iff, String.eqb_neq.
  split.
  - intros (Hr & Hp & Hg). split; [assumption|]. split; [assumption|].
    destruct (Store.get k (DB.images d)) as [r|]; [|discriminate].
    exists r. split; [reflexivity | now apply truthy_true].
  - intros (Hr & Hp & r & Hg & Hd). split; [assumption|]. split; [assumption|].
    rewrite Hg. now apply truthy_true.
Qed.

(** ** C8: the image map of the export *)

(** C8 (as amended).  In every world [exportAll] returns a document that
    holds the four entity stores as they are and an image map whose keys
    are exactly the ids that are referenced (listed in [images] by a
    stored character or place, or the non-empty [coverImage] of a stored
    novel) and for which the images store holds a record with non-empty
    data; a referenced id whose image is missing or has empty data is
    left out, and so is the property name [__proto__].  Each key is
    mapped to the data of its image and occurs once. *)
Theorem export_image_map (w : World) :
  exists doc w' ims,
    dataExport.exportAll w = (Ok doc, w') /\
    ExportData.novels doc = Some (DB.novels (db w)) /\
    ExportData.characters doc = Some (DB.characters (db w)) /\
    ExportData.places doc = Some (DB.places (db w)) /\
    ExportData.notes doc = Some (DB.notes (db w)) /\
    ExportData.images doc = Some ims /\
    NoDup (JS.keys ims) /\
    forall k,
      (In k (JS.keys ims) <->
       referenced (db w) k /\ k <> "__proto__" /\
       exists r, Store.get k (DB.images (db w)) = Some r /\
                 Image.data r <> EmptyString) /\
      (forall v, JS.obj_get k ims = Some v ->
         exists r, Store.get k (DB.images (db w)) = Some r /\
                   Image.data r = v).
Proof.
  eexists. eexists. eexists. split; [apply exportAll_run|].
  cbn [ExportData.novels ExportData.characters ExportData.places
       ExportData.notes ExportData.images].
  repeat (split; [reflexivity|]).
  split; [apply NoDup_keys_export_images; constructor|].
  intros k. split.
  - rewrite In_keys_get, obj_get_export_images, <- exported_iff.
    destruct (JS.includes (imageIds (db w)) k && exportable (db w) k) eqn:E.
    + split; [reflexivity|]. intros _.
      apply andb_true_iff in E. destruct E as [_ E]. unfold exportable in E.
      apply andb_true_iff in E. destruct E as [_ E].
      destruct (Store.get k (DB.images (db w))); [discriminate | discriminate].
    + simpl. split; [congruence | discriminate].
  - intros v. rewrite obj_get_export_images.
    destruct (JS.includes (imageIds (db w)) k && exportable (db w) k);
      [|discriminate].
    destruct (Store.get k (DB.images (db w))) as [r|]; [|discriminate].
    simpl. intros [= <-]. now exists r.
Qed.

Lemma export_image_map_witness :
  exists doc w' ims,
    dataExport.exportAll (world_of db_links) = (Ok doc, w') /\
    ExportData.images doc = Some ims /\
    In "i1" (JS.keys ims) /\
    forall v, JS.obj_get "i1" ims = Some v -> v = "AAAA".
Proof.
  destruct (export_image_map (world_of db_links))
    as (doc & w' & ims & Hrun & _ & _ & _ & _ & Hims & _ & Hk).
  exists doc, w', ims. split; [exact Hrun|]. split; [exact Hims|].
  destruct (Hk "i1") as [Hin Hval]. split.
  - apply Hin. split; [left; exists paul; simpl; tauto|].
    split; [discriminate|]. exists (Image.mk "i1" "AAAA").
    split; [reflexivity | discriminate].
  - intros v Hv. destruct (Hval v Hv) as (r & Hg & Hd).
    injection Hg as <-. symmetry. exact Hd.
Defined.

(** C8 fails on omissions: Paul is exported with "i1" in his [images],
    no image is stored under "i1", and the image map of the document is
    empty. *)
Lemma export_omits_missing_image :
  exists doc w',
    dataExport.exportAll (world_of db_dangling) = (Ok doc, w') /\
    ExportData.characters doc = Some [paul] /\
    In "i1" (Character.images paul) /\
    ExportData.images doc = Some [].
Proof.
  eexists. eexists. split; [vm_compute; reflexivity|].
  split; [reflexivity|]. split; [now left | reflexivity].
Qed.

(** ** C1: export followed by import *)

Lemma get_image_entries k (o : JS.Obj) :
  Store.get k (map image_of_entry o) =
  option_map (Image.mk k) (JS.obj_get k o).
Proof.
  induction o as [|[k0 v0] o IH]; simpl; [reflexivity|].
  unfold key, Image_Keyed. simpl.
  destruct (String.eqb_spec k0 k) as [E|E]; [now subst k0 | exact IH].
Qed.

Lemma keys_image_entries (o : JS.Obj) :
  map key (map image_of_entry o) = JS.keys o.
Proof.
  unfold JS.keys. rewrite map_map. apply map_ext. now intros [k v].
Qed.

(** C1 (as amended).  For every world with a well-formed database,
    [exportAll] returns a document, and [importAll] of that document in
    overwrite mode, into any world (a fresh store in particular), returns
    normally with novels, characters, places and notes stores equal to
    the original ones, and with an images store that holds exactly the
    original image records that are referenced and have non-empty data
    (an image with empty data, like an unreferenced one, is not carried
    over; nor is one stored under [__proto__]). *)
Theorem export_import_round_trip (w target : World) :
  DB.wf (db w) ->
  exists doc w1 w2,
    dataExport.exportAll w = (Ok doc, w1) /\
    dataExport.importAll doc overwrite target = (Ok tt, w2) /\
    DB.novels (db w2) = DB.novels (db w) /\
    DB.characters (db w2) = DB.characters (db w) /\
    DB.places (db w2) = DB.places (db w) /\
    DB.notes (db w2) = DB.notes (db w) /\
    forall k r,
      Store.get k (DB.images (db w2)) = Some r <->
      Store.get k (DB.images (db w)) = Some r /\
      referenced (db w) k /\ k <> "__proto__" /\
      Image.data r <> EmptyString.
Proof.
  intros (Hn & Hc & Hp & Ht & _).
  eexists. eexists. eexists. split; [apply exportAll_run|].
  split; [apply importAll_run; reflexivity|].
  cbn [db set_db imported DB.novels DB.characters DB.places DB.notes
       DB.images DB.empty].
  unfold put_all.
  rewrite !fold_put_sorted by assumption. cbn [app].
  repeat (split; [reflexivity|]).
  intros k r. rewrite get_fold_put.
  rewrite get_rev_NoDup
    by (rewrite keys_image_entries; apply NoDup_keys_export_images;
        constructor).
  rewrite get_image_entries. unfold JS.entries.
  rewrite obj_get_export_images. cbn [JS.obj_get Store.get].
  pose proof (exported_iff (db w) k) as Hex.
  destruct (JS.includes (imageIds (db w)) k && exportable (db w) k).
  - destruct Hex as [Hex _]. destruct (Hex eq_refl) as (Href & Hpr & r0 & Hg & Hd).
    rewrite Hg. simpl.
    assert (Hr0 : Image.mk k (Image.data r0) = r0).
    { pose proof (get_Some_key _ _ _ Hg) as Hk. destruct r0 as [i d].
      unfold key, Image_Keyed in Hk. simpl in Hk. now subst i. }
    rewrite Hr0. split.
    + intros [= <-]. auto.
    + intros (Hg' & _). congruence.
  - simpl. split; [discriminate|].
    intros (Hg & Href & Hpr & Hd). destruct Hex as [_ Hex].
    assert (false = true); [|discriminate].
    apply Hex. split; [assumption|]. split; [assumption|]. now exists r.
Qed.

Lemma export_import_round_trip_witness :
  exists doc w1 w2,
    dataExport.exportAll (world_of db_links) = (Ok doc, w1) /\
    dataExport.importAll doc overwrite (world_of DB.empty) = (Ok tt, w2) /\
    DB.characters (db w2) = [paul; leto; duncan] /\
    Store.get "i1" (DB.images (db w2)) = Some (Image.mk "i1" "AAAA").
Proof.
  destruct (export_import_round_trip (world_of db_links) (world_of DB.empty)
              db_links_wf)
    as (doc & w1 & w2 & Hex & Him & _ & Hc & _ & _ & Hi).
  exists doc, w1, w2. split; [exact Hex|]. split; [exact Him|].
  split; [exact Hc|]. apply Hi. split; [reflexivity|].
  split; [left; exists paul; split; [now left | now left]|].
  split; discriminate.
Defined.

(** C1 fails for an image with empty data: the export reads the record
    stored under "i1", which Paul lists, finds its data falsy and leaves
    it out, so the store rebuilt from the document has no image "i1". *)
Lemma round_trip_drops_empty_image :
  exists doc w1 w2,
    dataExport.exportAll (world_of db_blank) = (Ok doc, w1) /\
    dataExport.importAll doc overwrite (world_of DB.empty) = (Ok tt, w2) /\
    In "i1" (Character.images paul) /\
    Store.get "i1" (DB.images db_blank) = Some (Image.mk "i1" EmptyString) /\
    imageDB.get "i1" (world_of db_blank) =
      (Ok (Some EmptyString), world_of db_blank) /\
    Store.get "i1" (DB.images (db w2)) = None.
Proof.
  eexists. eexists. eexists. split; [vm_compute; reflexivity|].
  split; [vm_compute; reflexivity|].
  split; [now left|]. split; [reflexivity|]. split; reflexivity.
Qed.


(** * Further properties of the repositories *)

(** ** The exact effect of [create] and [update] *)

Lemma novel_create_eq f w :
  novelDB.create f w =
  (Ok (novel_created f (next_id w) (clock w (ticks w))),
   after_create
     (upd s_novels
        (Store.put (novel_created f (next_id w) (clock w (ticks w)))
                   (DB.novels (db w))) (db w)) w).
Proof. reflexivity. Qed.

Lemma character_create_eq f w :
  characterDB.create f w =
  (Ok (character_created f (next_id w) (clock w (ticks w))),
   after_create
     (upd s_characters
        (Store.put (character_created f (next_id w) (clock w (ticks w)))
                   (DB.characters (db w))) (db w)) w).
Proof. reflexivity. Qed.

Lemma place_create_eq f w :
  placeDB.create f w =
  (Ok (place_created f (next_id w) (clock w (ticks w))),
   after_create
     (upd s_places
        (Store.put (place_created f (next_id w) (clock w (ticks w)))
                   (DB.places (db w))) (db w)) w).
Proof. reflexivity. Qed.

Lemma note_create_eq f w :
  noteDB.create f w =
  (Ok (note_created f (next_id w) (clock w (ticks w))),
   after_create
     (upd s_notes
        (Store.put (note_created f (next_id w) (clock w (ticks w)))
                   (DB.notes (db w))) (db w)) w).
Proof. reflexivity. Qed.

Ltac update_eq Hget :=
  unfold bind at 1; unfold db_get at 1;
  cbn [sel s_novels s_characters s_places s_notes];
  rewrite Hget; reflexivity.

Lemma novel_update_eq id data existing w :
  Store.get id (DB.novels (db w)) = Some existing ->
  novelDB.update id data w =
  (Ok (Some (novel_updated id existing data (clock w (ticks w)))),
   after_tick
     (upd s_novels
        (Store.put (novel_updated id existing data (clock w (ticks w)))
                   (DB.novels (db w))) (db w)) w).
Proof. intros Hget. unfold novelDB.update. update_eq Hget. Qed.

Lemma character_update_eq id data existing w :
  Store.get id (DB.characters (db w)) = Some existing ->
  characterDB.update id data w =
  (Ok (Some (character_updated id existing data (clock w (ticks w)))),
   after_tick
     (upd s_characters
        (Store.put (character_updated id existing data (clock w (ticks w)))
                   (DB.characters (db w))) (db w)) w).
Proof. intros Hget. unfold characterDB.update. update_eq Hget. Qed.

Lemma place_update_eq id data existing w :
  Store.get id (DB.places (db w)) = Some existing ->
  placeDB.update id data w =
  (Ok (Some (place_updated id existing data (clock w (ticks w)))),
   after_tick
     (upd s_places
        (Store.put (place_updated id existing data (clock w (ticks w)))
                   (DB.places (db w))) (db w)) w).
Proof. intros Hget. unfold placeDB.update. update_eq Hget. Qed.

Lemma note_update_eq id data existing w :
  Store.get id (DB.notes (db w)) = Some existing ->
  noteDB.update id data w =
  (Ok (Some (note_updated id existing data (clock w (ticks w)))),
   after_tick
     (upd s_notes
        (Store.put (note_updated id existing data (clock w (ticks w)))
                   (DB.notes (db w))) (db w)) w).
Proof. intros Hget. unfold noteDB.update. update_eq Hget. Qed.

Ltac update_none Hget :=
  unfold bind at 1; unfold db_get at 1;
  cbn [sel s_novels s_characters s_places s_notes];
  rewrite Hget; reflexivity.

(** X1.  [update] of an id that is not stored returns [undefined] and
    changes nothing: no store is written and the clock is not read.  This
    holds for each of the four repositories and every payload. *)
Theorem update_absent_changes_nothing (id : string) (w : World) :
  (Store.get id (DB.novels (db w)) = None ->
   forall data, novelDB.update id data w = (Ok None, w)) /\
  (Store.get id (DB.characters (db w)) = None ->
   forall data, characterDB.update id data w = (Ok None, w)) /\
  (Store.get id (DB.places (db w)) = None ->
   forall data, placeDB.update id data w = (Ok None, w)) /\
  (Store.get id (DB.notes (db w)) = None ->
   forall data, noteDB.update id data w = (Ok None, w)).
Proof.
  split; [|split; [|split]]; intros Hget data.
  - unfold novelDB.update. update_none Hget.
  - unfold characterDB.update. update_none Hget.
  - unfold placeDB.update. update_none Hget.
  - unfold noteDB.update. update_none Hget.
Qed.

Lemma update_absent_changes_nothing_witness :
  novelDB.update "n7" rename_payload (world_of db_links) =
    (Ok None, world_of db_links) /\
  characterDB.update "c7" rename_character (world_of db_links) =
    (Ok None, world_of db_links).
Proof.
  destruct (update_absent_changes_nothing "n7" (world_of db_links))
    as (Hn & _).
  destruct (update_absent_changes_nothing "c7" (world_of db_links))
    as (_ & Hc & _).
  split; [apply Hn; reflexivity | apply Hc; reflexivity].
Defined.

Lemma rewrites_key_put {V : Type} `{Keyed V} (s : StoreName V) (r : V) d :
  rewrites_key s (key r) d (upd s (Store.put r (sel s d)) d).
Proof.
  exists (Store.put r (sel s d)). split; [reflexivity|].
  intros k' Hk. apply get_put_other. congruence.
Qed.

(** X2.  [update] of a stored record keeps its id whatever [id] the
    payload carries: the returned record has the id that was asked for
    and is what [get] returns for it afterwards; no other key of that
    store and no other store changes; the clock is read once.  This holds
    for each of the four repositories. *)
Theorem update_rewrites_one_record (id : string) (w : World) :
  (forall data existing,
     Store.get id (DB.novels (db w)) = Some existing ->
     exists r w',
       novelDB.update id data w = (Ok (Some r), w') /\
       Novel.id r = id /\
       novelDB.get id w' = (Ok (Some r), w') /\
       rewrites_key s_novels id (db w) (db w') /\
       ticks w' = S (ticks w)) /\
  (forall data existing,
     Store.get id (DB.characters (db w)) = Some existing ->
     exists r w',
       characterDB.update id data w = (Ok (Some r), w') /\
       Character.id r = id /\
       characterDB.get id w' = (Ok (Some r), w') /\
       rewrites_key s_characters id (db w) (db w') /\
       ticks w' = S (ticks w)) /\
  (forall data existing,
     Store.get id (DB.places (db w)) = Some existing ->
     exists r w',
       placeDB.update id data w = (Ok (Some r), w') /\
       Place.id r = id /\
       placeDB.get id w' = (Ok (Some r), w') /\
       rewrites_key s_places id (db w) (db w') /\
       ticks w' = S (ticks w)) /\
  (forall data existing,
     Store.get id (DB.notes (db w)) = Some existing ->
     exists r w',
       noteDB.update id data w = (Ok (Some r), w') /\
       Note.id r = id /\
       noteDB.get id w' = (Ok (Some r), w') /\
       rewrites_key s_notes id (db w) (db w') /\
       ticks w' = S (ticks w)).
Proof.
  split; [|split; [|split]]; intros data existing Hget;
    eexists; eexists.
  - split; [apply (novel_update_eq id data existing w Hget)|].
    split; [reflexivity|]. split.
    + rewrite novelDB_get_run. cbn [db after_tick upd s_novels DB.novels].
      f_equal. f_equal.
      exact (get_put_same (V:=Novel.t) (novel_updated id existing data _) _).
    + split; [|reflexivity].
      exact (rewrites_key_put s_novels (novel_updated id existing data _) _).
  - split; [apply (character_update_eq id data existing w Hget)|].
    split; [reflexivity|]. split.
    + rewrite characterDB_get_run.
      cbn [db after_tick upd s_characters DB.characters].
      f_equal. f_equal.
      exact (get_put_same (V:=Character.t)
               (character_updated id existing data _) _).
    + split; [|reflexivity].
      exact (rewrites_key_put s_characters
               (character_updated id existing data _) _).
  - split; [apply (place_update_eq id data existing w Hget)|].
    split; [reflexivity|]. split.
    + rewrite placeDB_get_run. cbn [db after_tick upd s_places DB.places].
      f_equal. f_equal.
      exact (get_put_same (V:=Place.t) (place_updated id existing data _) _).
    + split; [|reflexivity].
      exact (rewrites_key_put s_places (place_updated id existing data _) _).
  - split; [apply (note_update_eq id data existing w Hget)|].
    split; [reflexivity|]. split.
    + rewrite noteDB_get_run. cbn [db after_tick upd s_notes DB.notes].
      f_equal. f_equal.
      exact (get_put_same (V:=Note.t) (note_updated id existing data _) _).
    + split; [|reflexivity].
      exact (rewrites_key_put s_notes (note_updated id existing data _) _).
Qed.

Lemma update_rewrites_one_record_witness :
  exists r w',
    novelDB.update "n1" reid_payload (world_of db_links) = (Ok (Some r), w') /\
    Novel.id r = "n1" /\
    Store.get "n9" (DB.novels (db w')) = None /\
    DB.characters (db w') = [paul; leto; duncan].
Proof.
  destruct (update_rewrites_one_record "n1" (world_of db_links))
    as (Hn & _).
  destruct (Hn reid_payload dune eq_refl)
    as (r & w' & Hrun & Hid & _ & (x & Hdb & Hx) & _).
  exists r, w'. split; [exact Hrun|]. split; [exact Hid|].
  rewrite Hdb. split; [|reflexivity].
  cbn [upd s_novels DB.novels]. rewrite Hx; [reflexivity | discriminate].
Defined.

(** X3.  [create] stores what it returns: the record carries the given
    fields, the id built by [generateId] from the second clock reading
    and the random suffix, and the first clock reading as both
    timestamps; [get] of that id returns the record afterwards; no other
    key of that store and no other store changes.  This holds for each of
    the four repositories. *)
Theorem create_stores_record (w : World) :
  (forall f, exists r w',
     novelDB.create f w = (Ok r, w') /\
     r = novel_created f (next_id w) (clock w (ticks w)) /\
     novelDB.get (Novel.id r) w' = (Ok (Some r), w') /\
     rewrites_key s_novels (Novel.id r) (db w) (db w')) /\
  (forall f, exists r w',
     characterDB.create f w = (Ok r, w') /\
     r = character_created f (next_id w) (clock w (ticks w)) /\
     characterDB.get (Character.id r) w' = (Ok (Some r), w') /\
     rewrites_key s_characters (Character.id r) (db w) (db w')) /\
  (forall f, exists r w',
     placeDB.create f w = (Ok r, w') /\
     r = place_created f (next_id w) (clock w (ticks w)) /\
     placeDB.get (Place.id r) w' = (Ok (Some r), w') /\
     rewrites_key s_places (Place.id r) (db w) (db w')) /\
  (forall f, exists r w',
     noteDB.create f w = (Ok r, w') /\
     r = note_created f (next_id w) (clock w (ticks w)) /\
     noteDB.get (Note.id r) w' = (Ok (Some r), w') /\
     rewrites_key s_notes (Note.id r) (db w) (db w')).
Proof.
  split; [|split; [|split]]; intros f; eexists; eexists.
  - split; [apply novel_create_eq|]. split; [reflexivity|]. split.
    + rewrite novelDB_get_run. cbn [db after_create upd s_novels DB.novels].
      f_equal. f_equal.
      exact (get_put_same (V:=Novel.t) (novel_created f _ _) _).
    + exact (rewrites_key_put s_novels (novel_created f _ _) _).
  - split; [apply character_create_eq|]. split; [reflexivity|]. split.
    + rewrite characterDB_get_run.
      cbn [db after_create upd s_characters DB.characters].
      f_equal. f_equal.
      exact (get_put_same (V:=Character.t) (character_created f _ _) _).
    + exact (rewrites_key_put s_characters (character_created f _ _) _).
  - split; [apply place_create_eq|]. split; [reflexivity|]. split.
    + rewrite placeDB_get_run. cbn [db after_create upd s_places DB.places].
      f_equal. f_equal.
      exact (get_put_same (V:=Place.t) (place_created f _ _) _).
    + exact (rewrites_key_put s_places (place_created f _ _) _).
  - split; [apply note_create_eq|]. split; [reflexivity|]. split.
    + rewrite noteDB_get_run. cbn [db after_create upd s_notes DB.notes].
      f_equal. f_equal.
      exact (get_put_same (V:=Note.t) (note_created f _ _) _).
    + exact (rewrites_key_put s_notes (note_created f _ _) _).
Qed.

(** ** Generated ids *)

Lemma dash_free_uint d : dash_free (NilEmpty.string_of_uint d).
Proof.
  induction d; simpl; try exact I; (split; [discriminate | assumption]).
Qed.

Lemma dash_free_decimal z : 0 <= z -> dash_free (decimal z).
Proof.
  intros Hz. unfold decimal. destruct z as [|p|p]; [| |lia].
  - simpl. split; [discriminate | exact I].
  - simpl. unfold NilZero.string_of_uint.
    destruct (Pos.to_uint p); try apply dash_free_uint.
    simpl. split; [discriminate | exact I].
Qed.

Lemma decimal_inj a b : decimal a = decimal b -> a = b.
Proof.
  unfold decimal. intros Heq.
  assert (Hnn : forall z, Z.to_int z <> Decimal.Pos Decimal.Nil /\
                          Z.to_int z <> Decimal.Neg Decimal.Nil).
  { intros [|p|p]; simpl; split; try discriminate;
      intros [= E]; exact (DecimalPos.Unsigned.to_uint_nonnil p E). }
  assert (Hi : Z.to_int a = Z.to_int b).
  { destruct (Hnn a) as [Ha1 Ha2]. destruct (Hnn b) as [Hb1 Hb2].
    pose proof (NilZero.isi _ Ha1 Ha2) as Ia.
    pose proof (NilZero.isi _ Hb1 Hb2) as Ib.
    rewrite Heq in Ia. congruence. }
  rewrite <- (DecimalZ.of_to a), <- (DecimalZ.of_to b). now rewrite Hi.
Qed.

Lemma append_dash_inj s1 s2 r1 r2 :
  dash_free s1 -> dash_free s2 ->
  String.append s1 (String.append "-" r1) =
  String.append s2 (String.append "-" r2) ->
  s1 = s2 /\ r1 = r2.
Proof.
  revert s2. induction s1 as [|c s1 IH]; intros s2 H1 H2 Heq.
  - destruct s2 as [|c2 s2]; simpl in Heq.
    + split; [reflexivity | congruence].
    + destruct H2 as [Hc _]. injection Heq as Hc' _. congruence.
  - destruct s2 as [|c2 s2]; simpl in Heq.
    + destruct H1 as [Hc _]. injection Heq as Hc' _. congruence.
    + injection Heq as -> Heq. destruct H1 as [_ H1]. destruct H2 as [_ H2].
      destruct (IH s2 H1 H2 Heq) as [-> ->]. now split.
Qed.

Lemma generateId_run w :
  generateId w =
  (Ok (String.append (decimal (clock w (ticks w)))
                     (String.append "-" (random w (draws w)))),
   mkWorld (db w) (clock w) (S (ticks w)) (random w) (S (draws w))).
Proof. reflexivity. Qed.

(** X4.  [generateId] returns the decimal clock reading, a dash and the
    random suffix, and leaves the database alone.  Two calls that read
    different non-negative clock values return different ids whatever the
    random suffixes are; two calls that read the same clock value return
    different ids exactly when the suffixes differ. *)
Theorem generateId_distinct (w1 w2 : World) :
  0 <= clock w1 (ticks w1) -> 0 <= clock w2 (ticks w2) ->
  exists id1 id2 w1' w2',
    generateId w1 = (Ok id1, w1') /\ generateId w2 = (Ok id2, w2') /\
    db w1' = db w1 /\ db w2' = db w2 /\
    (id1 = id2 <->
     clock w1 (ticks w1) = clock w2 (ticks w2) /\
     random w1 (draws w1) = random w2 (draws w2)).
Proof.
  intros H1 H2. eexists. eexists. eexists. eexists.
  split; [apply generateId_run|]. split; [apply generateId_run|].
  split; [reflexivity|]. split; [reflexivity|]. split.
  - intros Heq.
    destruct (append_dash_inj _ _ _ _ (dash_free_decimal _ H1)
                (dash_free_decimal _ H2) Heq) as [Hd Hr].
    split; [now apply decimal_inj | assumption].
  - intros [Hc Hr]. now rewrite Hc, Hr.
Qed.

Lemma generateId_distinct_witness :
  exists id1 id2,
    fst (generateId (world_of db_dune)) = Ok id1 /\
    fst (generateId (snd (generateId (world_of db_dune)))) = Ok id2 /\
    id1 <> id2.
Proof.
  destruct (generateId_distinct (world_of db_dune)
              (snd (generateId (world_of db_dune))))
    as (id1 & id2 & w1' & w2' & Hr1 & Hr2 & _ & _ & Hiff);
    [discriminate | discriminate |].
  exists id1, id2. rewrite Hr2, Hr1. split; [reflexivity|].
  split; [reflexivity|]. intros Heq. apply Hiff in Heq.
  destruct Heq as [Hc _]. discriminate Hc.
Defined.

Lemma two_creates_run f1 f2 w :
  (r1 <- novelDB.create f1 ;; r2 <- novelDB.create f2 ;; ret (r1, r2)) w =
  let r1 := novel_created f1 (next_id w) (clock w (ticks w)) in
  let w1 := after_create
              (upd s_novels (Store.put r1 (DB.novels (db w))) (db w)) w in
  let r2 := novel_created f2 (next_id w1) (clock w1 (ticks w1)) in
  (Ok (r1, r2),
   after_create
     (upd s_novels (Store.put r2 (DB.novels (db w1))) (db w1)) w1).
Proof.
  unfold bind at 1. rewrite novel_create_eq.
  unfold bind at 1. rewrite novel_create_eq. reflexivity.
Qed.

(** X5.  Two novels created one after the other, when the two clock
    readings used for their ids are non-negative and different, get
    different ids, and both records are retrievable afterwards. *)
Theorem successive_creates_coexist (f1 f2 : Novel.fields) (w : World) :
  0 <= clock w (S (ticks w)) ->
  0 <= clock w (S (S (S (ticks w)))) ->
  clock w (S (ticks w)) <> clock w (S (S (S (ticks w)))) ->
  exists r1 r2 w',
    (r1 <- novelDB.create f1 ;; r2 <- novelDB.create f2 ;; ret (r1, r2)) w =
      (Ok (r1, r2), w') /\
    Novel.id r1 <> Novel.id r2 /\
    novelDB.get (Novel.id r1) w' = (Ok (Some r1), w') /\
    novelDB.get (Novel.id r2) w' = (Ok (Some r2), w').
Proof.
  intros H1 H2 Hne. eexists. eexists. eexists.
  split; [apply two_creates_run|]. cbv zeta.
  assert (Hid : next_id w <>
                next_id (after_create
                  (upd s_novels
                     (Store.put (novel_created f1 (next_id w)
                                   (clock w (ticks w)))
                        (DB.novels (db w))) (db w)) w)).
  { unfold next_id. cbn [clock ticks random draws after_create].
    intros Heq.
    destruct (append_dash_inj _ _ _ _ (dash_free_decimal _ H1)
                (dash_free_decimal _ H2) Heq) as [Hd _].
    apply decimal_inj in Hd. contradiction. }
  split; [exact Hid|]. rewrite !novelDB_get_run.
  cbn [db after_create upd s_novels DB.novels]. split.
  - f_equal. f_equal.
    rewrite (get_put_other (V:=Novel.t)).
    + exact (get_put_same (V:=Novel.t) (novel_created f1 _ _) _).
    + intros E. apply Hid. symmetry. exact E.
  - f_equal. f_equal.
    exact (get_put_same (V:=Novel.t) (novel_created f2 _ _) _).
Qed.

Lemma successive_creates_coexist_witness :
  exists r1 r2 w',
    (r1 <- novelDB.create dune_fields ;;
     r2 <- novelDB.create messiah_fields ;;
     ret (r1, r2)) (world_of DB.empty) = (Ok (r1, r2), w') /\
    Novel.id r1 <> Novel.id r2 /\
    novelDB.get (Novel.id r1) w' = (Ok (Some r1), w').
Proof.
  destruct (successive_creates_coexist dune_fields messiah_fields
              (world_of DB.empty))
    as (r1 & r2 & w' & Hrun & Hne & Hg1 & _);
    [discriminate | discriminate | discriminate |].
  exists r1, r2, w'. split; [exact Hrun|]. split; [exact Hne | exact Hg1].
Defined.

(** X6.  Ids are not checked against the store: when the clock reading
    and the random suffix of a second [create] repeat those of the first,
    both novels get the same id and the second record replaces the first,
    which is no longer retrievable. *)
Theorem create_collision_overwrites (f1 f2 : Novel.fields) (w : World) :
  clock w (S (ticks w)) = clock w (S (S (S (ticks w)))) ->
  random w (draws w) = random w (S (draws w)) ->
  exists r1 r2 w',
    (r1 <- novelDB.create f1 ;; r2 <- novelDB.create f2 ;; ret (r1, r2)) w =
      (Ok (r1, r2), w') /\
    Novel.id r1 = Novel.id r2 /\
    novelDB.get (Novel.id r1) w' = (Ok (Some r2), w').
Proof.
  intros Hc Hr. eexists. eexists. eexists.
  split; [apply two_creates_run|]. cbv zeta.
  assert (Hid : next_id w =
                next_id (after_create
                  (upd s_novels
                     (Store.put (novel_created f1 (next_id w)
                                   (clock w (ticks w)))
                        (DB.novels (db w))) (db w)) w)).
  { unfold next_id. cbn [clock ticks random draws after_create].
    now rewrite Hc, Hr. }
  split; [exact Hid|]. rewrite novelDB_get_run.
  cbn [db after_create upd s_novels DB.novels Novel.id novel_created].
  f_equal. f_equal. rewrite Hid.
  exact (get_put_same (V:=Novel.t) (novel_created f2 _ _) _).
Qed.

Lemma create_collision_overwrites_witness :
  exists r1 r2 w',
    (r1 <- novelDB.create dune_fields ;;
     r2 <- novelDB.create messiah_fields ;;
     ret (r1, r2)) (stuck_world DB.empty) = (Ok (r1, r2), w') /\
    Novel.title r1 = "Dune" /\
    novelDB.get (Novel.id r1) w' = (Ok (Some r2), w') /\
    Novel.title r2 = "Dune Messiah".
Proof.
  destruct (create_collision_overwrites dune_fields messiah_fields
              (stuck_world DB.empty) eq_refl eq_refl)
    as (r1 & r2 & w' & Hrun & _ & Hget).
  exists r1, r2, w'. split; [exact Hrun|].
  rewrite two_creates_run in Hrun. cbv zeta in Hrun.
  injection Hrun as <- <- _.
  split; [reflexivity|]. split; [exact Hget | reflexivity].
Defined.

(** ** Deleting places, notes and images *)

Lemma delete_absent {V : Type} `{Keyed V} k (s : list V) :
  Store.get k s = None -> Store.delete k s = s.
Proof.
  induction s as [|r s IH]; simpl; [reflexivity|].
  destruct (String.eqb (key r) k); [discriminate|].
  intros Hg. now rewrite IH.
Qed.

Lemma place_delete_run id p w :
  Store.get id (DB.places (db w)) = Some p ->
  placeDB.delete id w =
  (Ok tt,
   set_db (DB.mk (DB.novels (db w)) (DB.characters (db w))
                 (Store.delete id (DB.places (db w))) (DB.notes (db w))
                 (del_all (Place.images p) (DB.images (db w)))) w).
Proof.
  intros Hget. unfold placeDB.delete.
  unfold bind at 1. unfold db_get at 1. cbn [sel s_places]. rewrite Hget.
  unfold transaction. unfold bind at 1. rewrite delete_images_run.
  reflexivity.
Qed.

(** X7.  [placeDB.delete] of an id that is not stored changes nothing.
    For a stored place it removes the place and every image id of the
    place's [images] list, and nothing else: other places, other images
    and the novels, characters and notes stores stay as they were, so
    [linkedPlaceIds] of characters and notes that name the place are not
    cleaned up. *)
Theorem place_delete_effect (id : string) (w : World) :
  (Store.get id (DB.places (db w)) = None ->
   placeDB.delete id w = (Ok tt, w)) /\
  (forall p,
     Store.get id (DB.places (db w)) = Some p ->
     exists w',
       placeDB.delete id w = (Ok tt, w') /\
       placeDB.get id w' = (Ok None, w') /\
       (forall img, In img (Place.images p) ->
          imageDB.get img w' = (Ok None, w')) /\
       (forall img, ~ In img (Place.images p) ->
          Store.get img (DB.images (db w')) =
          Store.get img (DB.images (db w))) /\
       (forall k, k <> id ->
          Store.get k (DB.places (db w')) = Store.get k (DB.places (db w))) /\
       DB.novels (db w') = DB.novels (db w) /\
       DB.characters (db w') = DB.characters (db w) /\
       DB.notes (db w') = DB.notes (db w)).
Proof.
  split.
  - intros Hget. unfold placeDB.delete.
    unfold bind at 1. unfold db_get at 1. cbn [sel s_places].
    now rewrite Hget.
  - intros p Hget. eexists. split; [apply (place_delete_run id p w Hget)|].
    rewrite placeDB_get_run. cbn [db set_db DB.places DB.images DB.novels
                                  DB.characters DB.notes].
    split; [now rewrite get_delete_same|]. split.
    + intros img Himg. rewrite imageDB_get_run. cbn [db set_db DB.images].
      now rewrite (get_del_all_In _ _ _ Himg).
    + split; [intros img Himg; now apply get_del_all_other|].
      split; [intros k Hk; now apply get_delete_other|].
      repeat split.
Qed.

Lemma place_delete_effect_witness :
  exists w',
    placeDB.delete "p1" (world_of db_links) = (Ok tt, w') /\
    placeDB.get "p1" w' = (Ok None, w') /\
    DB.notes (db w') = [prophecy] /\
    placeDB.delete "p7" (world_of db_links) = (Ok tt, world_of db_links).
Proof.
  destruct (place_delete_effect "p1" (world_of db_links)) as (_ & Hp).
  destruct (Hp arrakis eq_refl) as (w' & Hrun & Hget & _ & _ & _ & _ & _ & Hn).
  destruct (place_delete_effect "p7" (world_of db_links)) as (Habs & _).
  exists w'. split; [exact Hrun|]. split; [exact Hget|].
  split; [exact Hn | apply Habs; reflexivity].
Defined.

(** X8.  [noteDB.delete] removes the note stored under the id and nothing
    else (no other note, no other store, no cascade); when no note is
    stored under the id the world is unchanged, so deleting twice is the
    same as deleting once. *)
Theorem note_delete_effect (id : string) (w : World) :
  exists w',
    noteDB.delete id w = (Ok tt, w') /\
    noteDB.get id w' = (Ok None, w') /\
    rewrites_key s_notes id (db w) (db w') /\
    noteDB.delete id w' = (Ok tt, w') /\
    (Store.get id (DB.notes (db w)) = None -> w' = w).
Proof.
  eexists. split; [reflexivity|].
  rewrite noteDB_get_run. cbn [db set_db upd s_notes sel DB.notes].
  split; [now rewrite get_delete_same|]. split.
  - exists (Store.delete id (DB.notes (db w))). split; [reflexivity|].
    intros k Hk. now apply get_delete_other.
  - split.
    + unfold noteDB.delete, db_delete.
      cbn [db set_db upd s_notes sel DB.notes DB.novels DB.characters
           DB.places DB.images clock ticks random draws].
      rewrite (delete_absent id (Store.delete id (DB.notes (db w))))
        by apply get_delete_same.
      reflexivity.
    + intros Hget. rewrite (delete_absent id _ Hget).
      destruct w as [[] ? ? ? ?]. reflexivity.
Qed.

Lemma image_save_run data w :
  imageDB.save data w =
  (Ok (String.append (decimal (clock w (ticks w)))
                     (String.append "-" (random w (draws w)))),
   mkWorld
     (upd s_images
        (Store.put
           (Image.mk (String.append (decimal (clock w (ticks w)))
                        (String.append "-" (random w (draws w)))) data)
           (DB.images (db w))) (db w))
     (clock w) (S (ticks w)) (random w) (S (draws w))).
Proof. reflexivity. Qed.

(** X9.  The image store round trip: [imageDB.save] stores the data under
    the id it returns, so [imageDB.get] of that id returns the data (also
    when the data is the empty string); [imageDB.delete] makes
    [imageDB.get] return [undefined]; neither touches another image or an
    entity store, so a record that lists a deleted id keeps listing
    it. *)
Theorem image_store_round_trip (w : World) :
  (forall data, exists id w',
     imageDB.save data w = (Ok id, w') /\
     imageDB.get id w' = (Ok (Some data), w') /\
     rewrites_key s_images id (db w) (db w')) /\
  (forall id, exists w',
     imageDB.delete id w = (Ok tt, w') /\
     imageDB.get id w' = (Ok None, w') /\
     rewrites_key s_images id (db w) (db w')).
Proof.
  split.
  - intros data. eexists. eexists. split; [apply image_save_run|].
    rewrite imageDB_get_run. cbn [db upd s_images DB.images]. split.
    + match goal with
      | |- context [Store.get ?k (Store.put ?r ?s)] =>
          pose proof (get_put_same (V:=Image.t) r s) as E;
          change (key r) with k in E; rewrite E
      end.
      reflexivity.
    + exact (rewrites_key_put s_images (Image.mk _ data) _).
  - intros id. eexists. split; [reflexivity|].
    rewrite imageDB_get_run. cbn [db set_db upd s_images sel DB.images].
    split; [now rewrite get_delete_same|].
    exists (Store.delete id (DB.images (db w))). split; [reflexivity|].
    intros k Hk. now apply get_delete_other.
Qed.

(** ** What the cascading deletes leave alone *)

Lemma get_del_filtered {V : Type} `{Keyed V} (prop : V -> string) id
      (s : list V) (c : V) :
  Store.wf s -> In c s -> prop c <> id ->
  Store.get (key c)
    (del_all (map key (Store.getAllFromIndex_eq prop id s)) s) = Some c.
Proof.
  intros Hwf Hin Hne. rewrite get_del_all_other; [now apply wf_In_get|].
  intros Hk. apply in_map_iff in Hk. destruct Hk as (c2 & Hkey & Hin2).
  unfold Store.getAllFromIndex_eq in Hin2. apply filter_In in Hin2.
  destruct Hin2 as [Hin2 Hp]. apply String.eqb_eq in Hp.
  pose proof (wf_In_get _ _ Hwf Hin) as G1.
  pose proof (wf_In_get _ _ Hwf Hin2) as G2.
  rewrite Hkey in G2. congruence.
Qed.

(** X10.  [novelDB.delete], in a well-formed database, leaves every
    other novel as it was, leaves every character, place and note whose
    [novelId] is another novel's stored unchanged, leaves every image
    that no character or place of the deleted novel lists, and does not
    read the clock. *)
Theorem novel_delete_frame (id : string) (w : World) :
  DB.wf (db w) ->
  exists w',
    novelDB.delete id w = (Ok tt, w') /\
    (forall k, k <> id ->
       Store.get k (DB.novels (db w')) = Store.get k (DB.novels (db w))) /\
    (forall c, In c (DB.characters (db w)) -> Character.novelId c <> id ->
       Store.get (Character.id c) (DB.characters (db w')) = Some c) /\
    (forall p, In p (DB.places (db w)) -> Place.novelId p <> id ->
       Store.get (Place.id p) (DB.places (db w')) = Some p) /\
    (forall n, In n (DB.notes (db w)) -> Note.novelId n <> id ->
       Store.get (Note.id n) (DB.notes (db w')) = Some n) /\
    (forall img,
       (forall c, In c (DB.characters (db w)) -> Character.novelId c = id ->
          ~ In img (Character.images c)) ->
       (forall p, In p (DB.places (db w)) -> Place.novelId p = id ->
          ~ In img (Place.images p)) ->
       Store.get img (DB.images (db w')) = Store.get img (DB.images (db w))) /\
    ticks w' = ticks w.
Proof.
  intros (Hn & Hc & Hp & Ht & Hi). eexists.
  split; [apply novel_delete_run|]. cbn [db set_db ticks].
  split; [intros k Hk; now apply get_delete_other|].
  split; [intros c Hin Hne;
          exact (get_del_filtered Character.novelId id _ c Hc Hin Hne)|].
  split; [intros p Hin Hne;
          exact (get_del_filtered Place.novelId id _ p Hp Hin Hne)|].
  split; [intros n Hin Hne;
          exact (get_del_filtered Note.novelId id _ n Ht Hin Hne)|].
  split; [|reflexivity].
  intros img H1 H2. now apply cascade_keeps_image.
Qed.

Lemma novel_delete_frame_witness :
  exists w',
    novelDB.delete "n1" (world_of db_links) = (Ok tt, w') /\
    Store.get "c3" (DB.characters (db w')) = Some duncan /\
    Store.get "c1" (DB.characters (db w')) = None.
Proof.
  destruct (novel_delete_frame "n1" (world_of db_links) db_links_wf)
    as (w' & Hrun & _ & Hc & _).
  exists w'. split; [exact Hrun|]. split.
  - apply (Hc duncan); [simpl; tauto | discriminate].
  - rewrite novel_delete_run in Hrun. injection Hrun as <-. reflexivity.
Defined.

(** X11.  [characterDB.delete] of an id that is not stored changes
    nothing.  For a stored character, in a well-formed characters store,
    it deletes exactly the images of the character's [images] list: each
    of them is absent afterwards, whether or not another record lists it,
    and every other image is as before. *)
Theorem character_delete_images (id : string) (w : World) :
  (Store.get id (DB.characters (db w)) = None ->
   characterDB.delete id w = (Ok tt, w)) /\
  (forall c,
     Store.wf (DB.characters (db w)) ->
     Store.get id (DB.characters (db w)) = Some c ->
     exists w',
       characterDB.delete id w = (Ok tt, w') /\
       (forall img, In img (Character.images c) ->
          imageDB.get img w' = (Ok None, w')) /\
       (forall img, ~ In img (Character.images c) ->
          Store.get img (DB.images (db w')) =
          Store.get img (DB.images (db w)))).
Proof.
  split; [apply character_delete_absent|].
  intros c Hwf Hget.
  destruct (character_delete_spec id c w Hwf Hget)
    as (w' & Hrun & _ & _ & _ & _ & Him & _).
  exists w'. split; [exact Hrun|]. split.
  - intros img Hin. rewrite imageDB_get_run, Him.
    now rewrite (get_del_all_In _ _ _ Hin).
  - intros img Hnin. rewrite Him. now apply get_del_all_other.
Qed.

Lemma character_delete_images_witness :
  exists w',
    characterDB.delete "c1" (world_of db_links) = (Ok tt, w') /\
    imageDB.get "i1" w' = (Ok None, w') /\
    characterDB.delete "c7" (world_of db_links) = (Ok tt, world_of db_links).
Proof.
  destruct (character_delete_images "c1" (world_of db_links)) as (_ & Hp).
  destruct (Hp paul db_links_characters_wf eq_refl) as (w' & Hrun & Hi & _).
  destruct (character_delete_images "c7" (world_of db_links)) as (Habs & _).
  exists w'. split; [exact Hrun|].
  split; [apply Hi; simpl; tauto | apply Habs; reflexivity].
Defined.

Lemma note_delete_effect_witness :
  exists w',
    noteDB.delete "t7" (world_of db_links) = (Ok tt, w') /\
    w' = world_of db_links.
Proof.
  destruct (note_delete_effect "t7" (world_of db_links))
    as (w' & Hrun & _ & _ & _ & Habs).
  exists w'. split; [exact Hrun | apply Habs; reflexivity].
Defined.

(** ** Imports that stop half-way *)

Lemma clear_all_run w :
  (db_clear s_novels ;;;
   db_clear s_characters ;;;
   db_clear s_places ;;;
   db_clear s_notes ;;;
   db_clear s_images) w = (Ok tt, set_db DB.empty w).
Proof. reflexivity. Qed.

Lemma import_mode_run mode w :
  (match mode with
   | overwrite =>
       db_clear s_novels ;;;
       db_clear s_characters ;;;
       db_clear s_places ;;;
       db_clear s_notes ;;;
       db_clear s_images
   | merge => ret tt
   end) w = (Ok tt, set_db (import_start mode (db w)) w).
Proof.
  destruct mode; [apply clear_all_run|].
  unfold ret. simpl. now rewrite set_db_same.
Qed.

Lemma write_images_run ims w :
  forEach (JS.entries ims) (fun e =>
    db_put s_images (Image.mk (fst e) (snd e))) w =
  (Ok tt, set_db (write_images ims (db w)) w).
Proof.
  exact (put_all_run s_images image_of_entry (JS.entries ims) s_images_ok w).
Qed.

Lemma write_novels_run ns w :
  forEach ns (fun novel => db_put s_novels novel) w =
  (Ok tt, set_db (write_novels ns (db w)) w).
Proof.
  rewrite (put_all_run s_novels (fun r => r) ns s_novels_ok).
  now rewrite map_id.
Qed.

Lemma write_characters_run cs w :
  forEach cs (fun character => db_put s_characters character) w =
  (Ok tt, set_db (write_characters cs (db w)) w).
Proof.
  rewrite (put_all_run s_characters (fun r => r) cs s_characters_ok).
  now rewrite map_id.
Qed.

Lemma write_places_run ps w :
  forEach ps (fun place => db_put s_places place) w =
  (Ok tt, set_db (write_places ps (db w)) w).
Proof.
  rewrite (put_all_run s_places (fun r => r) ps s_places_ok).
  now rewrite map_id.
Qed.

Lemma write_notes_run nts w :
  forEach nts (fun note => db_put s_notes note) w =
  (Ok tt, set_db (write_notes nts (db w)) w).
Proof.
  rewrite (put_all_run s_notes (fun r => r) nts s_notes_ok).
  now rewrite map_id.
Qed.

Ltac import_step :=
  first
    [ rewrite write_images_run
    | rewrite write_novels_run
    | rewrite write_characters_run
    | rewrite write_places_run
    | rewrite write_notes_run ];
  cbn [db set_db].

Lemma importAll_outcome data mode w :
  dataExport.importAll data mode w =
  (fst (import_outcome data (import_start mode (db w))),
   set_db (snd (import_outcome data (import_start mode (db w)))) w).
Proof.
  unfold dataExport.importAll, import_outcome.
  unfold bind at 1. rewrite import_mode_run.
  destruct (ExportData.images data) as [ims|]; [|reflexivity].
  unfold bind at 1. unfold iterable at 1, ret at 1.
  unfold bind at 1. import_step.
  destruct (ExportData.novels data) as [ns|]; [|reflexivity].
  unfold bind at 1. unfold iterable at 1, ret at 1.
  unfold bind at 1. import_step.
  destruct (ExportData.characters data) as [cs|]; [|reflexivity].
  unfold bind at 1. unfold iterable at 1, ret at 1.
  unfold bind at 1. import_step.
  destruct (ExportData.places data) as [ps|]; [|reflexivity].
  unfold bind at 1. unfold iterable at 1, ret at 1.
  unfold bind at 1. import_step.
  destruct (ExportData.notes data) as [nts|]; [|reflexivity].
  unfold bind at 1. unfold iterable at 1, ret at 1.
  import_step. reflexivity.
Qed.

(** X12.  [importAll] is not all-or-nothing.  It raises a TypeError at
    the first of [images], [novels], [characters], [places], [notes]
    that the document lacks, and what was written before stays written:
    the stores are already cleared in overwrite mode, and the collections
    that precede the missing one are already imported. *)
Theorem import_stops_at_missing_collection
        (data : ExportData.t) (mode : ImportMode) (w : World) :
  let start := import_start mode (db w) in
  (ExportData.images data = None ->
   dataExport.importAll data mode w = (Throw "TypeError", set_db start w)) /\
  (forall ims,
     ExportData.images data = Some ims ->
     ExportData.novels data = None ->
     dataExport.importAll data mode w =
     (Throw "TypeError", set_db (write_images ims start) w)) /\
  (forall ims ns,
     ExportData.images data = Some ims ->
     ExportData.novels data = Some ns ->
     ExportData.characters data = None ->
     dataExport.importAll data mode w =
     (Throw "TypeError",
      set_db (write_novels ns (write_images ims start)) w)) /\
  (forall ims ns cs,
     ExportData.images data = Some ims ->
     ExportData.novels data = Some ns ->
     ExportData.characters data = Some cs ->
     ExportData.places data = None ->
     dataExport.importAll data mode w =
     (Throw "TypeError",
      set_db (write_characters cs
                (write_novels ns (write_images ims start))) w)) /\
  (forall ims ns cs ps,
     ExportData.images data = Some ims ->
     ExportData.novels data = Some ns ->
     ExportData.characters data = Some cs ->
     ExportData.places data = Some ps ->
     ExportData.notes data = None ->
     dataExport.importAll data mode w =
     (Throw "TypeError",
      set_db (write_places ps
                (write_characters cs
                   (write_novels ns (write_images ims start)))) w)).
Proof.
  cbv zeta. rewrite importAll_outcome. unfold import_outcome.
  split; [|split; [|split; [|split]]].
  - intros Hi. now rewrite Hi.
  - intros ims Hi Hn. now rewrite Hi, Hn.
  - intros ims ns Hi Hn Hc. now rewrite Hi, Hn, Hc.
  - intros ims ns cs Hi Hn Hc Hp. now rewrite Hi, Hn, Hc, Hp.
  - intros ims ns cs ps Hi Hn Hc Hp Ht. now rewrite Hi, Hn, Hc, Hp, Ht.
Qed.

Lemma import_stops_at_missing_collection_witness :
  dataExport.importAll backup_without_characters merge (world_of db_links) =
  (Throw "TypeError",
   set_db (write_novels [dune] (write_images [("i9", "QUJD")] db_links))
          (world_of db_links)).
Proof.
  destruct (import_stops_at_missing_collection backup_without_characters
              merge (world_of db_links)) as (_ & _ & H & _).
  exact (H [("i9", "QUJD")] [dune] eq_refl eq_refl eq_refl).
Defined.

(** ** Imports that replace *)

Lemma get_put_all_empty {V : Type} `{Keyed V} k (l : list V) :
  Store.get k (put_all l []) = Store.get k (rev l).
Proof.
  unfold put_all. rewrite get_fold_put. simpl.
  now destruct (Store.get k (rev l)).
Qed.

(** X13.  [importAll] in overwrite mode, for a document whose five
    collections are present, leaves a database that depends on the
    document only: in each store a key holds the last document record
    listed under it and every other key is empty, whatever was stored
    before. *)
Theorem overwrite_discards_previous
        (data : ExportData.t) (ims : JS.Obj) (ns : list Novel.t)
        (cs : list Character.t) (ps : list Place.t) (nts : list Note.t)
        (w : World) :
  ExportData.images data = Some ims ->
  ExportData.novels data = Some ns ->
  ExportData.characters data = Some cs ->
  ExportData.places data = Some ps ->
  ExportData.notes data = Some nts ->
  exists w',
    dataExport.importAll data overwrite w = (Ok tt, w') /\
    forall k,
      Store.get k (DB.novels (db w')) = Store.get k (rev ns) /\
      Store.get k (DB.characters (db w')) = Store.get k (rev cs) /\
      Store.get k (DB.places (db w')) = Store.get k (rev ps) /\
      Store.get k (DB.notes (db w')) = Store.get k (rev nts) /\
      Store.get k (DB.images (db w')) =
        Store.get k (rev (map image_of_entry (JS.entries ims))).
Proof.
  intros Hi Hn Hc Hp Ht. eexists. split.
  - apply (importAll_run data overwrite ims ns cs ps nts w Hi Hn Hc Hp Ht).
  - intros k.
    cbn [db set_db imported DB.novels DB.characters DB.places DB.notes
         DB.images DB.empty].
    repeat split; apply get_put_all_empty.
Qed.

Lemma overwrite_discards_previous_witness :
  exists w',
    dataExport.importAll backup_complete overwrite (world_of db_links) =
      (Ok tt, w') /\
    Store.get "c1" (DB.characters (db w')) = Some paul_restored /\
    Store.get "c2" (DB.characters (db w')) = None /\
    Store.get "i1" (DB.images (db w')) = None.
Proof.
  destruct (overwrite_discards_previous backup_complete [("i9", "QUJD")]
              [dune] [paul_restored] [] [] (world_of db_links)
              eq_refl eq_refl eq_refl eq_refl eq_refl)
    as (w' & Hrun & Hk).
  exists w'. split; [exact Hrun|].
  destruct (Hk "c1") as (_ & Hc1 & _).
  destruct (Hk "c2") as (_ & Hc2 & _).
  destruct (Hk "i1") as (_ & _ & _ & _ & Hi1).
  split; [exact Hc1|]. split; [exact Hc2 | exact Hi1].
Defined.

(** X25.  Overwrite mode is merge mode on a cleared database: for every
    document, complete or not, [importAll] in overwrite mode gives the
    result and leaves the database that [importAll] in merge mode gives
    and leaves when started on the empty database. *)
Theorem overwrite_is_merge_after_clear (data : ExportData.t) (w : World) :
  dataExport.importAll data overwrite w =
  (fst (dataExport.importAll data merge (set_db DB.empty w)),
   set_db (db (snd (dataExport.importAll data merge (set_db DB.empty w)))) w).
Proof.
  rewrite !importAll_outcome. reflexivity.
Qed.

(** ** The import handler beyond its check *)

Lemma handleImport_run data ns w :
  JS.truthy_opt (ExportData.version data) = true ->
  ExportData.novels data = Some ns ->
  handleImport data w =
  (match fst (import_outcome data DB.empty) with
   | Ok _ => Ok (toast_success "Backup imported! Refreshing...")
   | Throw _ =>
       Ok (toast_error "Failed to import backup. Invalid file format.")
   end,
   set_db (snd (import_outcome data DB.empty)) w).
Proof.
  intros Hv Hn. unfold handleImport, try_catch.
  unfold bind at 1. rewrite Hv, Hn. cbn [negb orb]. unfold ret at 1.
  unfold bind at 1. rewrite importAll_outcome. cbn [import_start fst snd].
  destruct (fst (import_outcome data DB.empty)); reflexivity.
Qed.

(** X14.  [handleImport] on a parsed document with a non-empty [version]
    and all five collections replaces the whole database by the document
    and reports success. *)
Theorem handleImport_success
        (data : ExportData.t) (ims : JS.Obj) (ns : list Novel.t)
        (cs : list Character.t) (ps : list Place.t) (nts : list Note.t)
        (w : World) :
  JS.truthy_opt (ExportData.version data) = true ->
  ExportData.images data = Some ims ->
  ExportData.novels data = Some ns ->
  ExportData.characters data = Some cs ->
  ExportData.places data = Some ps ->
  ExportData.notes data = Some nts ->
  handleImport data w =
  (Ok (toast_success "Backup imported! Refreshing..."),
   set_db (imported ims ns cs ps nts DB.empty) w).
Proof.
  intros Hv Hi Hn Hc Hp Ht. rewrite (handleImport_run data ns w Hv Hn).
  unfold import_outcome. rewrite Hi, Hn, Hc, Hp, Ht. reflexivity.
Qed.

Lemma handleImport_success_witness :
  exists w',
    handleImport backup_complete (world_of db_links) =
      (Ok (toast_success "Backup imported! Refreshing..."), w') /\
    DB.characters (db w') = [paul_restored].
Proof.
  eexists. split.
  - apply (handleImport_success backup_complete [("i9", "QUJD")] [dune]
             [paul_restored] [] []); reflexivity.
  - reflexivity.
Defined.

(** X15.  The check of [handleImport] covers [version] and [novels]
    only.  For a document that passes it but lacks [images],
    [characters], [places] or [notes], the handler reports failure, yet
    the previous data is gone: the database is what the interrupted
    import had written into the cleared stores, the same as if the store
    had been empty before, and the notes store is empty. *)
Theorem handleImport_failure_after_clearing
        (data : ExportData.t) (ns : list Novel.t) (w : World) :
  JS.truthy_opt (ExportData.version data) = true ->
  ExportData.novels data = Some ns ->
  ExportData.images data = None \/ ExportData.characters data = None \/
  ExportData.places data = None \/ ExportData.notes data = None ->
  exists w',
    handleImport data w =
      (Ok (toast_error "Failed to import backup. Invalid file format."), w') /\
    db w' = db (snd (handleImport data (set_db DB.empty w))) /\
    DB.notes (db w') = [].
Proof.
  intros Hv Hn Hmiss.
  assert (Hout : exists e d,
            import_outcome data DB.empty = (Throw e, d) /\ DB.notes d = []).
  { unfold import_outcome. rewrite Hn.
    destruct (ExportData.images data) as [ims|];
      [|eexists; eexists; split; reflexivity].
    destruct (ExportData.characters data) as [cs|];
      [|eexists; eexists; split; reflexivity].
    destruct (ExportData.places data) as [ps|];
      [|eexists; eexists; split; reflexivity].
    destruct (ExportData.notes data) as [nts|];
      [|eexists; eexists; split; reflexivity].
    destruct Hmiss as [H|[H|[H|H]]]; discriminate H. }
  destruct Hout as (e & d & Hout & Hnotes).
  exists (set_db d w).
  rewrite !(handleImport_run data ns _ Hv Hn). rewrite Hout.
  cbn [fst snd db set_db]. repeat split. exact Hnotes.
Qed.

Lemma handleImport_failure_after_clearing_witness :
  exists w',
    handleImport backup_without_characters (world_of db_links) =
      (Ok (toast_error "Failed to import backup. Invalid file format."), w') /\
    DB.characters (db w') = [] /\
    DB.notes (db w') = [].
Proof.
  destruct (handleImport_failure_after_clearing backup_without_characters
              [dune] (world_of db_links) eq_refl eq_refl)
    as (w' & Hrun & _ & Hnotes); [right; left; reflexivity|].
  exists w'. split; [exact Hrun|]. split; [|exact Hnotes].
  rewrite (handleImport_run backup_without_characters [dune] _ eq_refl eq_refl)
    in Hrun.
  injection Hrun as <-. reflexivity.
Defined.

(** ** Export and import together *)

Section WfStores.
Context {V : Type} `{Keyed V}.

Lemma put_present r (s : list V) : Store.wf s -> In r s -> Store.put r s = s.
Proof.
  induction s as [|r' s IH]; simpl; intros Hwf Hin; [contradiction|].
  destruct (wf_inv _ _ Hwf) as [Hs Hall]. destruct Hin as [->|Hin].
  - assert (E : String.compare (key r) (key r) = Eq)
      by (apply String_as_OT.cmp_eq; reflexivity).
    now rewrite E.
  - rewrite Forall_forall in Hall. specialize (Hall _ Hin).
    assert (E : String.compare (key r) (key r') = Gt).
    { rewrite String.compare_antisym. unfold key_lt in Hall. now rewrite Hall. }
    rewrite E. now rewrite IH.
Qed.

Lemma put_all_present l (s : list V) :
  Store.wf s -> (forall r, In r l -> In r s) -> put_all l s = s.
Proof.
  intros Hwf. unfold put_all. induction l as [|r l IH]; intros Hall; simpl.
  - reflexivity.
  - rewrite put_present; [|assumption|apply Hall; now left].
    apply IH. intros r' Hr'. apply Hall. now right.
Qed.

Lemma wf_put_all l (s : list V) : Store.wf s -> Store.wf (put_all l s).
Proof.
  unfold put_all. revert s. induction l as [|r l IH]; intros s Hwf; simpl.
  - assumption.
  - apply IH. now apply wf_put.
Qed.

Lemma get_below r (s : list V) k :
  Forall (fun a => key_lt (key r) (key a)) s -> k = key r ->
  Store.get k s = None.
Proof.
  intros Hall ->. apply get_not_In_keys. intros Hin.
  apply in_map_iff in Hin. destruct Hin as (a & Ha & Hin).
  rewrite Forall_forall in Hall. specialize (Hall _ Hin).
  apply key_lt_neq in Hall. congruence.
Qed.

(** Two well-formed stores that answer every [get] alike are equal. *)
Lemma wf_ext (s1 s2 : list V) :
  Store.wf s1 -> Store.wf s2 ->
  (forall k, Store.get k s1 = Store.get k s2) -> s1 = s2.
Proof.
  revert s2. induction s1 as [|a s1 IH]; intros s2 H1 H2 Hget.
  - destruct s2 as [|b s2]; [reflexivity|].
    specialize (Hget (key b)). simpl in Hget.
    rewrite String.eqb_refl in Hget. discriminate.
  - destruct s2 as [|b s2].
    + specialize (Hget (key a)). simpl in Hget.
      rewrite String.eqb_refl in Hget. discriminate.
    + destruct (wf_inv _ _ H1) as [Hs1 Ha]. destruct (wf_inv _ _ H2) as [Hs2 Hb].
      assert (Hab : a = b).
      { pose proof (Hget (key a)) as Ga. pose proof (Hget (key b)) as Gb.
        simpl in Ga, Gb. rewrite String.eqb_refl in Ga, Gb.
        destruct (String.eqb_spec (key b) (key a)) as [E|E]; [congruence|].
        destruct (String.eqb_spec (key a) (key b)) as [E'|E']; [congruence|].
        symmetry in Ga. apply get_Some_In in Ga. apply get_Some_In in Gb.
        rewrite Forall_forall in Ha, Hb.
        pose proof (Ha _ Gb) as L1. pose proof (Hb _ Ga) as L2.
        exfalso. exact (key_lt_neq _ _ (key_lt_trans _ _ _ L1 L2) eq_refl). }
      subst b. f_equal. apply IH; [assumption | assumption |].
      intros k. specialize (Hget k). simpl in Hget.
      destruct (String.eqb_spec (key a) k) as [E|E]; [|assumption].
      now rewrite (get_below a s1 k Ha), (get_below a s2 k Hb).
Qed.

Lemma put_all_twice l (s : list V) :
  Store.wf s -> put_all l (put_all l s) = put_all l s.
Proof.
  intros Hwf. apply wf_ext.
  - now apply wf_put_all, wf_put_all.
  - now apply wf_put_all.
  - intros k. unfold put_all. rewrite !get_fold_put.
    now destruct (Store.get k (rev l)).
Qed.

End WfStores.

Lemma In_obj_replace e k v o :
  In e (JS.obj_replace k v o) -> e = (k, v) \/ In e o.
Proof.
  induction o as [|[k0 v0] o IH]; simpl.
  - intros [<-|[]]. now left.
  - destruct (String.eqb k0 k); simpl.
    + intros [<-|Hin]; [now left | right; now right].
    + intros [<-|Hin]; [right; now left|].
      destruct (IH Hin); [now left | right; now right].
Qed.

Lemma In_export_images d ids acc e :
  In e (export_images d ids acc) ->
  In e acc \/ In (image_of_entry e) (DB.images d).
Proof.
  unfold export_images. revert acc.
  induction ids as [|id ids IH]; intros acc; simpl; [now left|].
  intros Hin. destruct (IH _ Hin) as [Hacc|Hst]; [|now right].
  unfold export_step, JS.obj_set in Hacc.
  destruct (Store.get id (DB.images d)) as [r|] eqn:Hg; simpl in Hacc;
    [|now left].
  destruct (JS.truthy (Image.data r)); [|now left].
  destruct (String.eqb id "__proto__"); [now left|].
  apply In_obj_replace in Hacc. destruct Hacc as [->|Hacc]; [|now left].
  right. unfold image_of_entry. simpl.
  pose proof (get_Some_key _ _ _ Hg) as Hk. pose proof (get_Some_In _ _ _ Hg).
  destruct r as [i dt]. unfold key, Image_Keyed in Hk. simpl in Hk.
  now subst i.
Qed.

(** X16.  [exportAll] does not change the database, and merging the
    exported document back into the same well-formed database changes
    nothing either. *)
Theorem export_merge_back_identity (w : World) :
  DB.wf (db w) ->
  exists doc w1 w2,
    dataExport.exportAll w = (Ok doc, w1) /\
    db w1 = db w /\
    dataExport.importAll doc merge w1 = (Ok tt, w2) /\
    db w2 = db w.
Proof.
  intros (Hn & Hc & Hp & Ht & Hi).
  eexists. eexists. eexists. split; [apply exportAll_run|].
  split; [reflexivity|]. split; [apply importAll_run; reflexivity|].
  unfold imported.
  cbn [db set_db DB.novels DB.characters DB.places DB.notes DB.images].
  rewrite !put_all_present; try assumption; try (intros r Hr; exact Hr).
  - now destruct (db w).
  - intros r Hr. apply in_map_iff in Hr. destruct Hr as (e & <- & He).
    unfold JS.entries in He.
    destruct (In_export_images _ _ _ _ He) as [[]|Hst]. exact Hst.
Qed.

Lemma export_merge_back_identity_witness :
  exists doc w1 w2,
    dataExport.exportAll (world_of db_links) = (Ok doc, w1) /\
    dataExport.importAll doc merge w1 = (Ok tt, w2) /\
    db w2 = db_links.
Proof.
  destruct (export_merge_back_identity (world_of db_links) db_links_wf)
    as (doc & w1 & w2 & Hex & _ & Him & Hdb).
  exists doc, w1, w2. split; [exact Hex|]. split; [exact Him | exact Hdb].
Defined.

(** X17.  Importing the same complete document twice is the same as
    importing it once, in merge mode into a well-formed database and in
    overwrite mode. *)
Theorem import_twice_is_import_once
        (data : ExportData.t) (mode : ImportMode) (ims : JS.Obj)
        (ns : list Novel.t) (cs : list Character.t) (ps : list Place.t)
        (nts : list Note.t) (w : World) :
  DB.wf (db w) ->
  ExportData.images data = Some ims ->
  ExportData.novels data = Some ns ->
  ExportData.characters data = Some cs ->
  ExportData.places data = Some ps ->
  ExportData.notes data = Some nts ->
  exists w1 w2,
    dataExport.importAll data mode w = (Ok tt, w1) /\
    dataExport.importAll data mode w1 = (Ok tt, w2) /\
    db w2 = db w1.
Proof.
  intros (Hwn & Hwc & Hwp & Hwt & Hwi) Hi Hn Hc Hp Ht.
  eexists. eexists.
  split; [apply (importAll_run data mode ims ns cs ps nts w Hi Hn Hc Hp Ht)|].
  split; [apply (importAll_run data mode ims ns cs ps nts _ Hi Hn Hc Hp Ht)|].
  destruct mode; [reflexivity|].
  unfold imported.
  cbn [db set_db DB.novels DB.characters DB.places DB.notes DB.images].
  now rewrite !put_all_twice.
Qed.

Lemma import_twice_is_import_once_witness :
  exists w1 w2,
    dataExport.importAll merge_document merge (world_of db_links) =
      (Ok tt, w1) /\
    dataExport.importAll merge_document merge w1 = (Ok tt, w2) /\
    db w2 = db w1.
Proof.
  exact (import_twice_is_import_once merge_document merge [] []
           [paul_restored; chani] [] [] (world_of db_links) db_links_wf
           eq_refl eq_refl eq_refl eq_refl eq_refl).
Defined.

(** ** The store invariant across whole operations *)

Lemma keeps_wf_ret {A} (a : A) : keeps_wf (ret a).
Proof. intros w Hwf. exact Hwf. Qed.

Lemma keeps_wf_throw {A} e : keeps_wf (@throw A e).
Proof. intros w Hwf. exact Hwf. Qed.

Lemma keeps_wf_bind {A B} (c : M A) (k : A -> M B) :
  keeps_wf c -> (forall a, keeps_wf (k a)) -> keeps_wf (bind c k).
Proof.
  intros Hc Hk w Hwf. unfold bind. specialize (Hc w Hwf).
  destruct (c w) as [[a|e] w']; simpl in Hc.
  - now apply Hk.
  - exact Hc.
Qed.

Lemma keeps_wf_forEach {A} (l : list A) (f : A -> M unit) :
  (forall x, keeps_wf (f x)) -> keeps_wf (forEach l f).
Proof.
  intros Hf. induction l as [|x l IH]; simpl.
  - apply keeps_wf_ret.
  - apply keeps_wf_bind; [apply Hf | intros _; exact IH].
Qed.

Lemma keeps_wf_forFold {A B} (l : list A) (f : B -> A -> M B) acc :
  (forall b x, keeps_wf (f b x)) -> keeps_wf (forFold l f acc).
Proof.
  intros Hf. revert acc. induction l as [|x l IH]; intros acc; simpl.
  - apply keeps_wf_ret.
  - apply keeps_wf_bind; [apply Hf | intros b; apply IH].
Qed.

Lemma keeps_wf_transaction {A} (body : M A) :
  keeps_wf body -> keeps_wf (transaction body).
Proof.
  intros Hb w Hwf. unfold transaction. specialize (Hb w Hwf).
  destruct (body w) as [[a|e] w']; simpl in *; assumption.
Qed.

Lemma keeps_wf_try_catch {A} (body : M A) (handler : string -> M A) :
  keeps_wf body -> (forall e, keeps_wf (handler e)) ->
  keeps_wf (try_catch body handler).
Proof.
  intros Hb Hh w Hwf. unfold try_catch. specialize (Hb w Hwf).
  destruct (body w) as [[a|e] w']; simpl in Hb.
  - exact Hb.
  - now apply Hh.
Qed.

Lemma keeps_wf_read {A} (c : M A) :
  (forall w, db (snd (c w)) = db w) -> keeps_wf c.
Proof. intros Hc w Hwf. now rewrite Hc. Qed.

Lemma keeps_wf_put {V} `{Keyed V} (s : StoreName V) r :
  wf_store_name s -> keeps_wf (db_put s r).
Proof. intros Hs w. now apply db_put_wf. Qed.

Lemma keeps_wf_delete {V} `{Keyed V} (s : StoreName V) k :
  wf_store_name s -> keeps_wf (db_delete s k).
Proof. intros Hs w. now apply db_delete_wf. Qed.

Lemma keeps_wf_clear {V} `{Keyed V} (s : StoreName V) :
  wf_store_name s -> keeps_wf (db_clear s).
Proof. intros Hs w. now apply db_clear_wf. Qed.

Ltac keeps_wf_step :=
  first
    [ apply keeps_wf_ret
    | apply keeps_wf_throw
    | apply keeps_wf_bind; [|intros ?]
    | apply keeps_wf_forEach; intros ?
    | apply keeps_wf_forFold; intros ? ?
    | apply keeps_wf_transaction
    | apply keeps_wf_try_catch; [|intros ?]
    | apply keeps_wf_put;
      first [ exact s_novels_wf | exact s_characters_wf | exact s_places_wf
            | exact s_notes_wf | exact s_images_wf ]
    | apply keeps_wf_delete;
      first [ exact s_novels_wf | exact s_characters_wf | exact s_places_wf
            | exact s_notes_wf | exact s_images_wf ]
    | apply keeps_wf_clear;
      first [ exact s_novels_wf | exact s_characters_wf | exact s_places_wf
            | exact s_notes_wf | exact s_images_wf ]
    | apply keeps_wf_read; intros ?; reflexivity
    | progress cbv beta zeta
    | match goal with
      | |- keeps_wf (match ?x with _ => _ end) => destruct x
      | |- keeps_wf (if ?x then _ else _) => destruct x
      | |- keeps_wf (let '(_, _) := ?x in _) => destruct x
      end ].

Ltac keeps_wf := repeat keeps_wf_step.



Lemma keeps_wf_generateId : keeps_wf generateId.
Proof. apply keeps_wf_read. intros w. reflexivity. Qed.




(** * Properties of the state controller *)

Lemma sorted_rev {A} (R : A -> A -> Prop) (l : list A) :
  StronglySorted R l -> StronglySorted (fun a b => R b a) (rev l).
Proof.
  induction l as [|a l IH]; simpl; intros Hs; [constructor|].
  inversion Hs as [|? ? Hl Hall]; subst.
  assert (Happ : forall l1,
            StronglySorted (fun x y => R y x) l1 ->
            Forall (fun x => R a x) l1 ->
            StronglySorted (fun x y => R y x) (l1 ++ [a])).
  { induction l1 as [|b l1 IH1]; simpl; intros H1 H2.
    - constructor; constructor.
    - inversion H1 as [|? ? Hl1 Hall1]; subst.
      inversion H2 as [|? ? Hb H2']; subst.
      constructor; [now apply IH1|].
      apply Forall_app. split; [assumption|]. constructor; [assumption|constructor]. }
  apply Happ; [now apply IH|].
  apply Forall_forall. intros x Hx. apply in_rev in Hx.
  rewrite Forall_forall in Hall. now apply Hall.
Qed.

(** X19.  [loadNovels] fills the cache with all stored novels, newest
    first (descending [updatedAt]), ends with [loading] false, and touches
    neither the selection nor the database. *)
Theorem loadNovels_newest_first (st : NovelContext.State) (w : World) :
  exists st',
    NovelContext.loadNovels st w = (Ok st', w) /\
    Permutation (NovelContext.novels st') (DB.novels (db w)) /\
    StronglySorted (fun a b => Novel.updatedAt b <= Novel.updatedAt a)
                   (NovelContext.novels st') /\
    NovelContext.loading st' = false /\
    NovelContext.currentNovel st' = NovelContext.currentNovel st /\
    NovelContext.characters st' = NovelContext.characters st /\
    NovelContext.places st' = NovelContext.places st /\
    NovelContext.notes st' = NovelContext.notes st.
Proof.
  eexists. split; [reflexivity|]. simpl. split.
  - rewrite <- Permutation_rev. apply getAllFromIndex_ord_perm.
  - split; [|repeat split].
    apply (sorted_rev (fun a b => Novel.updatedAt a <= Novel.updatedAt b)).
    apply getAllFromIndex_ord_sorted.
Qed.



Lemma deleteNovel_run id st w :
  NovelContext.deleteNovel id st w =
  (Ok (let st1 :=
         NovelContext.setNovels
           (filter (fun n => negb (String.eqb (Novel.id n) id))
                   (NovelContext.novels st)) st in
       if NovelContext.isCurrent id st
       then NovelContext.clearSelection st1 else st1),
   set_db (cascade id (dependents id (db w)) (db w)) w).
Proof.
  unfold NovelContext.deleteNovel. unfold bind at 1.
  rewrite novel_delete_run. reflexivity.
Qed.

(** X21.  [deleteNovel] runs [novelDB.delete] and then drops the novel
    from the cached list; when the deleted novel is the selected one the
    selection and the three entity lists are emptied, otherwise they are
    left as they were. *)
Theorem deleteNovel_effect (id : string) (st : NovelContext.State)
        (w : World) :
  exists st' w',
    NovelContext.deleteNovel id st w = (Ok st', w') /\
    novelDB.delete id w = (Ok tt, w') /\
    (forall n, In n (NovelContext.novels st') <->
       In n (NovelContext.novels st) /\ Novel.id n <> id) /\
    (NovelContext.isCurrent id st = true ->
     NovelContext.currentNovel st' = None /\
     NovelContext.characters st' = [] /\
     NovelContext.places st' = [] /\
     NovelContext.notes st' = []) /\
    (NovelContext.isCurrent id st = false ->
     NovelContext.currentNovel st' = NovelContext.currentNovel st /\
     NovelContext.characters st' = NovelContext.characters st /\
     NovelContext.places st' = NovelContext.places st /\
     NovelContext.notes st' = NovelContext.notes st).
Proof.
  eexists. eexists. split; [apply deleteNovel_run|].
  split; [apply novel_delete_run|]. cbv zeta.
  destruct (NovelContext.isCurrent id st); simpl.
  - split; [|split; [repeat split | discriminate]].
    intros n. rewrite filter_In, negb_true_iff, String.eqb_neq. tauto.
  - split; [|split; [discriminate | repeat split]].
    intros n. rewrite filter_In, negb_true_iff, String.eqb_neq. tauto.
Qed.

Lemma deleteNovel_effect_witness :
  exists st' w',
    NovelContext.deleteNovel "n1"
      (NovelContext.mkState [dune] (Some dune) [paul; leto] [arrakis]
                            [prophecy] false)
      (world_of db_links) = (Ok st', w') /\
    st' = NovelContext.mkState [] None [] [] [] false.
Proof.
  destruct (deleteNovel_effect "n1"
              (NovelContext.mkState [dune] (Some dune) [paul; leto] [arrakis]
                                    [prophecy] false)
              (world_of db_links))
    as (st' & w' & Hrun & _ & _ & _ & _).
  exists st', w'. split; [exact Hrun|].
  rewrite deleteNovel_run in Hrun. injection Hrun as <- _. reflexivity.
Defined.

(** X22.  [deleteCharacter] only filters the deleted character out of the
    cached list; it does not repeat the clean-up that
    [characterDB.delete] makes in the store.  So for two distinct stored
    characters [A] and [B] of one novel, [A] linked to [B] and [A]
    cached: after [deleteCharacter] of [B]'s id the cache has no
    character with [B]'s id and still holds [A] with [B]'s id among its
    links, while the store holds [A] without that link. *)
Theorem deleteCharacter_leaves_stale_link
        (A B : Character.t) (st : NovelContext.State) (w : World) :
  Store.wf (DB.characters (db w)) ->
  In A (DB.characters (db w)) ->
  In B (DB.characters (db w)) ->
  Character.novelId A = Character.novelId B ->
  Character.id A <> Character.id B ->
  In (Character.id B) (Character.linkedCharacterIds A) ->
  In A (NovelContext.characters st) ->
  exists st' w',
    NovelContext.deleteCharacter (Character.id B) st w = (Ok st', w') /\
    (forall c, In c (NovelContext.characters st') ->
       Character.id c <> Character.id B) /\
    In A (NovelContext.characters st') /\
    exists A',
      characterDB.get (Character.id A) w' = (Ok (Some A'), w') /\
      ~ In (Character.id B) (Character.linkedCharacterIds A') /\
      A' <> A.
Proof.
  intros Hwf HinA HinB Hnov Hne Hlink Hcache.
  pose proof (wf_In_get _ _ Hwf HinB) as HgB.
  pose proof (wf_In_get _ _ Hwf HinA) as HgA.
  change (key B) with (Character.id B) in HgB.
  change (key A) with (Character.id A) in HgA.
  destruct (character_delete_spec _ _ _ Hwf HgB)
    as (w' & Hrun & _ & _ & _ & _ & _ & _ & _ & Hk).
  eexists. exists w'. split.
  - unfold NovelContext.deleteCharacter. unfold bind at 1. rewrite Hrun.
    reflexivity.
  - cbn [NovelContext.characters NovelContext.setCharacters]. split.
    + intros c Hc. apply filter_In in Hc. destruct Hc as [_ Hc].
      now apply negb_true_iff, String.eqb_neq in Hc.
    + split.
      * apply filter_In. split; [assumption|].
        now apply negb_true_iff, String.eqb_neq.
      * destruct (Hk _ Hne) as [Hk1 _].
        destruct (Hk1 A HgA Hnov (proj2 (includes_In _ _) Hlink))
          as (t & _ & Hgt).
        exists (unlinked (Character.id B) A (clock w t)).
        rewrite characterDB_get_run, Hgt.
        split; [reflexivity|]. split; [apply not_In_filter_neq|].
        intros E. apply (not_In_filter_neq (Character.linkedCharacterIds A)
                                            (Character.id B)).
        change (In (Character.id B)
                   (Character.linkedCharacterIds
                      (unlinked (Character.id B) A (clock w t)))).
        rewrite E. exact Hlink.
Qed.

Lemma deleteCharacter_leaves_stale_link_witness :
  exists st' w',
    NovelContext.deleteCharacter "c1"
      (NovelContext.mkState [dune] (Some dune) [paul; leto] [arrakis]
                            [prophecy] false)
      (world_of db_links) = (Ok st', w') /\
    In leto (NovelContext.characters st') /\
    In "c1" (Character.linkedCharacterIds leto) /\
    exists A',
      characterDB.get "c2" w' = (Ok (Some A'), w') /\
      ~ In "c1" (Character.linkedCharacterIds A').
Proof.
  destruct (deleteCharacter_leaves_stale_link leto paul
              (NovelContext.mkState [dune] (Some dune) [paul; leto] [arrakis]
                                    [prophecy] false)
              (world_of db_links) db_links_characters_wf)
    as (st' & w' & Hrun & _ & Hin & A' & Hget & Hnot & _);
    [simpl; tauto | simpl; tauto | reflexivity | discriminate
    | simpl; tauto | simpl; tauto |].
  exists st', w'. split; [exact Hrun|]. split; [exact Hin|].
  split; [simpl; tauto|]. exists A'. split; [exact Hget | exact Hnot].
Defined.

(** X23.  [updateNovel] of an id that is not stored changes neither the
    cache nor the world.  For a stored novel it writes the update and
    then makes the cache agree with the store for that id: every cached
    novel with the id becomes the record that [get] now returns, cached
    novels with other ids and the order of the cached ids are unchanged,
    the selected novel is replaced exactly when it has the id, and the
    three entity lists are untouched. *)
Theorem updateNovel_effect (id : string) (data : Novel.partial)
        (st : NovelContext.State) (w : World) :
  (Store.get id (DB.novels (db w)) = None ->
   NovelContext.updateNovel id data st w = (Ok st, w)) /\
  (forall existing,
     Store.get id (DB.novels (db w)) = Some existing ->
     exists r st' w',
       NovelContext.updateNovel id data st w = (Ok st', w') /\
       novelDB.get id w' = (Ok (Some r), w') /\
       (forall n, In n (NovelContext.novels st') -> Novel.id n = id -> n = r) /\
       (forall n, Novel.id n <> id ->
          (In n (NovelContext.novels st') <-> In n (NovelContext.novels st))) /\
       map Novel.id (NovelContext.novels st') =
         map Novel.id (NovelContext.novels st) /\
       NovelContext.currentNovel st' =
         (if NovelContext.isCurrent id st then Some r
          else NovelContext.currentNovel st) /\
       NovelContext.characters st' = NovelContext.characters st /\
       NovelContext.places st' = NovelContext.places st /\
       NovelContext.notes st' = NovelContext.notes st).
Proof.
  split.
  - intros Hget. unfold NovelContext.updateNovel. unfold bind at 1.
    unfold novelDB.update. unfold bind at 1. unfold db_get at 1.
    cbn [sel s_novels]. rewrite Hget. reflexivity.
  - intros existing Hget.
    set (r := novel_updated id existing data (clock w (ticks w))).
    exists r. eexists. eexists. split.
    + unfold NovelContext.updateNovel. unfold bind at 1.
      rewrite (novel_update_eq id data existing w Hget). fold r.
      reflexivity.
    + split.
      * rewrite novelDB_get_run. cbn [db after_tick upd s_novels DB.novels].
        f_equal. f_equal. exact (get_put_same (V:=Novel.t) r _).
      * assert (Hmap : forall l n,
                  In n (map (fun n0 => if String.eqb (Novel.id n0) id
                                       then r else n0) l) ->
                  (Novel.id n = id -> n = r) /\
                  (Novel.id n <> id -> In n l)).
        { intros l n Hin. apply in_map_iff in Hin.
          destruct Hin as (n0 & Hn0 & Hin0).
          destruct (String.eqb_spec (Novel.id n0) id) as [E|E].
          - subst n. split; [reflexivity|]. intros Hne. now elim Hne.
          - subst n0. split; [contradiction | intros _; assumption]. }
        split; [|split; [|split; [|split]]].
        -- intros n Hin Hid.
           destruct (NovelContext.isCurrent id st);
             apply (proj1 (Hmap _ _ Hin) Hid).
        -- intros n Hne. split.
           ++ intros Hin. destruct (NovelContext.isCurrent id st);
                apply (proj2 (Hmap _ _ Hin) Hne).
           ++ intros Hin.
              assert (Hin' : In n (map (fun n0 =>
                                 if String.eqb (Novel.id n0) id then r else n0)
                               (NovelContext.novels st))).
              { apply in_map_iff. exists n. split; [|assumption].
                destruct (String.eqb_spec (Novel.id n) id);
                  [contradiction | reflexivity]. }
              destruct (NovelContext.isCurrent id st); exact Hin'.
        -- assert (Hids : map Novel.id
                            (map (fun n0 => if String.eqb (Novel.id n0) id
                                            then r else n0)
                                 (NovelContext.novels st)) =
                          map Novel.id (NovelContext.novels st)).
           { rewrite map_map. apply map_ext. intros n.
             destruct (String.eqb_spec (Novel.id n) id) as [E|E];
               [now rewrite E | reflexivity]. }
           destruct (NovelContext.isCurrent id st); exact Hids.
        -- destruct (NovelContext.isCurrent id st); reflexivity.
        -- destruct (NovelContext.isCurrent id st); repeat split.
Qed.

Lemma updateNovel_effect_witness :
  exists r st' w',
    NovelContext.updateNovel "n1" reid_payload
      (NovelContext.mkState [dune] (Some dune) [paul; leto] [arrakis]
                            [prophecy] false)
      (world_of db_links) = (Ok st', w') /\
    novelDB.get "n1" w' = (Ok (Some r), w') /\
    NovelContext.currentNovel st' = Some r /\
    NovelContext.updateNovel "n7" reid_payload
      (NovelContext.mkState [dune] (Some dune) [paul; leto] [arrakis]
                            [prophecy] false)
      (world_of db_links) =
    (Ok (NovelContext.mkState [dune] (Some dune) [paul; leto] [arrakis]
                              [prophecy] false),
     world_of db_links).
Proof.
  destruct (updateNovel_effect "n1" reid_payload
              (NovelContext.mkState [dune] (Some dune) [paul; leto] [arrakis]
                                    [prophecy] false)
              (world_of db_links)) as (_ & Hp).
  destruct (Hp dune eq_refl)
    as (r & st' & w' & Hrun & Hget & _ & _ & _ & Hcur & _).
  destruct (updateNovel_effect "n7" reid_payload
              (NovelContext.mkState [dune] (Some dune) [paul; leto] [arrakis]
                                    [prophecy] false)
              (world_of db_links)) as (Habs & _).
  exists r, st', w'. split; [exact Hrun|]. split; [exact Hget|].
  split; [exact Hcur | apply Habs; reflexivity].
Defined.

Lemma createNovel_run f st w :
  NovelContext.createNovel f st w =
  (Ok (novel_created f (next_id w) (clock w (ticks w)),
       NovelContext.setNovels
         (novel_created f (next_id w) (clock w (ticks w))
          :: NovelContext.novels st) st),
   after_create
     (upd s_novels
        (Store.put (novel_created f (next_id w) (clock w (ticks w)))
                   (DB.novels (db w))) (db w)) w).
Proof. reflexivity. Qed.

(** X24.  [createNovel] puts the new novel at the head of the cached
    list; when the cache is newest first and the clock is not behind any
    cached [updatedAt], the cache is still newest first afterwards, and
    the store returns the new novel for its id. *)
Theorem createNovel_keeps_newest_first
        (f : Novel.fields) (st : NovelContext.State) (w : World) :
  StronglySorted (fun a b => Novel.updatedAt b <= Novel.updatedAt a)
                 (NovelContext.novels st) ->
  (forall n, In n (NovelContext.novels st) ->
     Novel.updatedAt n <= clock w (ticks w)) ->
  exists r st' w',
    NovelContext.createNovel f st w = (Ok (r, st'), w') /\
    NovelContext.novels st' = r :: NovelContext.novels st /\
    StronglySorted (fun a b => Novel.updatedAt b <= Novel.updatedAt a)
                   (NovelContext.novels st') /\
    novelDB.get (Novel.id r) w' = (Ok (Some r), w').
Proof.
  intros Hsorted Hclock. eexists. eexists. eexists.
  split; [apply createNovel_run|].
  cbn [NovelContext.novels NovelContext.setNovels].
  split; [reflexivity|]. split.
  - constructor; [assumption|]. apply Forall_forall. intros n Hn.
    cbn [Novel.updatedAt novel_created]. now apply Hclock.
  - rewrite novelDB_get_run. cbn [db after_create upd s_novels DB.novels].
    f_equal. f_equal.
    exact (get_put_same (V:=Novel.t) (novel_created f _ _) _).
Qed.

Lemma createNovel_keeps_newest_first_witness :
  exists r st' w',
    NovelContext.createNovel messiah_fields
      (NovelContext.mkState [dune] None [] [] [] false)
      (world_of db_dune) = (Ok (r, st'), w') /\
    NovelContext.novels st' = [r; dune] /\
    Novel.updatedAt dune <= Novel.updatedAt r.
Proof.
  destruct (createNovel_keeps_newest_first messiah_fields
              (NovelContext.mkState [dune] None [] [] [] false)
              (world_of db_dune))
    as (r & st' & w' & Hrun & Hnovels & Hsorted & _).
  - repeat constructor.
  - intros n [<-|[]]. discriminate.
  - exists r, st', w'. split; [exact Hrun|]. split; [exact Hnovels|].
    rewrite Hnovels in Hsorted. inversion Hsorted as [|? ? _ Hall]; subst.
    inversion Hall; subst. assumption.
Defined.

Lemma place_delete_gone id w :
  exists w',
    placeDB.delete id w = (Ok tt, w') /\
    Store.get id (DB.places (db w')) = None.
Proof.
  destruct (Store.get id (DB.places (db w))) as [p|] eqn:Hget.
  - eexists. split; [apply (place_delete_run id p w Hget)|].
    cbn [db set_db DB.places]. apply get_delete_same.
  - exists w. split; [|assumption].
    unfold placeDB.delete. unfold bind at 1. unfold db_get at 1.
    cbn [sel s_places]. now rewrite Hget.
Qed.

(** X26.  The cached entity lists follow creates and deletes:
    [createCharacter], [createPlace] and [createNote] append the record
    that was stored, whatever its [novelId] and whatever novel is
    selected; [deletePlace] and [deleteNote] leave neither a stored nor a
    cached record with the id, and keep every cached record with another
    id. *)
Theorem entity_cache_follows_store (st : NovelContext.State) (w : World) :
  (forall f, exists r st' w',
     NovelContext.createCharacter f st w = (Ok (r, st'), w') /\
     NovelContext.characters st' = NovelContext.characters st ++ [r] /\
     Character.novelId r = Character.f_novelId f /\
     characterDB.get (Character.id r) w' = (Ok (Some r), w')) /\
  (forall f, exists r st' w',
     NovelContext.createPlace f st w = (Ok (r, st'), w') /\
     NovelContext.places st' = NovelContext.places st ++ [r] /\
     Place.novelId r = Place.f_novelId f /\
     placeDB.get (Place.id r) w' = (Ok (Some r), w')) /\
  (forall f, exists r st' w',
     NovelContext.createNote f st w = (Ok (r, st'), w') /\
     NovelContext.notes st' = NovelContext.notes st ++ [r] /\
     Note.novelId r = Note.f_novelId f /\
     noteDB.get (Note.id r) w' = (Ok (Some r), w')) /\
  (forall id, exists st' w',
     NovelContext.deletePlace id st w = (Ok st', w') /\
     placeDB.get id w' = (Ok None, w') /\
     forall p, In p (NovelContext.places st') <->
       In p (NovelContext.places st) /\ Place.id p <> id) /\
  (forall id, exists st' w',
     NovelContext.deleteNote id st w = (Ok st', w') /\
     noteDB.get id w' = (Ok None, w') /\
     forall n, In n (NovelContext.notes st') <->
       In n (NovelContext.notes st) /\ Note.id n <> id).
Proof.
  split; [|split; [|split; [|split]]].
  - intros f. eexists. eexists. eexists.
    split; [unfold NovelContext.createCharacter; unfold bind at 1;
            rewrite character_create_eq; reflexivity|].
    split; [reflexivity|]. split; [reflexivity|].
    rewrite characterDB_get_run.
    cbn [db after_create upd s_characters DB.characters].
    f_equal. f_equal.
    exact (get_put_same (V:=Character.t) (character_created f _ _) _).
  - intros f. eexists. eexists. eexists.
    split; [unfold NovelContext.createPlace; unfold bind at 1;
            rewrite place_create_eq; reflexivity|].
    split; [reflexivity|]. split; [reflexivity|].
    rewrite placeDB_get_run. cbn [db after_create upd s_places DB.places].
    f_equal. f_equal.
    exact (get_put_same (V:=Place.t) (place_created f _ _) _).
  - intros f. eexists. eexists. eexists.
    split; [unfold NovelContext.createNote; unfold bind at 1;
            rewrite note_create_eq; reflexivity|].
    split; [reflexivity|]. split; [reflexivity|].
    rewrite noteDB_get_run. cbn [db after_create upd s_notes DB.notes].
    f_equal. f_equal.
    exact (get_put_same (V:=Note.t) (note_created f _ _) _).
  - intros id. destruct (place_delete_gone id w) as (w' & Hrun & Hgone).
    eexists. exists w'.
    split; [unfold NovelContext.deletePlace; unfold bind at 1;
            rewrite Hrun; reflexivity|].
    split; [rewrite placeDB_get_run; now rewrite Hgone|].
    intros p. cbn [NovelContext.places NovelContext.setPlaces].
    rewrite filter_In, negb_true_iff, String.eqb_neq. tauto.
  - intros id. eexists. eexists.
    split; [unfold NovelContext.deleteNote; unfold bind at 1;
            unfold noteDB.delete, db_delete; reflexivity|].
    split.
    + rewrite noteDB_get_run. cbn [db set_db upd s_notes sel DB.notes].
      now rewrite get_delete_same.
    + intros n. cbn [NovelContext.notes NovelContext.setNotes].
      rewrite filter_In, negb_true_iff, String.eqb_neq. tauto.
Qed.
